(** * WaveController: sawtooth oscillator, ring buffer, knobs, pointer input

    A shallow embedding of [src/main.cpp].

    - [int] and [unsigned long] values are [Z]; the program keeps them far
      from the limits of their types, and signed overflow is undefined in
      C++, so no wrap-around is written for them (the one conversion that can
      overflow, [%d] in [sscanf], has its own model).
    - [float] arithmetic goes through the interface [FloatArith], so that
      every function below is written once, operation for operation as the
      source has it.  The arithmetic of the program is [b32_arith]: IEEE 754
      binary32 with round-to-nearest-even, built on the Standard Library's
      [SpecFloat].  What is stated about the values the program computes is
      proved for [b32_arith] and for all binary32 numbers, from the fact that
      each operation returns a number of the format next to the exact result
      (section "Rounding" below).  [Q_arith], exact rational arithmetic, is
      not the arithmetic of the program: it is the reading under which the
      specification writes its formulas, kept as a reference to compare with.
    - [std::vector<float>] is a [list], indexed with stdpp's lookup and
      insert.  An out-of-range [operator[]] is undefined in C++; stdpp's
      insert does nothing there and the lookup yields the default 0; the
      cursor invariant proved below shows that the case never arises.
    - Rendering (SDL) and audio output (PortAudio) calls are effects of the
      external libraries; what the program hands to them (line segments,
      output samples) is returned as data. *)

From Stdlib Require Import Reals Lra.
From Stdlib Require Import ZArith QArith Qround Qabs Lia Lqa Bool String Ascii.
From Stdlib Require Import Floats.SpecFloat.
From Stdlib Require Import DecimalString DecimalPos.
From stdpp Require Import list.

Local Open Scope Z_scope.

(** ** Constants of the source *)

Definition SAMPLE_RATE : Z := 44100.
Definition FRAMES_PER_BUFFER : Z := 256.
Definition WINDOW_WIDTH : Z := 1000.
Definition WINDOW_HEIGHT : Z := 600.
Definition WAVE_SAMPLES : Z := 800.
Definition KNOB_RADIUS : Z := 30.
Definition KNOB_PANEL_HEIGHT : Z := 120.

(** ** The arithmetic of [float] *)

Class FloatArith (F : Type) := {
  of_int : Z -> F;            (* conversion int -> float *)
  fadd : F -> F -> F;
  fsub : F -> F -> F;
  fmul : F -> F -> F;
  fdiv : F -> F -> F;
  flt : F -> F -> bool;       (* a < b *)
  fle : F -> F -> bool;       (* a <= b *)
  fmod1 : F -> F;             (* fmod(a, 1.0f): truncated remainder *)
  fsqrt_le : F -> F -> bool;  (* sqrt(a) <= b *)
  ftrunc : F -> Z             (* conversion float -> int, towards zero *)
}.

Declare Scope float_scope.
Delimit Scope float_scope with flt.
Infix "[+]" := fadd (at level 50, left associativity) : float_scope.
Infix "[-]" := fsub (at level 50, left associativity) : float_scope.
Infix "[*]" := fmul (at level 40, left associativity) : float_scope.
Infix "[/]" := fdiv (at level 40, left associativity) : float_scope.
Infix "[<]" := flt (at level 70, no associativity) : float_scope.
Infix "[<=]" := fle (at level 70, no associativity) : float_scope.
Notation "a [>=] b" := (fle b a) (at level 70, no associativity) : float_scope.

(** *** Exact rationals

    The same interface over the rationals: no rounding, no overflow, no NaN
    and no infinity.  This is not the arithmetic of [float]; it is the
    arithmetic in which the specification writes its formulas.  A formula
    that holds here is compared below with what [b32_arith] computes. *)

Definition Qlt_bool (a b : Q) : bool :=
  match (a ?= b)%Q with Lt => true | _ => false end.

Definition Qtrunc (a : Q) : Z := Z.quot (Qnum a) (Zpos (Qden a)).

Definition Qfmod1 (a : Q) : Q := (a - inject_Z (Qtrunc a))%Q.

(** [sqrt a <= b] without a square root: [a] is non-negative (the square
    root of a negative number is a NaN, which compares false), [b] is
    non-negative and [a <= b * b]. *)
Definition Qsqrt_le (a b : Q) : bool :=
  Qle_bool 0 a && Qle_bool 0 b && Qle_bool a (b * b).

#[export] Instance Q_arith : FloatArith Q := {
  of_int := inject_Z;
  fadd := Qplus;
  fsub := Qminus;
  fmul := Qmult;
  fdiv := Qdiv;
  flt := Qlt_bool;
  fle := Qle_bool;
  fmod1 := Qfmod1;
  fsqrt_le := Qsqrt_le;
  ftrunc := Qtrunc
}.

(** *** IEEE 754 binary32 *)

Module B32.

Definition prec : Z := 24.
Definition emax : Z := 128.

Definition of_Z (z : Z) : spec_float := binary_normalize prec emax z 0 false.

(** [fmod(x, 1.0f)] is exact: it keeps the bits of the mantissa below the
    binary point, with the sign of [x]. *)
Definition fmod_one (a : spec_float) : spec_float :=
  match a with
  | S754_zero s => S754_zero s
  | S754_finite s m e =>
      if 0 <=? e then S754_zero s
      else
        let r := Zpos m mod 2 ^ (- e) in
        if r =? 0 then S754_zero s
        else binary_normalize prec emax (cond_Zopp s r) e false
  | _ => S754_nan
  end.

Definition sqrt_le (a b : spec_float) : bool :=
  SFleb (SFsqrt prec emax a) b.

(** Conversion to [int] truncates; NaN and infinities (undefined in C++)
    give 0 here. *)
Definition trunc (a : spec_float) : Z :=
  match a with
  | S754_finite s m e =>
      cond_Zopp s (if 0 <=? e then Zpos m * 2 ^ e else Zpos m / 2 ^ (- e))
  | _ => 0
  end.

End B32.

#[export] Instance b32_arith : FloatArith spec_float := {
  of_int := B32.of_Z;
  fadd := SFadd B32.prec B32.emax;
  fsub := SFsub B32.prec B32.emax;
  fmul := SFmul B32.prec B32.emax;
  fdiv := SFdiv B32.prec B32.emax;
  flt := SFltb;
  fle := SFleb;
  fmod1 := B32.fmod_one;
  fsqrt_le := B32.sqrt_le;
  ftrunc := B32.trunc
}.

(** *** The value of a binary32 number

    A finite [spec_float] with sign [s], mantissa [m] and exponent [e] is the
    real number [(-1)^s * m * 2^e].  The statements about [b32_arith] below
    are made with the comparisons of the floats themselves; their proofs go
    through this value. *)

Definition bpow (e : Z) : R := powerRZ 2 e.

Definition B2R (x : spec_float) : R :=
  match x with
  | S754_finite s m e => (IZR (cond_Zopp s (Zpos m)) * bpow e)%R
  | _ => 0%R
  end.

Definition is_finite (x : spec_float) : bool :=
  match x with
  | S754_zero _ | S754_finite _ _ _ => true
  | _ => false
  end.

(** [spec_float] has more inhabitants than a format has values: a mantissa
    with too many bits, or one that is not normalised, or an exponent out of
    range, is no floating-point number, and [valid_binary] tells.  A number
    of the format is a zero, or a mantissa and an exponent that the format
    allows; it is not a NaN and not an infinity. *)
Definition finite_valid (prec emax : Z) (x : spec_float) : bool :=
  valid_binary prec emax x && is_finite x.

(** [x] lies in the cell [[m * 2^e, (m + 1) * 2^e)], at the place that the
    location [l] names: on its lower end, below, at or above its middle. *)
Definition inbetween (m e : Z) (l : location) (x : R) : Prop :=
  match l with
  | loc_Exact => x = (IZR m * bpow e)%R
  | loc_Inexact Lt => (IZR m * bpow e < x < (IZR m + / 2) * bpow e)%R
  | loc_Inexact Eq => x = ((IZR m + / 2) * bpow e)%R
  | loc_Inexact Gt => ((IZR m + / 2) * bpow e < x < (IZR m + 1) * bpow e)%R
  end.

(** The values of the C++ type [float] that are numbers: every [float] of
    the program is one of these, an infinity or a NaN. *)
Definition binary32 (x : spec_float) : bool := finite_valid B32.prec B32.emax x.

Local Open Scope float_scope.

(** [std::max] and [std::min], as the C++ standard defines them. *)
Definition fmax {F} `{FloatArith F} (a b : F) : F := if a [<] b then b else a.
Definition fmin {F} `{FloatArith F} (a b : F) : F := if b [<] a then b else a.

(** ** [struct Knob] *)

Module Knob.
Section WithFloat.
Context {F : Type} `{FloatArith F}.

Record Knob := mkKnob {
  x : F;
  y : F;
  value : F;
  minValue : F;
  maxValue : F;
  label : string;
  isDragging : bool;
  dragStartY : F;
  dragStartValue : F
}.

(** The constructor [Knob(x, y, min, max, initial, label)]. *)
Definition make (x0 y0 min max initial : F) (lbl : string) : Knob :=
  {| x := x0; y := y0; value := initial; minValue := min; maxValue := max;
     label := lbl; isDragging := false;
     dragStartY := of_int 0; dragStartValue := of_int 0 |}.

Definition set_value (k : Knob) (v : F) : Knob :=
  {| x := x k; y := y k; value := v; minValue := minValue k;
     maxValue := maxValue k; label := label k; isDragging := isDragging k;
     dragStartY := dragStartY k; dragStartValue := dragStartValue k |}.

Definition set_isDragging (k : Knob) (b : bool) : Knob :=
  {| x := x k; y := y k; value := value k; minValue := minValue k;
     maxValue := maxValue k; label := label k; isDragging := b;
     dragStartY := dragStartY k; dragStartValue := dragStartValue k |}.

(** The first [if] of [update]: the three assignments that start a drag. *)
Definition start_drag (k : Knob) (mouseY : Z) : Knob :=
  {| x := x k; y := y k; value := value k; minValue := minValue k;
     maxValue := maxValue k; label := label k; isDragging := true;
     dragStartY := of_int mouseY; dragStartValue := value k |}.

(** [distance <= KNOB_RADIUS] for the pointer at [(mouseX, mouseY)]. *)
Definition within_radius (k : Knob) (mouseX mouseY : Z) : bool :=
  let dx := of_int mouseX [-] x k in
  let dy := of_int mouseY [-] y k in
  fsqrt_le (dx [*] dx [+] dy [*] dy) (of_int KNOB_RADIUS).

(** The value a drag gives, before and after clamping. *)
Definition drag_target (k : Knob) (mouseY : Z) : F :=
  let deltaY := dragStartY k [-] of_int mouseY in
  let sensitivity := (maxValue k [-] minValue k) [/] of_int 100 in
  dragStartValue k [+] deltaY [*] sensitivity.

Definition clamp (k : Knob) (v : F) : F :=
  fmax (minValue k) (fmin (maxValue k) v).

Definition update (k : Knob) (mouseX mouseY : Z) (mouseDown : bool) : Knob :=
  let k1 :=
    if mouseDown && within_radius k mouseX mouseY && negb (isDragging k)
    then start_drag k mouseY
    else k in
  if isDragging k1 then
    if mouseDown then set_value k1 (clamp k1 (drag_target k1 mouseY))
    else set_isDragging k1 false
  else k1.

End WithFloat.
Arguments Knob F : clear implicits.
End Knob.

(** The three knobs [main] creates. *)
Definition knobY : Z := WINDOW_HEIGHT - Z.quot KNOB_PANEL_HEIGHT 2.

Definition frequency_knob {F} `{FloatArith F} : Knob.Knob F :=
  Knob.make (of_int 150) (of_int knobY) (of_int 50) (of_int 2000)
            (of_int 440) "Frequency".
Definition phase_knob {F} `{FloatArith F} : Knob.Knob F :=
  Knob.make (of_int 350) (of_int knobY) (of_int 0) (of_int 1)
            (of_int 0) "Phase".
Definition amplitude_knob {F} `{FloatArith F} : Knob.Knob F :=
  Knob.make (of_int 550) (of_int knobY) (of_int 0) (of_int 1)
            (of_int 3 [/] of_int 10) "Amplitude".

(** ** [struct SawtoothData] and the audio callback *)

(** What a function does to the world outside its local variables, in
    program order: mutex operations, stores to the shared oscillator data
    and samples written to the output buffer. *)
Inductive effect (F : Type) : Type :=
| Acquire                          (* bufferMutex.lock() *)
| Release                          (* bufferMutex.unlock() *)
| BufferStore (index : Z) (v : F)  (* waveBuffer[index] = v *)
| CursorStore (index : Z)          (* bufferIndex = index *)
| Output (v : F)                   (* *out++ = v *)
| PhaseStore (v : F).              (* phase = v *)
Arguments Acquire {F}.
Arguments Release {F}.
Arguments BufferStore {F} index v.
Arguments CursorStore {F} index.
Arguments Output {F} v.
Arguments PhaseStore {F} v.

Section Sawtooth.
Context {F : Type} `{FloatArith F}.

(** [v[i]] and [v[i] = a] on a [std::vector<float>]. *)
Definition vec_get (v : list F) (i : Z) : F :=
  if i <? 0 then of_int 0 else default (of_int 0) (v !! Z.to_nat i).
Definition vec_set (v : list F) (i : Z) (a : F) : list F :=
  if i <? 0 then v else <[Z.to_nat i := a]> v.

Record SawtoothData := mkSawtoothData {
  frequency : F;
  phase : F;
  phaseOffset : F;
  amplitude : F;
  waveBuffer : list F;
  bufferIndex : Z
}.

(** The constructor [SawtoothData()]. *)
Definition SawtoothData_init : SawtoothData :=
  {| frequency := of_int 440;
     phase := of_int 0;
     phaseOffset := of_int 0;
     amplitude := of_int 3 [/] of_int 10;
     waveBuffer := replicate (Z.to_nat WAVE_SAMPLES) (of_int 0);
     bufferIndex := 0 |}.

Definition set_phase (d : SawtoothData) (p : F) : SawtoothData :=
  {| frequency := frequency d; phase := p; phaseOffset := phaseOffset d;
     amplitude := amplitude d; waveBuffer := waveBuffer d;
     bufferIndex := bufferIndex d |}.

Definition set_params (d : SawtoothData) (f po a : F) : SawtoothData :=
  {| frequency := f; phase := phase d; phaseOffset := po;
     amplitude := a; waveBuffer := waveBuffer d;
     bufferIndex := bufferIndex d |}.

(** Lines 169-170: the phase with its offset, folded into one period. *)
Definition adjustedPhase (d : SawtoothData) : F :=
  let a := fmod1 (phase d [+] phaseOffset d) in
  if a [<] of_int 0 then a [+] of_int 1 else a.

(** Line 173. *)
Definition sample_of (d : SawtoothData) : F :=
  (of_int 2 [*] adjustedPhase d [-] of_int 1) [*] amplitude d.

(** Lines 176-177: one write into the ring buffer. *)
Definition ring_write (d : SawtoothData) (sample : F) : SawtoothData :=
  {| frequency := frequency d; phase := phase d;
     phaseOffset := phaseOffset d; amplitude := amplitude d;
     waveBuffer := vec_set (waveBuffer d) (bufferIndex d) sample;
     bufferIndex := Z.rem (bufferIndex d + 1) WAVE_SAMPLES |}.

(** Lines 184-187. *)
Definition phase_increment (d : SawtoothData) : F :=
  phase d [+] frequency d [/] of_int SAMPLE_RATE.

Definition advance_phase (d : SawtoothData) : SawtoothData :=
  let p := phase_increment d in
  set_phase d (if p [>=] of_int 1 then p [-] of_int 1 else p).

Definition advance_effects (d : SawtoothData) : list (effect F) :=
  let p := phase_increment d in
  PhaseStore p :: (if p [>=] of_int 1 then [PhaseStore (p [-] of_int 1)] else []).

(** The body of the [for] loop, for frame [i]. *)
Definition frame (d : SawtoothData) (i : Z) : SawtoothData * list (effect F) :=
  let sample := sample_of d in
  let '(d1, e1) :=
    if Z.rem i 4 =? 0
    then (ring_write d sample,
          [BufferStore (bufferIndex d) sample;
           CursorStore (Z.rem (bufferIndex d + 1) WAVE_SAMPLES)])
    else (d, []) in
  (advance_phase d1,
   e1 ++ [Output sample; Output sample] ++ advance_effects d1).

(** [n] iterations of the loop, the first one with index [i]. *)
Fixpoint frames (n : nat) (i : Z) (d : SawtoothData)
  : SawtoothData * list (effect F) :=
  match n with
  | O => (d, [])
  | S n' =>
      let '(d1, e1) := frame d i in
      let '(d2, e2) := frames n' (i + 1) d1 in
      (d2, e1 ++ e2)
  end.

(** [sawtoothCallback]: the [lock_guard] of line 165 locks the mutex before
    the loop and unlocks it when the function returns. *)
Definition sawtoothCallback (d : SawtoothData) (framesPerBuffer : Z)
  : SawtoothData * list (effect F) :=
  let '(d', e) := frames (Z.to_nat framesPerBuffer) 0 d in
  (d', Acquire :: e ++ [Release]).

(** The interleaved stereo samples the callback hands to the device. *)
Definition outputs (e : list (effect F)) : list F :=
  omap (fun ev => match ev with Output v => Some v | _ => None end) e.

(** ** [drawWaveform] *)

Definition waveAreaHeight : Z := WINDOW_HEIGHT - KNOB_PANEL_HEIGHT.
Definition centerY : Z := Z.quot waveAreaHeight 2.
Definition scaleY : Z := ftrunc (of_int waveAreaHeight [*] (of_int 4 [/] of_int 10)).

Definition pixel_x (i : Z) : Z := Z.quot (i * WINDOW_WIDTH) WAVE_SAMPLES.
Definition pixel_y (sample : F) : Z :=
  ftrunc (of_int centerY [-] sample [*] of_int scaleY).

(** The line [SDL_RenderDrawLine(renderer, x1, y1, x2, y2)] of iteration [i]. *)
Definition segment (d : SawtoothData) (i : Z) : Z * Z * Z * Z :=
  let sampleIndex1 := Z.rem (bufferIndex d + i) WAVE_SAMPLES in
  let sampleIndex2 := Z.rem (bufferIndex d + i + 1) WAVE_SAMPLES in
  let sample1 := vec_get (waveBuffer d) sampleIndex1 in
  let sample2 := vec_get (waveBuffer d) sampleIndex2 in
  let x1 := pixel_x i in
  let y1 := pixel_y sample1 in
  let x2 := pixel_x (i + 1) in
  let y2 := pixel_y sample2 in
  (x1, y1, x2, y2).

(** The function reads [data] under the lock and assigns to none of its
    fields; its result is the list of lines drawn. *)
Definition drawWaveform (d : SawtoothData) : list (Z * Z * Z * Z) :=
  segment d <$> seqZ 0 (WAVE_SAMPLES - 1).

(** The samples in the order [drawWaveform] visits them: position [j] is
    [sample1] of iteration [j] (and [sample2] of iteration [j - 1]). *)
Definition snapshot (d : SawtoothData) : list F :=
  (fun j => vec_get (waveBuffer d) (Z.rem (bufferIndex d + j) WAVE_SAMPLES))
    <$> seqZ 0 WAVE_SAMPLES.

(** The polyline through a list of samples, oldest first. *)
Definition polyline (l : list F) : list (Z * Z * Z * Z) :=
  (fun i => (pixel_x i, pixel_y (vec_get l i),
             pixel_x (i + 1), pixel_y (vec_get l (i + 1))))
    <$> seqZ 0 (WAVE_SAMPLES - 1).

End Sawtooth.
Arguments SawtoothData F : clear implicits.

(** ** The pointer signal and [udpListener] *)

(** The globals [handX], [handY], [handPinch]. *)
Record PointerSignal := mkPointer {
  handX : Z;
  handY : Z;
  handPinch : bool
}.

Definition PointerSignal_init : PointerSignal :=
  {| handX := 0; handY := 0; handPinch := false |}.

(** [sscanf] belongs to the C library, not to the repository; this is the
    behaviour ISO C gives it for a format made of [%d] directives and
    ordinary characters (7.21.6.2): [%d] skips white space, reads an
    optional sign and a non-empty run of decimal digits; an ordinary
    character must match the next input character; the call returns the
    number of assignments, or [EOF] when the input ends before the first
    conversion. *)
Module Scan.

Definition EOF : Z := -1.

Definition code (c : ascii) : Z := Z.of_N (N_of_ascii c).

Definition isspace (c : ascii) : bool :=
  (code c =? 32) || ((9 <=? code c) && (code c <=? 13)).

Definition isdigit (c : ascii) : bool :=
  (48 <=? code c) && (code c <=? 57).

Fixpoint skip_space (s : string) : string :=
  match s with
  | String c r => if isspace c then skip_space r else s
  | EmptyString => s
  end.

(** Reads the digits at the head of [s] into the accumulator. *)
Fixpoint digits (s : string) (acc : Z) : Z * string :=
  match s with
  | String c r => if isdigit c then digits r (10 * acc + (code c - 48)) else (acc, s)
  | EmptyString => (acc, s)
  end.

(** The stored [int].  ISO C leaves a value out of the range of [int]
    undefined; glibc converts as [strtol] does (saturating at the limits of
    a 64-bit [long]) and stores the low 32 bits. *)
Definition to_int (n : Z) : Z :=
  let l := Z.max (- 2 ^ 63) (Z.min (2 ^ 63 - 1) n) in
  (l + 2 ^ 31) mod 2 ^ 32 - 2 ^ 31.

Inductive conversion : Type :=
| Converted (v : Z) (rest : string)
| MatchingFailure
| InputFailure.

Definition scan_int (s : string) : conversion :=
  match skip_space s with
  | EmptyString => InputFailure
  | String c r =>
      let '(negative, s1) :=
        if Ascii.eqb c "-"%char then (true, r)
        else if Ascii.eqb c "+"%char then (false, r)
        else (false, String c r) in
      match s1 with
      | String c1 _ =>
          if isdigit c1 then
            let '(n, rest) := digits s1 0 in
            Converted (to_int (if negative then - n else n)) rest
          else MatchingFailure
      | EmptyString => MatchingFailure
      end
  end.

Inductive directive : Type :=
| D_int                (* %d *)
| D_char (c : ascii).  (* an ordinary character *)

(** The return value when the scan stops after the assignments [vals]. *)
Definition count (vals : list Z) : Z := Z.of_nat (length vals).

Fixpoint run (fmt : list directive) (s : string) (vals : list Z) : Z * list Z :=
  match fmt with
  | [] => (count vals, vals)
  | D_int :: fmt' =>
      match scan_int s with
      | Converted v rest => run fmt' rest (vals ++ [v])
      | MatchingFailure => (count vals, vals)
      | InputFailure => (if vals is [] then EOF else count vals, vals)
      end
  | D_char c :: fmt' =>
      match s with
      | String c' rest =>
          if Ascii.eqb c c' then run fmt' rest vals else (count vals, vals)
      | EmptyString => (if vals is [] then EOF else count vals, vals)
      end
  end.

(** The format ["%d,%d,%d"]. *)
Definition format_ddd : list directive :=
  [D_int; D_char ","%char; D_int; D_char ","%char; D_int].

(** [sscanf(buf, "%d,%d,%d", &x, &y, &pinch)]: the return value and the
    values assigned, in the order of the arguments. *)
Definition sscanf_ddd (buf : string) : Z * list Z := run format_ddd buf [].

End Scan.

(** The bytes of [buf] seen as a C string: up to the first NUL. *)
Fixpoint c_string (s : string) : string :=
  match s with
  | String c r => if Ascii.eqb c Ascii.zero then EmptyString else String c (c_string r)
  | EmptyString => EmptyString
  end.

(** [recv(sockfd, buf, sizeof(buf) - 1, 0)] on a datagram: the first 63
    bytes are copied, the rest is dropped, the result is their number. *)
Definition recv (datagram : string) : Z * string :=
  let buf := String.substring 0 63 datagram in
  (Z.of_nat (String.length buf), buf).

(** One iteration of the [while (true)] loop of [udpListener]. *)
Definition udp_receive (p : PointerSignal) (datagram : string) : PointerSignal :=
  let '(len, buf) := recv datagram in
  if 0 <? len then
    let '(ret, vals) := Scan.sscanf_ddd (c_string buf) in
    let pinch := nth 2 vals 0 in
    if 2 <=? ret then
      {| handX := nth 0 vals 0; handY := nth 1 vals 0;
         handPinch := (pinch =? 1) |}
    else p
  else p.

Definition udpListener (datagrams : list string) : PointerSignal :=
  fold_left udp_receive datagrams PointerSignal_init.

(** ** The main loop *)

Inductive SDL_Event : Type :=
| SDL_QUIT
| SDL_KEYDOWN (sym : Z)
| SDL_MOUSEBUTTONDOWN (button : Z)
| SDL_MOUSEBUTTONUP (button : Z)
| SDL_MOUSEMOTION (x y : Z)
| SDL_OTHER.

Definition SDLK_ESCAPE : Z := 27.
Definition SDL_BUTTON_LEFT : Z := 1.

Definition is_mouse_event (e : SDL_Event) : bool :=
  match e with
  | SDL_MOUSEBUTTONDOWN _ | SDL_MOUSEBUTTONUP _ | SDL_MOUSEMOTION _ _ => true
  | _ => false
  end.

Section MainLoop.
Context {F : Type} `{FloatArith F}.

(** The variables of [main] that the loop reads and writes. *)
Record LoopState := mkLoopState {
  running : bool;
  mouseX : Z;
  mouseY : Z;
  mouseDown : bool;
  knobs : list (Knob.Knob F);
  data : SawtoothData F
}.

Definition main_init : LoopState :=
  {| running := true; mouseX := 0; mouseY := 0; mouseDown := false;
     knobs := [frequency_knob; phase_knob; amplitude_knob];
     data := SawtoothData_init |}.

(** The body of [while (SDL_PollEvent(&event))]. *)
Definition handle_event (st : LoopState) (e : SDL_Event) : LoopState :=
  match e with
  | SDL_QUIT =>
      {| running := false; mouseX := mouseX st; mouseY := mouseY st;
         mouseDown := mouseDown st; knobs := knobs st; data := data st |}
  | SDL_KEYDOWN sym =>
      {| running := if sym =? SDLK_ESCAPE then false else running st;
         mouseX := mouseX st; mouseY := mouseY st;
         mouseDown := mouseDown st; knobs := knobs st; data := data st |}
  | SDL_MOUSEBUTTONDOWN button =>
      {| running := running st; mouseX := mouseX st; mouseY := mouseY st;
         mouseDown := if button =? SDL_BUTTON_LEFT then true else mouseDown st;
         knobs := knobs st; data := data st |}
  | SDL_MOUSEBUTTONUP button =>
      {| running := running st; mouseX := mouseX st; mouseY := mouseY st;
         mouseDown := if button =? SDL_BUTTON_LEFT then false else mouseDown st;
         knobs := knobs st; data := data st |}
  | SDL_MOUSEMOTION ex ey =>
      {| running := running st; mouseX := ex; mouseY := ey;
         mouseDown := mouseDown st; knobs := knobs st; data := data st |}
  | SDL_OTHER => st
  end.

(** The [switch (i)] that copies a knob value into the audio data. *)
Definition sync_parameter (i : nat) (v : F) (d : SawtoothData F) : SawtoothData F :=
  match i with
  | 0%nat => set_params d v (phaseOffset d) (amplitude d)
  | 1%nat => set_params d (frequency d) v (amplitude d)
  | 2%nat => set_params d (frequency d) (phaseOffset d) v
  | _ => d
  end.

(** The [for] loop over the knobs, from index [i] on.  [hand i] is what
    the three atomic loads of iteration [i] return. *)
Fixpoint update_knobs (hand : nat -> PointerSignal) (i : nat)
    (ks : list (Knob.Knob F)) (d : SawtoothData F)
  : list (Knob.Knob F) * SawtoothData F :=
  match ks with
  | [] => ([], d)
  | k :: ks' =>
      let p := hand i in
      let k' := Knob.update k (handX p) (handY p) (handPinch p) in
      let '(ks'', d') := update_knobs hand (S i) ks' (sync_parameter i (Knob.value k') d) in
      (k' :: ks'', d')
  end.

(** One pass through the body of [while (running)]: the events polled,
    then the knobs.  Drawing assigns to none of these variables. *)
Definition main_iteration (st : LoopState)
    (input : list SDL_Event * (nat -> PointerSignal)) : LoopState :=
  let st1 := fold_left handle_event input.1 st in
  let '(ks, d) := update_knobs input.2 0 (knobs st1) (data st1) in
  {| running := running st1; mouseX := mouseX st1; mouseY := mouseY st1;
     mouseDown := mouseDown st1; knobs := ks; data := d |}.

(** The loop, on the inputs of its successive iterations. *)
Fixpoint main_loop (inputs : list (list SDL_Event * (nat -> PointerSignal)))
    (st : LoopState) : LoopState :=
  match inputs with
  | [] => st
  | input :: rest =>
      if running st then main_loop rest (main_iteration st input) else st
  end.

End MainLoop.
Arguments LoopState F : clear implicits.

(** ** Vocabulary of the properties *)

(** The fractional part, [frac] in the specification. *)
Definition frac (a : Q) : Q := (a - inject_Z (Qfloor a))%Q.

Section Vocabulary.
Context {F : Type} `{FloatArith F}.

(** The ring buffer is well formed: 800 slots and a cursor on one of them. *)
Definition cursor_ok (d : SawtoothData F) : Prop :=
  0 <= bufferIndex d < WAVE_SAMPLES.

Definition buffer_ok (d : SawtoothData F) : Prop :=
  length (waveBuffer d) = Z.to_nat WAVE_SAMPLES /\ cursor_ok d.

(** The state after writing the samples of [l], oldest first. *)
Definition write_all (l : list F) (d : SawtoothData F) : SawtoothData F :=
  fold_left ring_write l d.

(** The stores into the ring buffer among the effects of a run. *)
Definition buffer_stores (e : list (effect F)) : list (Z * F) :=
  omap (fun ev => match ev with BufferStore i v => Some (i, v) | _ => None end) e.

(** What the threads do to the oscillator data.  The mutex makes a whole
    callback and a whole [drawWaveform] exclude each other; the main loop
    stores the three parameters without the lock. *)
Inductive operation : Type :=
| Callback (framesPerBuffer : Z)
| Draw
| SetParameters (f po a : F).

Definition run_operation (d : SawtoothData F) (o : operation) : SawtoothData F :=
  match o with
  | Callback n => (sawtoothCallback d n).1
  | Draw => d
  | SetParameters f po a => set_params d f po a
  end.

Definition run_operations (os : list operation) : SawtoothData F :=
  fold_left run_operation os SawtoothData_init.

(** The critical sections of a run: the effects between each [Acquire] and
    the [Release] that follows it.  [cur] is the section under way. *)
Fixpoint critical_sections (cur : option (list (effect F)))
    (e : list (effect F)) : list (list (effect F)) :=
  match e with
  | [] => []
  | Acquire :: e' => critical_sections (Some []) e'
  | Release :: e' =>
      match cur with
      | Some cs => cs :: critical_sections None e'
      | None => critical_sections None e'
      end
  | ev :: e' => critical_sections ((fun cs => cs ++ [ev]) <$> cur) e'
  end.

(** A section that holds one buffer write and one cursor store, no more. *)
Definition single_write (cs : list (effect F)) : bool :=
  match cs with
  | [BufferStore _ _; CursorStore _] => true
  | _ => false
  end.

Definition is_lock_effect (ev : effect F) : bool :=
  match ev with Acquire | Release => true | _ => false end.

(** The two states of the knob interaction. *)
Inductive mode : Type := Idle | Dragging.

Definition mode_of (k : Knob.Knob F) : mode :=
  if Knob.isDragging k then Dragging else Idle.

(** A knob driven by successive pointer readings [(x, y, engaged)]. *)
Definition knob_step (k : Knob.Knob F) (p : Z * Z * bool) : Knob.Knob F :=
  Knob.update k p.1.1 p.1.2 p.2.

Definition knob_run (inputs : list (Z * Z * bool)) (k : Knob.Knob F) : Knob.Knob F :=
  fold_left knob_step inputs k.

(** The engagement seen by the latest update; not engaged before the first. *)
Definition last_engaged (inputs : list (Z * Z * bool)) : bool :=
  match last inputs with Some p => p.2 | None => false end.

End Vocabulary.
Arguments operation F : clear implicits.

(** The knob of the example: the frequency knob, pinched at its centre. *)
Definition pinched_frequency_knob : Knob.Knob Q :=
  Knob.update frequency_knob 150 knobY true.

(** One reading with the pointer engaged at the window's corner, away from
    every knob. *)
Definition held_outside : list (Z * Z * bool) := [(0, 0, true)].

(** Inputs of the examples: oscillator data a quarter into the period with
    an offset of one half, a ramp of 800 samples, a pointer pinching the
    frequency knob, and a loop state that differs from the initial one in
    its mouse variables only. *)
Definition quarter_phase_data : SawtoothData spec_float :=
  {| frequency := of_int 440;
     phase := of_int 1 [/] of_int 4;
     phaseOffset := of_int 1 [/] of_int 2;
     amplitude := of_int 1 [/] of_int 2;
     waveBuffer := replicate (Z.to_nat WAVE_SAMPLES) (of_int 0);
     bufferIndex := 0 |}.

Definition ramp : list spec_float := B32.of_Z <$> seqZ 0 WAVE_SAMPLES.

Definition pinch_on_frequency_knob (i : nat) : PointerSignal :=
  {| handX := 150; handY := knobY; handPinch := true |}.

Definition main_init_mouse_elsewhere : LoopState spec_float :=
  {| running := true; mouseX := 999; mouseY := 1; mouseDown := true;
     knobs := knobs main_init; data := data main_init |}.

(** Binary32 inputs at the edges of the ranges: the largest phase below 1
    with the largest frequency below the sample rate, and a phase offset of
    [- 2^-30]. *)
Definition largest_phase_and_frequency : SawtoothData spec_float :=
  {| frequency := S754_finite false 11289599 (-8);
     phase := S754_finite false 16777215 (-24);
     phaseOffset := of_int 0; amplitude := of_int 1;
     waveBuffer := replicate (Z.to_nat WAVE_SAMPLES) (of_int 0);
     bufferIndex := 0 |}.

Definition tiny_negative_offset : SawtoothData spec_float :=
  {| frequency := of_int 440; phase := of_int 0;
     phaseOffset := S754_finite true 8388608 (-53); amplitude := of_int 1;
     waveBuffer := replicate (Z.to_nat WAVE_SAMPLES) (of_int 0);
     bufferIndex := 0 |}.

(** The phase [0.5f] with the offset [0.49999997f], the largest float below
    one half: their sum, [1 - 2^-25], is no binary32 number. *)
Definition half_and_almost_half : SawtoothData spec_float :=
  {| frequency := of_int 440;
     phase := S754_finite false 8388608 (-24);
     phaseOffset := S754_finite false 16777215 (-25);
     amplitude := of_int 1;
     waveBuffer := replicate (Z.to_nat WAVE_SAMPLES) (of_int 0);
     bufferIndex := 0 |}.

(** A quarter into the period with an offset of minus one half: the
    remainder of the sum is negative. *)
Definition negative_offset_data : SawtoothData spec_float :=
  {| frequency := of_int 440;
     phase := of_int 1 [/] of_int 4;
     phaseOffset := of_int (-1) [/] of_int 2;
     amplitude := of_int 1 [/] of_int 2;
     waveBuffer := replicate (Z.to_nat WAVE_SAMPLES) (of_int 0);
     bufferIndex := 0 |}.

(** The rational number a finite binary32 number is. *)
Definition B2Q (x : spec_float) : Q :=
  match x with
  | S754_finite s m e => (inject_Z (cond_Zopp s (Zpos m)) * 2 ^ e)%Q
  | _ => 0%Q
  end.

(** [0 <= a < 1] on floats. *)
Definition in_unit_interval {F} `{FloatArith F} (a : F) : bool :=
  (of_int 0 [<=] a) && (a [<] of_int 1).

(** What the callback relies on, frame after frame: a phase in [0,1) and a
    frequency between 0 and the sample rate, both numbers; and, for the
    samples, an offset between -1 and 1 and an amplitude that are numbers. *)
Definition oscillator_ok (d : SawtoothData spec_float) : Prop :=
  binary32 (phase d) = true /\ binary32 (frequency d) = true
  /\ in_unit_interval (phase d) = true
  /\ (of_int 0 [<] frequency d) = true
  /\ (frequency d [<] of_int SAMPLE_RATE) = true.

Definition generator_ok (d : SawtoothData spec_float) : Prop :=
  oscillator_ok d
  /\ binary32 (phaseOffset d) = true /\ binary32 (amplitude d) = true
  /\ (of_int (-1) [<=] phaseOffset d) = true
  /\ (phaseOffset d [<=] of_int 1) = true.

(** A sample that is a number, within the amplitude [a] in magnitude. *)
Definition within_amplitude (a v : spec_float) : Prop :=
  binary32 v = true
  /\ (SFopp (SFabs a) [<=] v) = true /\ (v [<=] SFabs a) = true.

(** Engagement changing between two successive updates. *)
Definition becomes_true (previous current : bool) : bool := negb previous && current.
Definition becomes_false (previous current : bool) : bool := previous && negb current.

(** The events that clear [running]. *)
Definition is_quit_event (e : SDL_Event) : bool :=
  match e with
  | SDL_QUIT => true
  | SDL_KEYDOWN sym => sym =? SDLK_ESCAPE
  | _ => false
  end.

(** The events of an iteration that are not mouse events. *)
Definition other_events (evs : list SDL_Event) : list SDL_Event :=
  List.filter (fun e => negb (is_mouse_event e)) evs.

(** ** The drawing helpers of [Knob] *)

(** [drawCircle]: the points handed to [SDL_RenderDrawPoint], in the order
    of the two nested loops. *)
Definition drawCircle (centerX centerY radius : Z) : list (Z * Z) :=
  List.flat_map (fun w =>
    List.flat_map (fun h =>
      let dx := radius - w in
      let dy := radius - h in
      if dx * dx + dy * dy <=? radius * radius
      then [(centerX + dx, centerY + dy)]
      else [])
      (seqZ 0 (radius * 2)))
    (seqZ 0 (radius * 2)).

(** The local variables of [drawCircleOutline]. *)
Record outline_state := mkOutline {
  out_x : Z;
  out_y : Z;
  out_dx : Z;
  out_dy : Z;
  out_err : Z
}.

(** The eight [SDL_RenderDrawPoint] calls of one iteration. *)
Definition outline_points (centerX centerY x y : Z) : list (Z * Z) :=
  [(centerX + x, centerY + y); (centerX + y, centerY + x);
   (centerX - y, centerY + x); (centerX - x, centerY + y);
   (centerX - x, centerY - y); (centerX - y, centerY - x);
   (centerX + y, centerY - x); (centerX + x, centerY - y)].

(** The two [if]s that end the body of the [while] loop. *)
Definition outline_step (radius : Z) (s : outline_state) : outline_state :=
  let s1 :=
    if out_err s <=? 0
    then {| out_x := out_x s; out_y := out_y s + 1; out_dx := out_dx s;
            out_dy := out_dy s + 2; out_err := out_err s + out_dy s |}
    else s in
  if 0 <? out_err s1
  then {| out_x := out_x s1 - 1; out_y := out_y s1; out_dx := out_dx s1 + 2;
          out_dy := out_dy s1;
          out_err := out_err s1 + (out_dx s1 + 2 - Z.shiftl radius 1) |}
  else s1.

(** [while (x >= y)], with fuel for the iterations; [None] when the fuel
    runs out before the loop ends. *)
Fixpoint outline_loop (fuel : nat) (centerX centerY radius : Z)
    (s : outline_state) : option (list (Z * Z)) :=
  if out_y s <=? out_x s then
    match fuel with
    | O => None
    | S fuel' =>
        match outline_loop fuel' centerX centerY radius (outline_step radius s) with
        | Some ps => Some (outline_points centerX centerY (out_x s) (out_y s) ++ ps)
        | None => None
        end
    end
  else Some [].

Definition outline_start (radius : Z) : outline_state :=
  {| out_x := radius - 1; out_y := 0; out_dx := 1; out_dy := 1;
     out_err := 1 - Z.shiftl radius 1 |}.

(** [drawCircleOutline]; each iteration brings [x] and [y] closer, so
    [radius] iterations are enough fuel. *)
Definition drawCircleOutline (centerX centerY radius : Z) : option (list (Z * Z)) :=
  outline_loop (Z.to_nat radius) centerX centerY radius (outline_start radius).

(** [drawText]: the rectangle handed to [SDL_RenderDrawRect], as
    [(x, y, w, h)]. *)
Definition drawText (x y : Z) (text : string) : Z * Z * Z * Z :=
  (x, y, Z.of_nat (String.length text) * 6, 10).

(** ** Start and end of [main] *)

(** The calls [main] makes to SDL, PortAudio and the thread library. *)
Inductive library_call : Type :=
| SDL_Init
| SDL_CreateWindow
| SDL_CreateRenderer
| Pa_Initialize
| Pa_OpenDefaultStream
| Pa_StartStream
| listener_detach
| Pa_StopStream
| Pa_CloseStream
| Pa_Terminate
| SDL_DestroyRenderer
| SDL_DestroyWindow
| SDL_Quit
| report_error.

(** Which of the five initialisations succeed. *)
Record init_outcome := mkOutcome {
  sdl_ok : bool;
  window_ok : bool;
  renderer_ok : bool;
  pa_ok : bool;
  stream_ok : bool
}.

Section MainProgram.
Context {F : Type} `{FloatArith F}.

(** [main]: the exit code once it returns, the library calls in program
    order and, when the loop was entered, the state it reached.  The loop is
    run on the inputs given; while [running] is still set after them,
    [main] has not left the loop and has no exit code. *)
Definition main (o : init_outcome)
    (inputs : list (list SDL_Event * (nat -> PointerSignal)))
  : option Z * list library_call * option (LoopState F) :=
  if negb (sdl_ok o) then
    (Some (-1), [SDL_Init; report_error], None)
  else if negb (window_ok o) then
    (Some (-1), [SDL_Init; SDL_CreateWindow; report_error; SDL_Quit], None)
  else if negb (renderer_ok o) then
    (Some (-1), [SDL_Init; SDL_CreateWindow; SDL_CreateRenderer; report_error;
                 SDL_DestroyWindow; SDL_Quit], None)
  else if negb (pa_ok o) then
    (Some (-1), [SDL_Init; SDL_CreateWindow; SDL_CreateRenderer; Pa_Initialize;
                 report_error; SDL_DestroyRenderer; SDL_DestroyWindow; SDL_Quit],
     None)
  else if negb (stream_ok o) then
    (Some (-1), [SDL_Init; SDL_CreateWindow; SDL_CreateRenderer; Pa_Initialize;
                 Pa_OpenDefaultStream; report_error; Pa_Terminate;
                 SDL_DestroyRenderer; SDL_DestroyWindow; SDL_Quit], None)
  else
    let st := main_loop inputs main_init in
    if running st then
      (None, [SDL_Init; SDL_CreateWindow; SDL_CreateRenderer; Pa_Initialize;
              Pa_OpenDefaultStream; Pa_StartStream; listener_detach], Some st)
    else
      (Some 0, [SDL_Init; SDL_CreateWindow; SDL_CreateRenderer; Pa_Initialize;
                Pa_OpenDefaultStream; Pa_StartStream; listener_detach;
                Pa_StopStream; Pa_CloseStream; Pa_Terminate;
                SDL_DestroyRenderer; SDL_DestroyWindow; SDL_Quit], Some st).

End MainProgram.

(** The resources of the two libraries. *)
Inductive resource : Type :=
| sdl_library | sdl_window | sdl_renderer | pa_library | pa_stream.

(** The resources held after a sequence of calls, the latest first: a
    successful initialisation takes its resource, the matching call gives
    it back.  [None] when a call gives back a resource that is not the
    latest one taken. *)
Definition acquires (o : init_outcome) (c : library_call) : option resource :=
  match c with
  | SDL_Init => if sdl_ok o then Some sdl_library else None
  | SDL_CreateWindow => if window_ok o then Some sdl_window else None
  | SDL_CreateRenderer => if renderer_ok o then Some sdl_renderer else None
  | Pa_Initialize => if pa_ok o then Some pa_library else None
  | Pa_OpenDefaultStream => if stream_ok o then Some pa_stream else None
  | _ => None
  end.

Definition releases (c : library_call) : option resource :=
  match c with
  | SDL_Quit => Some sdl_library
  | SDL_DestroyWindow => Some sdl_window
  | SDL_DestroyRenderer => Some sdl_renderer
  | Pa_Terminate => Some pa_library
  | Pa_CloseStream => Some pa_stream
  | _ => None
  end.

Definition resource_eqb (a b : resource) : bool :=
  match a, b with
  | sdl_library, sdl_library | sdl_window, sdl_window
  | sdl_renderer, sdl_renderer | pa_library, pa_library
  | pa_stream, pa_stream => true
  | _, _ => false
  end.

Fixpoint held_after (o : init_outcome) (calls : list library_call)
    (held : list resource) : option (list resource) :=
  match calls with
  | [] => Some held
  | c :: calls' =>
      match releases c with
      | Some r =>
          match held with
          | r' :: held' =>
              if resource_eqb r r' then held_after o calls' held' else None
          | [] => None
          end
      | None =>
          match acquires o c with
          | Some r => held_after o calls' (r :: held)
          | None => held_after o calls' held
          end
      end
  end.

(** ** Vocabulary of the further properties *)

(** A datagram from which at least [x] and [y] are parsed. *)
Definition well_formed (datagram : string) : bool :=
  (2 <=? length (Scan.sscanf_ddd (c_string (recv datagram).2)).2)%nat.

(** The values of an [int]. *)
Definition is_int (z : Z) : Prop := - 2 ^ 31 <= z < 2 ^ 31.

(** The decimal text of an integer, as [printf("%d")] prints it. *)
Definition show_int (z : Z) : string := NilZero.string_of_int (Z.to_int z).

(** The datagram a sender makes of a pointer reading. *)
Definition packet (x y : Z) (pinch : bool) : string :=
  (show_int x ++ "," ++ show_int y ++ "," ++ (if pinch then "1" else "0"))%string.

(** A text that does not go on with a digit. *)
Definition starts_without_digit (s : string) : Prop :=
  match s with
  | String c _ => Scan.isdigit c = false
  | EmptyString => True
  end.

(** What the loop of [drawCircleOutline] keeps true. *)
Definition outline_invariant (radius : Z) (s : outline_state) : Prop :=
  out_err s = out_x s * out_x s + out_y s * out_y s - radius * radius
  /\ out_dy s = 2 * out_y s + 1
  /\ out_dx s = 2 * (radius - 1 - out_x s) + 1
  /\ 0 <= out_y s
  /\ out_x s <= radius - 1
  /\ (out_y s <= out_x s -> 1 - 2 * radius <= out_err s <= 0).

(** The points of one iteration: between the circles of radius
    [radius - 1] and [radius], and at most [radius - 1] from the centre
    along each axis. *)
Definition on_the_rim (centerX centerY radius : Z) (pt : Z * Z) : Prop :=
  let dx := pt.1 - centerX in
  let dy := pt.2 - centerY in
  (radius - 1) * (radius - 1) <= dx * dx + dy * dy <= radius * radius
  /\ - radius < dx < radius /\ - radius < dy < radius.

(** All five initialisations succeed. *)
Definition all_ok (o : init_outcome) : bool :=
  sdl_ok o && window_ok o && renderer_ok o && pa_ok o && stream_ok o.

(** The audio parameters are the values of the three knobs, and the rest of
    the audio data is as the constructor left it. *)
Definition parameters_follow_knobs {F} `{FloatArith F} (st : LoopState F) : Prop :=
  exists k0 k1 k2 : Knob.Knob F,
    knobs st = [k0; k1; k2]
    /\ frequency (data st) = Knob.value k0
    /\ phaseOffset (data st) = Knob.value k1
    /\ amplitude (data st) = Knob.value k2
    /\ phase (data st) = phase (SawtoothData_init (F := F))
    /\ waveBuffer (data st) = waveBuffer (SawtoothData_init (F := F))
    /\ bufferIndex (data st) = bufferIndex (SawtoothData_init (F := F)).

(** Inputs of the examples: oscillator data at 441 Hz, whose period is 100
    frames; a pinch on the frequency knob followed by a long drag upwards; a
    datagram longer than the receive buffer; an initialisation in
    which the renderer cannot be created; an iteration that receives a quit
    event while the frequency knob is pinched. *)
Definition data_441Hz : SawtoothData spec_float :=
  {| frequency := of_int 441; phase := of_int 1 [/] of_int 4;
     phaseOffset := of_int 0; amplitude := of_int 1 [/] of_int 2;
     waveBuffer := replicate (Z.to_nat WAVE_SAMPLES) (of_int 0);
     bufferIndex := 0 |}.

(** A knob whose range is all of binary32, from [-(2 - 2^-23) * 2^127] to
    [(2 - 2^-23) * 2^127]. *)
Definition wide_knob : Knob.Knob spec_float :=
  Knob.make (of_int 150) (of_int knobY) (S754_finite true 16777215 104)
            (S754_finite false 16777215 104) (of_int 440) "Wide".

(** The frequency knob of the program, pinched at its centre, and a knob
    with the range [[0, 53]], pinched at its centre with the value 0. *)
Definition pinched_frequency_knob_binary32 : Knob.Knob spec_float :=
  Knob.update frequency_knob 150 knobY true.

Definition knob_0_to_53 : Knob.Knob spec_float :=
  Knob.update (Knob.make (of_int 150) (of_int knobY) (of_int 0) (of_int 53)
                         (of_int 0) "Range")
              150 knobY true.

Definition pinch_and_drag_far_up : list (Z * Z * bool) :=
  [(150, knobY, true); (150, -10000, true)].

Definition long_datagram : string :=
  "10,20,1                                                         ".

Definition renderer_fails : init_outcome :=
  {| sdl_ok := true; window_ok := true; renderer_ok := false;
     pa_ok := true; stream_ok := true |}.

Definition quit_while_pinching : list SDL_Event * (nat -> PointerSignal) :=
  ([SDL_QUIT], pinch_on_frequency_knob).

(** * Properties *)

(** ** Rounding to the nearest binary floating-point number

    [SpecFloat] defines the operations and proves nothing about them.  What
    the properties of the program need is proved here, for any precision:
    [binary_round_aux] returns a number of the format, and no number of the
    format lies strictly between the exact result and the returned one.  So
    a bound that is itself a number of the format survives rounding. *)

Section Bpow.

Lemma bpow_gt_0 e : (0 < bpow e)%R.
Proof. apply powerRZ_lt. Lra.lra. Qed.

Lemma bpow_plus a b : bpow (a + b) = (bpow a * bpow b)%R.
Proof. apply powerRZ_add. Lra.lra. Qed.

Lemma bpow_0 : bpow 0 = 1%R.
Proof. reflexivity. Qed.

Lemma bpow_1 : bpow 1 = 2%R.
Proof. unfold bpow. simpl. Lra.lra. Qed.

Lemma bpow_IZR n : 0 <= n -> bpow n = IZR (2 ^ n).
Proof.
  intros Hn. unfold bpow. rewrite <- (Z2Nat.id n Hn) at 1.
  rewrite <- pow_powerRZ, pow_IZR, Z2Nat.id by exact Hn. reflexivity.
Qed.

Lemma bpow_ge_1 n : 0 <= n -> (1 <= bpow n)%R.
Proof.
  intros Hn. rewrite bpow_IZR by exact Hn. apply IZR_le.
  pose proof (Z.pow_pos_nonneg 2 n). lia.
Qed.

Lemma bpow_le a b : a <= b -> (bpow a <= bpow b)%R.
Proof.
  intros Hab. replace b with (a + (b - a)) by lia. rewrite bpow_plus.
  pose proof (bpow_gt_0 a). pose proof (bpow_ge_1 (b - a) ltac:(lia)). Lra.nra.
Qed.

Lemma bpow_lt a b : a < b -> (bpow a < bpow b)%R.
Proof.
  intros Hab. replace b with (a + 1 + (b - a - 1)) by lia.
  rewrite !bpow_plus, bpow_1.
  pose proof (bpow_gt_0 a). pose proof (bpow_ge_1 (b - a - 1) ltac:(lia)). Lra.nra.
Qed.

Lemma bpow_lt_inv a b : (bpow a < bpow b)%R -> a < b.
Proof.
  intros Hlt. destruct (Z_lt_le_dec a b) as [| Hle]; [assumption |].
  apply bpow_le in Hle. Lra.lra.
Qed.

Lemma bpow_le_inv a b : (bpow a <= bpow b)%R -> a <= b.
Proof.
  intros Hle. destruct (Z_le_gt_dec a b) as [| Hgt]; [assumption |].
  apply Z.gt_lt, bpow_lt in Hgt. Lra.lra.
Qed.

Lemma bpow_opp a : (bpow (- a) * bpow a = 1)%R.
Proof. rewrite <- bpow_plus. replace (- a + a) with 0 by lia. apply bpow_0. Qed.

(** Integer multiples of one power of two compare as the integers. *)
Lemma mult_bpow_lt_inv (a b e : Z) :
  (IZR a * bpow e < IZR b * bpow e)%R -> a < b.
Proof.
  intros Hlt. apply lt_IZR. pose proof (bpow_gt_0 e). Lra.nra.
Qed.

Lemma mult_bpow_le_inv (a b e : Z) :
  (IZR a * bpow e <= IZR b * bpow e)%R -> a <= b.
Proof.
  intros Hle. apply le_IZR. pose proof (bpow_gt_0 e). Lra.nra.
Qed.

Lemma digits2_pos_bounds p :
  2 ^ (Zpos (digits2_pos p) - 1) <= Zpos p < 2 ^ Zpos (digits2_pos p).
Proof.
  induction p as [p IH | p IH |]; simpl digits2_pos.
  - rewrite Pos2Z.inj_succ, (Pos2Z.inj_xI p).
    replace (Z.succ (Zpos (digits2_pos p)) - 1) with (Z.succ (Zpos (digits2_pos p) - 1)) by lia.
    rewrite !Z.pow_succ_r by lia. lia.
  - rewrite Pos2Z.inj_succ, (Pos2Z.inj_xO p).
    replace (Z.succ (Zpos (digits2_pos p)) - 1) with (Z.succ (Zpos (digits2_pos p) - 1)) by lia.
    rewrite !Z.pow_succ_r by lia. lia.
  - simpl. lia.
Qed.

Lemma Zdigits2_bounds m :
  0 < m -> 2 ^ (Zdigits2 m - 1) <= m < 2 ^ Zdigits2 m.
Proof. destruct m; try lia. intros _. apply digits2_pos_bounds. Qed.

Lemma Zdigits2_pos m : 0 < m -> 0 < Zdigits2 m.
Proof. destruct m; simpl; lia. Qed.

Lemma Zdigits2_le m k : 0 < m -> m < 2 ^ k -> Zdigits2 m <= k.
Proof.
  intros Hm Hlt. pose proof (Zdigits2_bounds m Hm) as [Hlo _].
  pose proof (Zdigits2_pos m Hm).
  destruct (Z_le_gt_dec (Zdigits2 m) k) as [| Hgt]; [assumption |].
  assert (0 <= k).
  { destruct (Z_lt_le_dec k 0) as [Hk | Hk]; [| assumption].
    rewrite Z.pow_neg_r in Hlt by lia. lia. }
  assert (2 ^ k <= 2 ^ (Zdigits2 m - 1)) by (apply Z.pow_le_mono_r; lia).
  lia.
Qed.

Lemma Zdigits2_ge m k : 0 <= k -> 2 ^ k <= m -> k + 1 <= Zdigits2 m.
Proof.
  intros Hk Hle.
  assert (Hm : 0 < m) by (pose proof (Z.pow_pos_nonneg 2 k); lia).
  pose proof (Zdigits2_bounds m Hm) as [_ Hhi].
  pose proof (Zdigits2_pos m Hm).
  destruct (Z_le_gt_dec (k + 1) (Zdigits2 m)) as [| Hgt]; [assumption |].
  assert (2 ^ Zdigits2 m <= 2 ^ k) by (apply Z.pow_le_mono_r; lia).
  lia.
Qed.

Lemma Zdigits2_R m :
  0 < m -> (bpow (Zdigits2 m - 1) <= IZR m < bpow (Zdigits2 m))%R.
Proof.
  intros Hm. pose proof (Zdigits2_bounds m Hm) as [Hlo Hhi].
  pose proof (Zdigits2_pos m Hm).
  rewrite !bpow_IZR by lia. split; [apply IZR_le | apply IZR_lt]; assumption.
Qed.

End Bpow.

Section Shift.

Lemma inbetween_bounds m e l x :
  inbetween m e l x -> (IZR m * bpow e <= x < (IZR m + 1) * bpow e)%R.
Proof.
  pose proof (bpow_gt_0 e).
  destruct l as [| []]; simpl; intros Hx; subst; Lra.nra.
Qed.

Lemma inbetween_cases m e l x :
  inbetween m e l x ->
  (l = loc_Exact /\ x = (IZR m * bpow e)%R)
  \/ (l <> loc_Exact /\ (IZR m * bpow e < x < (IZR m + 1) * bpow e)%R).
Proof.
  pose proof (bpow_gt_0 e).
  destruct l as [| []]; simpl; intros Hx;
    [left; split; [reflexivity | assumption] | right; split; [discriminate |] ..];
    subst; Lra.nra.
Qed.

Lemma loc_of_shr_record_of_loc m l :
  loc_of_shr_record (shr_record_of_loc m l) = l
  /\ shr_m (shr_record_of_loc m l) = m.
Proof. destruct l as [| []]; split; reflexivity. Qed.

Lemma IZR_xI p : IZR (Zpos p~1) = (2 * IZR (Zpos p) + 1)%R.
Proof. rewrite Pos2Z.inj_xI, plus_IZR, mult_IZR. reflexivity. Qed.

Lemma IZR_xO p : IZR (Zpos p~0) = (2 * IZR (Zpos p))%R.
Proof. rewrite Pos2Z.inj_xO, mult_IZR. reflexivity. Qed.

Lemma shr_1_inbetween mrs e x :
  0 <= shr_m mrs ->
  inbetween (shr_m mrs) e (loc_of_shr_record mrs) x ->
  0 <= shr_m (shr_1 mrs)
  /\ inbetween (shr_m (shr_1 mrs)) (e + 1) (loc_of_shr_record (shr_1 mrs)) x.
Proof.
  destruct mrs as [m r s]. cbn [shr_m]. intros Hm.
  pose proof (bpow_gt_0 e) as Hb.
  destruct m as [| p | p]; [| | lia].
  - destruct r, s; cbn -[IZR bpow]; rewrite bpow_plus, bpow_1;
      intros Hx; (split; [lia |]); subst; Lra.nra.
  - destruct p as [p | p |]; destruct r, s; cbn -[IZR bpow];
      rewrite ?(IZR_xI p), ?(IZR_xO p), bpow_plus, bpow_1;
      intros Hx; (split; [lia |]); subst; Lra.nra.
Qed.

Lemma iter_pos_shr_1_inbetween p : forall mrs e x,
  0 <= shr_m mrs ->
  inbetween (shr_m mrs) e (loc_of_shr_record mrs) x ->
  0 <= shr_m (SpecFloat.iter_pos shr_1 p mrs)
  /\ inbetween (shr_m (SpecFloat.iter_pos shr_1 p mrs)) (e + Zpos p)
       (loc_of_shr_record (SpecFloat.iter_pos shr_1 p mrs)) x.
Proof.
  induction p as [p IH | p IH |]; intros mrs e x Hm Hx; cbn [SpecFloat.iter_pos].
  - destruct (shr_1_inbetween mrs e x Hm Hx) as [Hm1 Hx1].
    destruct (IH _ _ _ Hm1 Hx1) as [Hm2 Hx2].
    destruct (IH _ _ _ Hm2 Hx2) as [Hm3 Hx3].
    split; [exact Hm3 |].
    replace (e + Zpos p~1) with (e + 1 + Zpos p + Zpos p) by lia. exact Hx3.
  - destruct (IH _ _ _ Hm Hx) as [Hm2 Hx2].
    destruct (IH _ _ _ Hm2 Hx2) as [Hm3 Hx3].
    split; [exact Hm3 |].
    replace (e + Zpos p~0) with (e + Zpos p + Zpos p) by lia. exact Hx3.
  - apply shr_1_inbetween; assumption.
Qed.

Lemma shr_inbetween mrs e n x :
  0 <= shr_m mrs ->
  inbetween (shr_m mrs) e (loc_of_shr_record mrs) x ->
  0 <= shr_m (fst (shr mrs e n))
  /\ snd (shr mrs e n) = e + Z.max n 0
  /\ inbetween (shr_m (fst (shr mrs e n))) (e + Z.max n 0)
       (loc_of_shr_record (fst (shr mrs e n))) x
  /\ (n <= 0 -> fst (shr mrs e n) = mrs).
Proof.
  intros Hm Hx. destruct n as [| p | p]; cbn [shr fst snd].
  - rewrite Z.add_0_r. repeat split; assumption.
  - destruct (iter_pos_shr_1_inbetween p mrs e x Hm Hx) as [Hm' Hx'].
    rewrite Z.max_l by lia. repeat split; try assumption. lia.
  - rewrite Z.max_r, Z.add_0_r by lia. repeat split; assumption.
Qed.

End Shift.

Section Round.
Variables prec emax : Z.
Hypothesis Hprec : 0 < prec.
Hypothesis Hemax : prec < emax.

Local Abbreviation fexp := (SpecFloat.fexp prec emax).
Local Abbreviation emin := (SpecFloat.emin prec emax).
Local Abbreviation finite := (finite_valid prec emax).

Lemma fexp_spec k : fexp k = Z.max (k - prec) emin.
Proof. reflexivity. Qed.

Lemma emin_spec : emin = 3 - emax - prec.
Proof. reflexivity. Qed.

Lemma round_nearest_even_cases m l :
  m <= round_nearest_even m l <= m + 1
  /\ (l = loc_Exact -> round_nearest_even m l = m).
Proof.
  destruct l as [| []]; cbn [round_nearest_even];
    try destruct (Z.even m); split; intros; try reflexivity; try discriminate; lia.
Qed.

(** An approximation below a power of two. *)
Lemma inbetween_lt_bpow m e l x :
  0 <= m -> inbetween m e l x -> (x < bpow (Zdigits2 m + e))%R.
Proof.
  intros Hm Hx. apply inbetween_bounds in Hx. destruct Hx as [_ Hx].
  rewrite bpow_plus. pose proof (bpow_gt_0 e) as Hb.
  assert (Hd : (IZR m + 1 <= bpow (Zdigits2 m))%R).
  { destruct (Z.eq_dec m 0) as [-> | Hne].
    - cbn [Zdigits2]. rewrite bpow_0. Lra.lra.
    - pose proof (Zdigits2_bounds m ltac:(lia)) as [_ Hhi].
      pose proof (Zdigits2_pos m ltac:(lia)).
      rewrite bpow_IZR by lia. rewrite <- (plus_IZR m 1). apply IZR_le. lia. }
  Lra.nra.
Qed.

Lemma inbetween_ge_bpow m e l x :
  0 < m -> inbetween m e l x -> (bpow (Zdigits2 m - 1 + e) <= x)%R.
Proof.
  intros Hm Hx. apply inbetween_bounds in Hx. destruct Hx as [Hx _].
  rewrite bpow_plus. pose proof (bpow_gt_0 e) as Hb.
  pose proof (Zdigits2_R m Hm) as [Hlo _]. Lra.nra.
Qed.

(** The first shift of [binary_round_aux]: the mantissa is brought to the
    exponent that the format gives to the magnitude of [x]. *)
Lemma shr_fexp_spec mx ex lx x :
  0 <= mx -> inbetween mx ex lx x -> ex <= fexp (Zdigits2 mx + ex) ->
  let e1 := fexp (Zdigits2 mx + ex) in
  let mrs := fst (shr_fexp prec emax mx ex lx) in
  snd (shr_fexp prec emax mx ex lx) = e1
  /\ 0 <= shr_m mrs < 2 ^ prec
  /\ inbetween (shr_m mrs) e1 (loc_of_shr_record mrs) x
  /\ (emin < e1 -> 2 ^ (prec - 1) <= shr_m mrs)
  /\ (e1 = ex -> mrs = shr_record_of_loc mx lx).
Proof.
  intros Hm Hx He e1 mrs. unfold mrs, shr_fexp. fold e1.
  destruct (loc_of_shr_record_of_loc mx lx) as [Hl Hmm].
  destruct (shr_inbetween (shr_record_of_loc mx lx) ex (e1 - ex) x) as (H0 & He1 & Hin & Hid).
  { rewrite Hmm. exact Hm. }
  { rewrite Hl, Hmm. exact Hx. }
  fold e1 in He. replace (ex + Z.max (e1 - ex) 0) with e1 in * by lia.
  set (r := fst (shr (shr_record_of_loc mx lx) ex (e1 - ex))) in *.
  pose proof (inbetween_lt_bpow mx ex lx x Hm Hx) as Hlt.
  pose proof (inbetween_bounds _ _ _ _ Hin) as [Hlo Hhi].
  pose proof (bpow_gt_0 e1) as Hb.
  assert (Hk : Zdigits2 mx + ex - e1 <= prec) by (unfold e1; rewrite fexp_spec; lia).
  split; [exact He1 |]. split; [split; [exact H0 |] |]. 2: split; [exact Hin |]. 2: split.
  - apply lt_IZR. rewrite <- bpow_IZR by lia.
    assert (Hx1 : (IZR (shr_m r) * bpow e1 < bpow (Zdigits2 mx + ex - e1) * bpow e1)%R).
    { rewrite <- bpow_plus. replace (Zdigits2 mx + ex - e1 + e1) with (Zdigits2 mx + ex) by lia. Lra.lra. }
    pose proof (bpow_le _ _ Hk). Lra.nra.
  - intros Hgt.
    assert (Hpos : 0 < mx).
    { destruct (Z.eq_dec mx 0) as [-> | Hne]; [| lia].
      exfalso. unfold e1 in *. cbn [Zdigits2] in *. rewrite fexp_spec in *. lia. }
    pose proof (inbetween_ge_bpow mx ex lx x Hpos Hx) as Hge.
    assert (He1' : e1 = Zdigits2 mx + ex - prec) by (unfold e1 in *; rewrite fexp_spec in *; lia).
    replace (Zdigits2 mx - 1 + ex) with (prec - 1 + e1) in Hge by lia.
    rewrite bpow_plus, bpow_IZR in Hge by lia.
    assert (2 ^ (prec - 1) < shr_m r + 1); [| lia].
    apply (mult_bpow_lt_inv _ _ e1). rewrite plus_IZR. Lra.lra.
  - intros Heq. apply Hid. lia.
Qed.

(** The second shift of [binary_round_aux]: the rounded mantissa has at most
    one bit too many, and then it is a power of two. *)
Lemma shr_fexp_exact m e :
  0 <= m <= 2 ^ prec -> emin <= e -> (emin < e -> 2 ^ (prec - 1) <= m) ->
  let mrs := fst (shr_fexp prec emax m e loc_Exact) in
  let e2 := snd (shr_fexp prec emax m e loc_Exact) in
  0 <= shr_m mrs
  /\ (IZR (shr_m mrs) * bpow e2 = IZR m * bpow e)%R
  /\ (0 < shr_m mrs -> fexp (Zdigits2 (shr_m mrs) + e2) = e2)
  /\ (m < 2 ^ prec -> shr_m mrs = m /\ e2 = e).
Proof.
  intros Hm He Hnorm mrs e2. unfold mrs, e2, shr_fexp. clear mrs e2.
  cbn [shr_record_of_loc].
  destruct (Z_lt_le_dec m (2 ^ prec)) as [Hlt | Hge].
  - assert (Hd : Zdigits2 m <= prec).
    { destruct (Z.eq_dec m 0) as [-> | Hne]; [cbn; lia |].
      apply Zdigits2_le; lia. }
    assert (Hn : fexp (Zdigits2 m + e) - e <= 0) by (rewrite fexp_spec; lia).
    assert (Hshr : shr {| shr_m := m; shr_r := false; shr_s := false |} e
                     (fexp (Zdigits2 m + e) - e)
                   = ({| shr_m := m; shr_r := false; shr_s := false |}, e)).
    { destruct (fexp (Zdigits2 m + e) - e); try reflexivity. lia. }
    rewrite Hshr. cbn [fst snd shr_m].
    split; [lia |]. split; [reflexivity |]. split; [| intros _; split; reflexivity].
    intros Hpos. rewrite fexp_spec.
    destruct (Z.eq_dec e emin) as [-> | Hne]; [lia |].
    pose proof (Zdigits2_ge m (prec - 1) ltac:(lia) ltac:(apply Hnorm; lia)). lia.
  - assert (Hm2 : m = 2 ^ prec) by lia.
    assert (Hpow : 2 ^ prec = 2 * 2 ^ (prec - 1)).
    { replace prec with (Z.succ (prec - 1)) at 1 by lia.
      apply Z.pow_succ_r. lia. }
    assert (Hpp : 0 < 2 ^ (prec - 1)) by (apply Z.pow_pos_nonneg; lia).
    assert (Hd : Zdigits2 m = prec + 1).
    { pose proof (Zdigits2_ge m prec ltac:(lia) ltac:(lia)).
      pose proof (Zdigits2_le m (prec + 1) ltac:(lia)
                    ltac:(rewrite Z.pow_add_r, Z.pow_1_r by lia; lia)). lia. }
    rewrite Hd. replace (fexp (prec + 1 + e) - e) with 1 by (rewrite fexp_spec; lia).
    cbn [shr SpecFloat.iter_pos fst snd].
    destruct m as [| q | q]; try lia. destruct q as [q | q |]; try lia.
    cbn [shr_1 shr_m orb].
    assert (Hq : Zpos q = 2 ^ (prec - 1)) by lia.
    split; [lia |]. split; [| split; [| lia]].
    + rewrite bpow_plus, bpow_1, (IZR_xO q). ring.
    + intros _.
      assert (Zdigits2 (Zpos q) = prec).
      { pose proof (Zdigits2_ge (Zpos q) (prec - 1) ltac:(lia) ltac:(lia)).
        pose proof (Zdigits2_le (Zpos q) prec ltac:(lia) ltac:(lia)). lia. }
      rewrite fexp_spec. lia.
Qed.

(** A canonical mantissa has at most [prec] bits, and exactly [prec] above
    the smallest exponent. *)
Lemma canonical_digits m e :
  0 < m -> fexp (Zdigits2 m + e) = e ->
  emin <= e /\ Zdigits2 m <= prec /\ (emin < e -> Zdigits2 m = prec).
Proof. rewrite fexp_spec. lia. Qed.

Lemma canonical_bounds m e :
  0 < m -> fexp (Zdigits2 m + e) = e ->
  (bpow (Zdigits2 m + e - 1) <= IZR m * bpow e < bpow (Zdigits2 m + e))%R.
Proof.
  intros Hm _. pose proof (Zdigits2_R m Hm) as [Hlo Hhi].
  pose proof (bpow_gt_0 e).
  replace (Zdigits2 m + e - 1) with (Zdigits2 m - 1 + e) by lia.
  rewrite !bpow_plus. Lra.nra.
Qed.

(** What [binary_round_aux] returns: a mantissa and an exponent of the
    format, next to [x] on the grid of the format. *)
Lemma binary_round_aux_spec sx mx ex lx x :
  0 <= mx -> inbetween mx ex lx x -> ex <= fexp (Zdigits2 mx + ex) ->
  exists m2 e2 : Z,
    0 <= m2
    /\ binary_round_aux prec emax sx mx ex lx
       = match m2 with
         | Zpos p => if e2 <=? emax - prec then S754_finite sx p e2
                     else S754_infinity sx
         | _ => S754_zero sx
         end
    /\ (0 < m2 -> fexp (Zdigits2 m2 + e2) = e2)
    /\ (x = 0%R -> m2 = 0)
    /\ (lx = loc_Exact -> fexp (Zdigits2 mx + ex) = ex ->
        (IZR m2 * bpow e2)%R = x)
    /\ (forall mf ef, 0 < mf -> fexp (Zdigits2 mf + ef) = ef ->
        (IZR mf * bpow ef <= x)%R -> (IZR mf * bpow ef <= IZR m2 * bpow e2)%R)
    /\ (forall mf ef, 0 < mf -> fexp (Zdigits2 mf + ef) = ef ->
        (x <= IZR mf * bpow ef)%R -> (IZR m2 * bpow e2 <= IZR mf * bpow ef)%R).
Proof.
  intros Hm Hx He.
  destruct (shr_fexp_spec mx ex lx x Hm Hx He) as (He1 & Hm1 & Hin & Hnorm & Hid).
  set (e1 := fexp (Zdigits2 mx + ex)) in *.
  unfold binary_round_aux.
  destruct (shr_fexp prec emax mx ex lx) as [mrs1 e1'] eqn:E1.
  cbn [fst snd] in *. subst e1'.
  set (m1 := shr_m mrs1) in *. set (l1 := loc_of_shr_record mrs1) in *.
  destruct (round_nearest_even_cases m1 l1) as [Hr Hrx].
  set (m' := round_nearest_even m1 l1) in *.
  assert (Hemin : emin <= e1) by (unfold e1; rewrite fexp_spec; lia).
  destruct (shr_fexp_exact m' e1) as (Hm2 & Hval & Hcan & Hsame);
    [lia | exact Hemin | intros Hgt; specialize (Hnorm Hgt); lia |].
  destruct (shr_fexp prec emax m' e1 loc_Exact) as [mrs2 e2] eqn:E2.
  cbn [fst snd] in *.
  set (m2 := shr_m mrs2) in *.
  pose proof (bpow_gt_0 e1) as Hb1.
  pose proof (inbetween_lt_bpow mx ex lx x Hm Hx) as Hxlt.
  exists m2, e2.
  split; [exact Hm2 |]. split; [destruct m2; try reflexivity; lia |].
  split; [exact Hcan |].
  assert (Hcases := inbetween_cases _ _ _ _ Hin).
  split; [| split; [| split]].
  - (* x = 0 *)
    intros Hx0. assert (Hm10 : m1 = 0).
    { destruct Hcases as [[_ Hv] | [_ [Hv _]]].
      - assert (IZR m1 = 0%R) by Lra.nra. apply eq_IZR. assumption.
      - assert (IZR m1 < 0)%R by Lra.nra. apply lt_IZR in H. lia. }
    assert (Hl1 : l1 = loc_Exact).
    { destruct Hcases as [[Hl _] | [_ [Hv _]]]; [exact Hl |].
      rewrite Hm10 in Hv. Lra.lra. }
    assert (m' = 0) by (rewrite (Hrx Hl1); exact Hm10).
    destruct Hsame as [Hs _]; [pose proof (Z.pow_pos_nonneg 2 prec); lia | lia].
  - (* exact *)
    intros Hlx Hfe. rewrite Hval.
    assert (Hmrs : mrs1 = shr_record_of_loc mx lx) by (apply Hid; exact Hfe).
    assert (Hl1 : l1 = loc_Exact) by (unfold l1; rewrite Hmrs, Hlx; reflexivity).
    assert (Hm1x : m1 = mx) by (unfold m1; rewrite Hmrs, Hlx; reflexivity).
    rewrite (Hrx Hl1), Hm1x, Hfe. subst lx. symmetry. exact Hx.
  - (* below *)
    intros mf ef Hmf Hcf Hle. rewrite Hval.
    destruct (canonical_bounds mf ef Hmf Hcf) as [Hflo Hfhi].
    assert (Hk : Zdigits2 mf + ef <= Zdigits2 mx + ex).
    { assert (Zdigits2 mf + ef - 1 < Zdigits2 mx + ex); [| lia].
      apply bpow_lt_inv. Lra.lra. }
    assert (Hee : ef <= e1) by (unfold e1; rewrite fexp_spec in *; lia).
    apply Rle_trans with (IZR m1 * bpow e1)%R;
      [| apply Rmult_le_compat_r; [Lra.lra | apply IZR_le; lia]].
    destruct (Z.eq_dec ef e1) as [-> | Hne].
    + apply Rmult_le_compat_r; [Lra.lra |]. apply IZR_le.
      assert (mf < m1 + 1); [| lia].
      apply (mult_bpow_lt_inv _ _ e1). rewrite plus_IZR.
      pose proof (inbetween_bounds _ _ _ _ Hin). Lra.lra.
    + assert (Hgt : emin < e1) by (rewrite fexp_spec in Hcf; lia).
      specialize (Hnorm Hgt).
      assert (Hkk : Zdigits2 mf + ef <= prec - 1 + e1)
        by (unfold e1 in *; rewrite fexp_spec in *; lia).
      apply bpow_le in Hkk.
      rewrite (bpow_plus (prec - 1) e1), (bpow_IZR (prec - 1)) in Hkk by lia.
      apply IZR_le in Hnorm. Lra.nra.
  - (* above *)
    intros mf ef Hmf Hcf Hle. rewrite Hval.
    destruct Hcases as [[Hl Hv] | [Hl [Hv _]]].
    + rewrite (Hrx Hl). Lra.lra.
    + apply Rle_trans with (IZR (m1 + 1) * bpow e1)%R;
        [apply Rmult_le_compat_r; [Lra.lra | apply IZR_le; lia] |].
      destruct (canonical_bounds mf ef Hmf Hcf) as [Hflo Hfhi].
      destruct (Z_le_gt_dec e1 ef) as [Hee | Hee].
      * replace ef with (ef - e1 + e1) by lia.
        rewrite (bpow_plus (ef - e1) e1), (bpow_IZR (ef - e1)) by lia.
        rewrite <- Rmult_assoc, <- (mult_IZR mf).
        apply Rmult_le_compat_r; [Lra.lra |]. apply IZR_le.
        assert (m1 < mf * 2 ^ (ef - e1)); [| lia].
        apply (mult_bpow_lt_inv _ _ e1).
        rewrite (mult_IZR mf), <- (bpow_IZR (ef - e1)), Rmult_assoc,
          <- (bpow_plus (ef - e1) e1) by lia.
        replace (ef - e1 + e1) with ef by lia. Lra.lra.
      * exfalso.
        assert (Hgt : emin < e1) by (rewrite fexp_spec in Hcf; lia).
        specialize (Hnorm Hgt).
        assert (Hkk : Zdigits2 mf + ef <= prec - 1 + e1)
          by (unfold e1 in *; rewrite fexp_spec in *; lia).
        apply bpow_le in Hkk.
      rewrite (bpow_plus (prec - 1) e1), (bpow_IZR (prec - 1)) in Hkk by lia.
        apply IZR_le in Hnorm. Lra.nra.
Qed.

Lemma finite_valid_cases F :
  finite F = true ->
  (exists s, F = S754_zero s)
  \/ (exists s m e, F = S754_finite s m e
        /\ fexp (Zdigits2 (Zpos m) + e) = e /\ e <= emax - prec).
Proof.
  unfold finite_valid. destruct F as [s | s | | s m e]; cbn; try discriminate.
  - intros _. left. exists s. reflexivity.
  - rewrite andb_true_r. unfold bounded, canonical_mantissa.
    intros Hb. apply andb_prop in Hb. destruct Hb as [Hc He].
    apply Z.eqb_eq in Hc. apply Z.leb_le in He.
    right. exists s, m, e. split; [reflexivity |]. split; assumption.
Qed.

Lemma finite_valid_finite s m e :
  fexp (Zdigits2 (Zpos m) + e) = e -> e <= emax - prec ->
  finite (S754_finite s m e) = true.
Proof.
  intros Hc He. unfold finite_valid. cbn. rewrite andb_true_r.
  unfold bounded, canonical_mantissa. apply andb_true_intro.
  split; [apply Z.eqb_eq; exact Hc | apply Z.leb_le; exact He].
Qed.

Lemma B2R_SFopp F : B2R (SFopp F) = (- B2R F)%R.
Proof.
  destruct F as [s | s | | s m e]; cbn [SFopp B2R]; try Lra.lra.
  destruct s; cbn [negb cond_Zopp]; rewrite opp_IZR; ring.
Qed.

Lemma finite_valid_SFopp F : finite (SFopp F) = finite F.
Proof. destruct F; reflexivity. Qed.

Lemma B2R_finite_lt_bpow (m : positive) e :
  fexp (Zdigits2 (Zpos m) + e) = e -> e <= emax - prec ->
  (IZR (Zpos m) * bpow e < bpow emax)%R.
Proof.
  intros Hc He.
  destruct (canonical_bounds (Zpos m) e ltac:(lia) Hc) as [_ Hhi].
  destruct (canonical_digits (Zpos m) e ltac:(lia) Hc) as (_ & Hd & _).
  pose proof (bpow_le (Zdigits2 (Zpos m) + e) emax ltac:(lia)). Lra.lra.
Qed.

(** The result of [binary_round_aux], as a magnitude [v] next to [x]. *)
Lemma binary_round_aux_magnitude sx mx ex lx x :
  0 <= mx -> inbetween mx ex lx x -> ex <= fexp (Zdigits2 mx + ex) ->
  let r := binary_round_aux prec emax sx mx ex lx in
  valid_binary prec emax r = true
  /\ exists v : R,
       (0 <= v)%R
       /\ (is_finite r = true -> B2R r = if sx then (- v)%R else v)
       /\ (forall F, finite F = true -> (B2R F <= x)%R -> (B2R F <= v)%R)
       /\ (forall F, finite F = true -> (x <= B2R F)%R ->
           is_finite r = true /\ (v <= B2R F)%R)
       /\ (lx = loc_Exact -> fexp (Zdigits2 mx + ex) = ex -> v = x).
Proof.
  intros Hm Hx He r.
  destruct (binary_round_aux_spec sx mx ex lx x Hm Hx He)
    as (m2 & e2 & Hm2 & Hr & Hcan & Hzero & Hexact & Hbelow & Habove).
  fold r in Hr.
  assert (Hx0 : (0 <= x)%R).
  { apply inbetween_bounds in Hx. pose proof (bpow_gt_0 ex).
    apply IZR_le in Hm. Lra.nra. }
  assert (Hv0 : (0 <= IZR m2 * bpow e2)%R).
  { pose proof (bpow_gt_0 e2). apply IZR_le in Hm2. Lra.nra. }
  split.
  - rewrite Hr. destruct m2 as [| p | p]; try reflexivity.
    destruct (e2 <=? emax - prec) eqn:E; [| reflexivity].
    cbn. unfold bounded, canonical_mantissa. specialize (Hcan ltac:(lia)).
    apply andb_true_intro. split; [apply Z.eqb_eq; exact Hcan | exact E].
  - exists (IZR m2 * bpow e2)%R. split; [exact Hv0 |].
    split; [| split; [| split]].
    + rewrite Hr. destruct m2 as [| p | p]; [cbn; intros _; destruct sx; Lra.lra | | lia].
      destruct (e2 <=? emax - prec); [| discriminate].
      intros _. cbn -[IZR]. destruct sx; cbn -[IZR]; [| reflexivity].
      change (Z.neg p) with (- Zpos p). rewrite opp_IZR. Lra.lra.
    + intros F HF Hle. destruct (finite_valid_cases F HF) as [[s ->] | (s & m & e & -> & Hc & Hb)].
      * exact Hv0.
      * cbn -[IZR] in *. destruct s; cbn -[IZR] in *.
        -- change (Z.neg m) with (- Zpos m). rewrite opp_IZR.
           pose proof (bpow_gt_0 e). pose proof (IZR_lt 0 (Zpos m) ltac:(lia)). Lra.nra.
        -- apply Hbelow; [lia | exact Hc | exact Hle].
    + intros F HF Hle.
      destruct (finite_valid_cases F HF) as [[s ->] | (s & m & e & -> & Hc & Hb)].
      * cbn in Hle. assert (Hxz : x = 0%R) by Lra.lra.
        rewrite (Hzero Hxz) in *. rewrite Hr. cbn. split; [reflexivity | Lra.lra].
      * cbn -[IZR] in *. destruct s; cbn -[IZR] in *.
        -- exfalso. change (Z.neg m) with (- Zpos m) in Hle. rewrite opp_IZR in Hle.
           pose proof (bpow_gt_0 e). pose proof (IZR_lt 0 (Zpos m) ltac:(lia)). Lra.nra.
        -- pose proof (Habove (Zpos m) e ltac:(lia) Hc Hle) as Hv.
           split; [| exact Hv].
           rewrite Hr. destruct m2 as [| p | p]; [reflexivity | | lia].
           destruct (e2 <=? emax - prec) eqn:E; [reflexivity |].
           exfalso. apply Z.leb_gt in E.
           specialize (Hcan ltac:(lia)).
           destruct (canonical_bounds (Zpos p) e2 ltac:(lia) Hcan) as [Hlo _].
           destruct (canonical_digits (Zpos p) e2 ltac:(lia) Hcan) as (_ & _ & Hd).
           rewrite emin_spec in Hd. specialize (Hd ltac:(lia)).
           pose proof (B2R_finite_lt_bpow m e Hc Hb).
           pose proof (bpow_le emax (Zdigits2 (Zpos p) + e2 - 1) ltac:(lia)). Lra.lra.
    + exact Hexact.
Qed.

Lemma digits2_pos_iter_xO (m d : positive) :
  Zpos (digits2_pos (Pos.iter xO m d)) = Zpos (digits2_pos m) + Zpos d
  /\ Zpos (Pos.iter xO m d) = Zpos m * 2 ^ Zpos d.
Proof.
  induction d as [| d IH] using Pos.peano_ind.
  - cbn [Pos.iter digits2_pos]. rewrite Pos2Z.inj_succ, (Pos2Z.inj_xO m). lia.
  - rewrite Pos.iter_succ. cbn [digits2_pos].
    rewrite !Pos2Z.inj_succ, (Pos2Z.inj_xO (Pos.iter xO m d)), Z.pow_succ_r by lia.
    lia.
Qed.

Lemma shl_align_spec mx ex ex' :
  let mz := fst (shl_align mx ex ex') in
  let ez := snd (shl_align mx ex ex') in
  (IZR (Zpos mz) * bpow ez = IZR (Zpos mx) * bpow ex)%R
  /\ Zdigits2 (Zpos mz) + ez = Zdigits2 (Zpos mx) + ex
  /\ ez = Z.min ex ex'.
Proof.
  unfold shl_align. destruct (ex' - ex) as [| d | d] eqn:E; cbn [fst snd].
  - split; [reflexivity |]. split; lia.
  - split; [reflexivity |]. split; lia.
  - destruct (digits2_pos_iter_xO mx d) as [Hd Hv].
    split; [| split; [cbn [Zdigits2]; lia | lia]].
    rewrite Hv, mult_IZR, <- bpow_IZR, Rmult_assoc, <- bpow_plus by lia.
    replace (Zpos d + ex') with ex by lia. reflexivity.
Qed.

Lemma binary_round_magnitude sx mx ex :
  let x := (IZR (Zpos mx) * bpow ex)%R in
  let r := binary_round prec emax sx mx ex in
  valid_binary prec emax r = true
  /\ exists v : R,
       (0 <= v)%R
       /\ (is_finite r = true -> B2R r = if sx then (- v)%R else v)
       /\ (forall F, finite F = true -> (B2R F <= x)%R -> (B2R F <= v)%R)
       /\ (forall F, finite F = true -> (x <= B2R F)%R ->
           is_finite r = true /\ (v <= B2R F)%R)
       /\ (fexp (Zdigits2 (Zpos mx) + ex) <= ex -> v = x).
Proof.
  intros x r. unfold r, binary_round.
  destruct (shl_align_spec mx ex (fexp (Zpos (digits2_pos mx) + ex))) as (Hv & Hd & He).
  destruct (shl_align mx ex (fexp (Zpos (digits2_pos mx) + ex))) as [mz ez].
  cbn [fst snd] in *. cbn [Zdigits2] in Hd.
  destruct (binary_round_aux_magnitude sx (Zpos mz) ez loc_Exact x) as (Hval & v & H0 & H1 & H2 & H3 & H4).
  - lia.
  - cbn [inbetween]. unfold x. symmetry. exact Hv.
  - cbn [Zdigits2]. rewrite Hd. lia.
  - split; [exact Hval |]. exists v. repeat (split; [assumption |]).
    intros Hle. apply H4; [reflexivity |]. cbn [Zdigits2] in *. rewrite Hd. lia.
Qed.

(** Rounding an integer multiple of a power of two stays between any two
    numbers of the format that enclose it. *)
Lemma binary_normalize_sandwich (M e : Z) (sz : bool) (L H : spec_float) :
  finite L = true -> finite H = true ->
  (B2R L <= IZR M * bpow e <= B2R H)%R ->
  let r := binary_normalize prec emax M e sz in
  finite r = true /\ (B2R L <= B2R r <= B2R H)%R.
Proof.
  intros HL HH [Hlo Hhi] r. unfold r, binary_normalize, finite_valid.
  destruct M as [| p | p].
  - cbn. rewrite Rmult_0_l in *. split; [reflexivity | Lra.lra].
  - destruct (binary_round_magnitude false p e) as (Hval & v & H0 & H1 & H2 & H3 & _).
    destruct (H3 H HH Hhi) as [Hfin Hv]. rewrite Hval, Hfin, (H1 Hfin).
    split; [reflexivity |]. split; [exact (H2 L HL Hlo) | exact Hv].
  - destruct (binary_round_magnitude true p e) as (Hval & v & H0 & H1 & H2 & H3 & _).
    change (Z.neg p) with (- Zpos p) in *. rewrite opp_IZR in *.
    destruct (H3 (SFopp L)) as [Hfin Hv];
      [rewrite finite_valid_SFopp; exact HL | rewrite B2R_SFopp; Lra.lra |].
    rewrite Hval, Hfin, (H1 Hfin). split; [reflexivity |].
    pose proof (H2 (SFopp H)) as Hl. rewrite finite_valid_SFopp, !B2R_SFopp in *.
    specialize (Hl HH). Lra.lra.
Qed.

(** An integer that needs no more bits than the format has is not rounded. *)
Lemma binary_normalize_exact (M e : Z) (sz : bool) :
  fexp (Zdigits2 M + e) <= e ->
  let r := binary_normalize prec emax M e sz in
  is_finite r = true -> B2R r = (IZR M * bpow e)%R.
Proof.
  intros Hle r. unfold r, binary_normalize.
  destruct M as [| p | p].
  - cbn. intros _. Lra.lra.
  - destruct (binary_round_magnitude false p e) as (Hval & v & H0 & H1 & H2 & H3 & H4).
    intros Hfin. rewrite (H1 Hfin). apply H4. exact Hle.
  - destruct (binary_round_magnitude true p e) as (Hval & v & H0 & H1 & H2 & H3 & H4).
    intros Hfin. rewrite (H1 Hfin), (H4 Hle).
    change (Z.neg p) with (- Zpos p). rewrite opp_IZR. Lra.lra.
Qed.

Lemma binary_round_aux_sandwich (sx : bool) mx ex lx (x : R) (L H : spec_float) :
  0 <= mx -> inbetween mx ex lx x -> ex <= fexp (Zdigits2 mx + ex) ->
  finite L = true -> finite H = true ->
  (B2R L <= (if sx then - x else x) <= B2R H)%R ->
  let r := binary_round_aux prec emax sx mx ex lx in
  finite r = true /\ (B2R L <= B2R r <= B2R H)%R.
Proof.
  intros Hm Hx He HL HH [Hlo Hhi] r. unfold finite_valid.
  destruct (binary_round_aux_magnitude sx mx ex lx x Hm Hx He)
    as (Hval & v & H0 & H1 & H2 & H3 & _).
  fold r in Hval, H1, H3. destruct sx.
  - destruct (H3 (SFopp L)) as [Hfin Hv];
      [rewrite finite_valid_SFopp; exact HL | rewrite B2R_SFopp; Lra.lra |].
    rewrite Hval, Hfin, (H1 Hfin). split; [reflexivity |].
    pose proof (H2 (SFopp H)) as Hl. rewrite finite_valid_SFopp, !B2R_SFopp in *.
    specialize (Hl HH). Lra.lra.
  - destruct (H3 H HH Hhi) as [Hfin Hv]. rewrite Hval, Hfin, (H1 Hfin).
    split; [reflexivity |]. split; [exact (H2 L HL Hlo) | exact Hv].
Qed.

Lemma IZR_cond_Zopp s m :
  IZR (cond_Zopp s m) = (if s then - IZR m else IZR m)%R.
Proof. destruct s; cbn [cond_Zopp]; [apply opp_IZR | reflexivity]. Qed.

(** *** Addition and subtraction *)

Lemma SFadd_sandwich (x y L H : spec_float) :
  finite x = true -> finite y = true ->
  finite L = true -> finite H = true ->
  (B2R L <= B2R x + B2R y <= B2R H)%R ->
  finite (SFadd prec emax x y) = true
  /\ (B2R L <= B2R (SFadd prec emax x y) <= B2R H)%R.
Proof.
  intros Hx Hy HL HH Hb.
  destruct x as [sx | sx | | sx mx ex]; try discriminate Hx;
    destruct y as [sy | sy | | sy my ey]; try discriminate Hy.
  - assert (Hz : forall s, finite (S754_zero s) = true /\
                           (B2R L <= B2R (S754_zero s) <= B2R H)%R).
    { intros s. split; [reflexivity |]. cbn in *. Lra.lra. }
    cbn [SFadd]. destruct sx, sy; apply Hz.
  - cbn [SFadd]. split; [exact Hy |]. cbn [B2R] in *. Lra.lra.
  - cbn [SFadd]. split; [exact Hx |]. cbn [B2R] in *. Lra.lra.
  - cbn [SFadd]. apply binary_normalize_sandwich; try assumption.
    destruct (shl_align_spec mx ex (Z.min ex ey)) as (Hvx & _ & Hex).
    destruct (shl_align_spec my ey (Z.min ex ey)) as (Hvy & _ & Hey).
    rewrite Hex in Hvx. rewrite Hey in Hvy.
    replace (Z.min ex (Z.min ex ey)) with (Z.min ex ey) in Hvx by lia.
    replace (Z.min ey (Z.min ex ey)) with (Z.min ex ey) in Hvy by lia.
    rewrite plus_IZR, !IZR_cond_Zopp. cbn [B2R] in Hb. rewrite !IZR_cond_Zopp in Hb.
    destruct sx, sy; Lra.lra.
Qed.

Lemma SFsub_sandwich (x y L H : spec_float) :
  finite x = true -> finite y = true ->
  finite L = true -> finite H = true ->
  (B2R L <= B2R x - B2R y <= B2R H)%R ->
  finite (SFsub prec emax x y) = true
  /\ (B2R L <= B2R (SFsub prec emax x y) <= B2R H)%R.
Proof.
  intros Hx Hy HL HH Hb.
  destruct x as [sx | sx | | sx mx ex]; try discriminate Hx;
    destruct y as [sy | sy | | sy my ey]; try discriminate Hy.
  - assert (Hz : forall s, finite (S754_zero s) = true /\
                           (B2R L <= B2R (S754_zero s) <= B2R H)%R).
    { intros s. split; [reflexivity |]. cbn in *. Lra.lra. }
    cbn [SFsub]. destruct sx, sy; apply Hz.
  - cbn [SFsub]. change (S754_finite (negb sy) my ey) with (SFopp (S754_finite sy my ey)).
    rewrite finite_valid_SFopp, B2R_SFopp. split; [exact Hy |]. cbn [B2R] in *. Lra.lra.
  - cbn [SFsub]. split; [exact Hx |]. cbn [B2R] in *. Lra.lra.
  - cbn [SFsub]. apply binary_normalize_sandwich; try assumption.
    destruct (shl_align_spec mx ex (Z.min ex ey)) as (Hvx & _ & Hex).
    destruct (shl_align_spec my ey (Z.min ex ey)) as (Hvy & _ & Hey).
    rewrite Hex in Hvx. rewrite Hey in Hvy.
    replace (Z.min ex (Z.min ex ey)) with (Z.min ex ey) in Hvx by lia.
    replace (Z.min ey (Z.min ex ey)) with (Z.min ex ey) in Hvy by lia.
    rewrite minus_IZR, !IZR_cond_Zopp. cbn [B2R] in Hb. rewrite !IZR_cond_Zopp in Hb.
    destruct sx, sy; Lra.lra.
Qed.

(** *** Multiplication *)

Lemma Zdigits2_mul (a b : positive) :
  Zdigits2 (Zpos a) + Zdigits2 (Zpos b) - 1 <= Zdigits2 (Zpos (a * b)).
Proof.
  pose proof (Zdigits2_bounds (Zpos a) ltac:(lia)) as [Ha _].
  pose proof (Zdigits2_bounds (Zpos b) ltac:(lia)) as [Hb _].
  pose proof (Zdigits2_pos (Zpos a) ltac:(lia)).
  pose proof (Zdigits2_pos (Zpos b) ltac:(lia)).
  set (da := Zdigits2 (Zpos a)) in *. set (db := Zdigits2 (Zpos b)) in *.
  assert (Hp : 2 ^ (da + db - 2) <= Zpos (a * b)).
  { replace (da + db - 2) with ((da - 1) + (db - 1)) by lia.
    rewrite Z.pow_add_r, Pos2Z.inj_mul by lia.
    apply Z.mul_le_mono_nonneg; try assumption; apply Z.pow_nonneg; lia. }
  pose proof (Zdigits2_ge (Zpos (a * b)) (da + db - 2) ltac:(lia) Hp). lia.
Qed.

Lemma SFmul_sandwich (x y L H : spec_float) :
  finite x = true -> finite y = true ->
  finite L = true -> finite H = true ->
  (B2R L <= B2R x * B2R y <= B2R H)%R ->
  finite (SFmul prec emax x y) = true
  /\ (B2R L <= B2R (SFmul prec emax x y) <= B2R H)%R.
Proof.
  intros Hx Hy HL HH Hb.
  assert (Hz : forall s, finite (S754_zero s) = true /\
                         ((B2R L <= 0 <= B2R H)%R ->
                          (B2R L <= B2R (S754_zero s) <= B2R H)%R)).
  { intros s. split; [reflexivity |]. cbn. tauto. }
  destruct (finite_valid_cases x Hx) as [[sx ->] | (sx & mx & ex & -> & Hcx & Hbx)];
    destruct (finite_valid_cases y Hy) as [[sy ->] | (sy & my & ey & -> & Hcy & Hby)];
    cbn [SFmul].
  - split; [apply Hz | apply Hz; cbn [B2R] in Hb; Lra.lra].
  - split; [apply Hz | apply Hz; cbn [B2R] in Hb; Lra.lra].
  - split; [apply Hz | apply Hz; cbn [B2R] in Hb; Lra.lra].
  - apply (binary_round_aux_sandwich _ _ _ _
             (IZR (Zpos (mx * my)) * bpow (ex + ey))%R); try assumption.
    + lia.
    + reflexivity.
    + pose proof (Zdigits2_mul mx my).
      pose proof (Zdigits2_pos (Zpos mx) ltac:(lia)).
      pose proof (Zdigits2_pos (Zpos my) ltac:(lia)).
      unfold SpecFloat.fexp, SpecFloat.emin in *. lia.
    + cbn [B2R] in Hb. rewrite !IZR_cond_Zopp in Hb.
      rewrite Pos2Z.inj_mul, mult_IZR, bpow_plus.
      destruct sx, sy; cbn [xorb]; Lra.lra.
Qed.

(** *** Division *)

Lemma new_location_spec (d r : Z) (q : Z) (e : Z) (x : R) :
  0 < d -> 0 <= r < d ->
  x = ((IZR q + IZR r / IZR d) * bpow e)%R ->
  inbetween q e (new_location d r) x.
Proof.
  intros Hd Hr ->. pose proof (bpow_gt_0 e) as Hb.
  assert (HdR : (0 < IZR d)%R) by (apply IZR_lt; lia).
  assert (Hhalf : forall c, Z.compare (2 * r) d = c ->
            match c with
            | Lt => (IZR r / IZR d < / 2)%R
            | Eq => (IZR r / IZR d = / 2)%R
            | Gt => (/ 2 < IZR r / IZR d)%R
            end).
  { intros c Hc. destruct (Z.compare_spec (2 * r) d) as [E | E | E]; subst c.
    - apply (f_equal IZR) in E. rewrite mult_IZR in E.
      rewrite <- E. field. intros H0. rewrite H0 in E. Lra.lra.
    - apply IZR_lt in E. rewrite mult_IZR in E.
      apply Rmult_lt_reg_r with (IZR d); [exact HdR |].
      unfold Rdiv. rewrite Rmult_assoc, Rinv_l by Lra.lra. Lra.lra.
    - apply IZR_lt in E. rewrite mult_IZR in E.
      apply Rmult_lt_reg_r with (IZR d); [exact HdR |].
      unfold Rdiv. rewrite Rmult_assoc, Rinv_l by Lra.lra. Lra.lra. }
  assert (Hlt1 : (IZR r / IZR d < 1)%R).
  { apply Rmult_lt_reg_r with (IZR d); [exact HdR |].
    unfold Rdiv. rewrite Rmult_assoc, Rinv_l by Lra.lra.
    pose proof (IZR_lt r d ltac:(lia)). Lra.lra. }
  assert (Hgt0 : r <> 0 -> (0 < IZR r / IZR d)%R).
  { intros Hne. apply Rdiv_lt_0_compat; [apply IZR_lt; lia | exact HdR]. }
  unfold new_location, new_location_even, new_location_odd.
  set (t := (IZR r / IZR d)%R) in *.
  assert (Ht0 : r = 0 -> t = 0%R).
  { intros ->. unfold t, Rdiv. apply Rmult_0_l. }
  destruct (Z.even d) eqn:Ev; cbv beta;
    (destruct (Z.eqb_spec r 0) as [Hr0 | Hne];
     [rewrite (Ht0 Hr0), Rplus_0_r; reflexivity |]);
    specialize (Hgt0 Hne); specialize (Hhalf _ eq_refl).
  - destruct (2 * r ?= d); cbn [inbetween]; Lra.nra.
  - assert (Hodd : 2 * r <> d).
    { intros E. rewrite <- E, Z.even_mul in Ev. discriminate. }
    destruct (Z.compare_spec (2 * r) d) as [E | E | E]; [lia | |];
      destruct (Z.compare_spec (2 * r + 1) d) as [E' | E' | E']; try lia;
      cbn [inbetween]; Lra.nra.
Qed.

Lemma SFdiv_core_binary_spec (mx my : positive) (ex ey : Z) :
  let '(mz, ez, lz) := SFdiv_core_binary prec emax (Zpos mx) ex (Zpos my) ey in
  0 <= mz
  /\ inbetween mz ez lz ((IZR (Zpos mx) * bpow ex) / (IZR (Zpos my) * bpow ey))%R
  /\ ez <= fexp (Zdigits2 mz + ez).
Proof.
  unfold SFdiv_core_binary.
  set (d1 := Zdigits2 (Zpos mx)). set (d2 := Zdigits2 (Zpos my)).
  set (e' := Z.min (fexp (d1 + ex - (d2 + ey))) (ex - ey)).
  set (s := ex - ey - e').
  assert (Hs : 0 <= s) by (unfold s, e'; lia).
  set (m' := match s with
             | Zpos _ => Z.shiftl (Zpos mx) s
             | Z0 => Zpos mx
             | Zneg _ => 0
             end).
  assert (Hm' : m' = Zpos mx * 2 ^ s).
  { unfold m'. destruct s as [| p | p]; [lia | | lia].
    apply Z.shiftl_mul_pow2. lia. }
  clearbody m'.
  pose proof (Z_div_mod m' (Zpos my) ltac:(lia)) as Hdm.
  destruct (Z.div_eucl m' (Zpos my)) as [q r]. destruct Hdm as [Hq Hr].
  assert (Hpow : 0 < 2 ^ s) by (apply Z.pow_pos_nonneg; lia).
  assert (Hq0 : 0 <= q) by nia.
  pose proof (bpow_gt_0 ex) as Hbx. pose proof (bpow_gt_0 ey) as Hby.
  pose proof (bpow_gt_0 e') as Hbe.
  assert (HmyR : (0 < IZR (Zpos my))%R) by (apply IZR_lt; lia).
  assert (HmxR : (0 < IZR (Zpos mx))%R) by (apply IZR_lt; lia).
  assert (Hx : ((IZR (Zpos mx) * bpow ex) / (IZR (Zpos my) * bpow ey)
                = (IZR q + IZR r / IZR (Zpos my)) * bpow e')%R).
  { assert (Hex : bpow ex = (bpow s * bpow e' * bpow ey)%R).
    { rewrite <- !bpow_plus. f_equal. unfold s. lia. }
    rewrite Hex.
    assert (HmR : (IZR (Zpos mx) * bpow s = IZR (Zpos my) * IZR q + IZR r)%R).
    { rewrite bpow_IZR by lia. rewrite <- !mult_IZR, <- plus_IZR. f_equal. lia. }
    field_simplify_eq; [| Lra.lra]. Lra.nra. }
  split; [exact Hq0 |]. split.
  - apply new_location_spec; [lia | lia | exact Hx].
  - (* enough bits *)
    set (K := d1 + ex - (d2 + ey)) in *.
    destruct (Z_le_gt_dec (K - 1 - e') (-1)) as [Hsmall | Hbig].
    + unfold e', SpecFloat.fexp in *. lia.
    + assert (Hqb : 2 ^ (K - 1 - e') <= q).
      { assert (2 ^ (K - 1 - e') < q + 1); [| lia].
        apply lt_IZR. rewrite <- bpow_IZR by lia.
        apply Rmult_lt_reg_r with (bpow e'); [exact Hbe |].
        rewrite <- bpow_plus. replace (K - 1 - e' + e') with (K - 1) by lia.
        assert (Hxl : (bpow (K - 1) < (IZR (Zpos mx) * bpow ex) / (IZR (Zpos my) * bpow ey))%R).
        { pose proof (Zdigits2_R (Zpos mx) ltac:(lia)) as [Hlo1 _].
          pose proof (Zdigits2_R (Zpos my) ltac:(lia)) as [_ Hhi2].
          fold d1 in Hlo1. fold d2 in Hhi2.
          apply Rmult_lt_reg_r with (IZR (Zpos my) * bpow ey)%R; [Lra.nra |].
          unfold Rdiv. rewrite Rmult_assoc, Rinv_l, Rmult_1_r by Lra.nra.
          assert (Hk : bpow (d1 - 1) = (bpow (K - 1) * bpow d2 * bpow ey * / bpow ex)%R).
          { rewrite <- !bpow_plus.
            replace (K - 1 + d2 + ey) with (d1 - 1 + ex) by (unfold K; lia).
            rewrite bpow_plus. field. Lra.lra. }
          pose proof (bpow_gt_0 (K - 1)). pose proof (bpow_gt_0 d2).
          assert (bpow (K - 1) * bpow d2 * bpow ey <= IZR (Zpos mx) * bpow ex)%R.
          { rewrite Hk in Hlo1.
            apply Rmult_le_compat_r with (r := bpow ex) in Hlo1; [| Lra.lra].
            rewrite Rmult_assoc, Rinv_l, Rmult_1_r in Hlo1 by Lra.lra. exact Hlo1. }
          apply Rlt_le_trans with (bpow (K - 1) * bpow d2 * bpow ey)%R; [| assumption].
          replace (bpow (K - 1) * (IZR (Zpos my) * bpow ey))%R
            with ((bpow (K - 1) * bpow ey) * IZR (Zpos my))%R by ring.
          replace (bpow (K - 1) * bpow d2 * bpow ey)%R
            with ((bpow (K - 1) * bpow ey) * bpow d2)%R by ring.
          apply Rmult_lt_compat_l; [apply Rmult_lt_0_compat; assumption | exact Hhi2]. }
        rewrite Hx in Hxl. rewrite plus_IZR.
        assert (IZR r / IZR (Zpos my) < 1)%R.
        { apply Rmult_lt_reg_r with (IZR (Zpos my)); [exact HmyR |].
          unfold Rdiv. rewrite Rmult_assoc, Rinv_l by Lra.lra.
          pose proof (IZR_lt r (Zpos my) ltac:(lia)). Lra.lra. }
        Lra.nra. }
      pose proof (Zdigits2_ge q (K - 1 - e') ltac:(lia) Hqb).
      unfold e', SpecFloat.fexp in *. lia.
Qed.

Lemma SFdiv_sandwich (x : spec_float) sy my ey (L H : spec_float) :
  finite x = true ->
  finite L = true -> finite H = true ->
  (B2R L <= B2R x / B2R (S754_finite sy my ey) <= B2R H)%R ->
  finite (SFdiv prec emax x (S754_finite sy my ey)) = true
  /\ (B2R L <= B2R (SFdiv prec emax x (S754_finite sy my ey)) <= B2R H)%R.
Proof.
  intros Hx HL HH Hb.
  assert (HyR : (0 < IZR (Zpos my) * bpow ey)%R).
  { pose proof (bpow_gt_0 ey). pose proof (IZR_lt 0 (Zpos my) ltac:(lia)). Lra.nra. }
  destruct x as [sx | sx | | sx mx ex]; try discriminate Hx; cbn [SFdiv].
  - split; [reflexivity |]. cbn [B2R] in *. unfold Rdiv in Hb.
    rewrite Rmult_0_l in Hb. exact Hb.
  - pose proof (SFdiv_core_binary_spec mx my ex ey) as Hcore.
    destruct (SFdiv_core_binary prec emax (Zpos mx) ex (Zpos my) ey) as [[mz ez] lz].
    destruct Hcore as (Hmz & Hin & He).
    apply (binary_round_aux_sandwich _ _ _ _ _ L H Hmz Hin He HL HH).
    cbn [B2R] in Hb. rewrite !IZR_cond_Zopp in Hb.
    pose proof (bpow_gt_0 ey) as Hby.
    pose proof (IZR_lt 0 (Zpos my) ltac:(lia)) as HmyR.
    replace (if xorb sx sy
             then (- (IZR (Zpos mx) * bpow ex / (IZR (Zpos my) * bpow ey)))%R
             else (IZR (Zpos mx) * bpow ex / (IZR (Zpos my) * bpow ey))%R)
      with ((if sx then - IZR (Zpos mx) else IZR (Zpos mx)) * bpow ex
            / ((if sy then - IZR (Zpos my) else IZR (Zpos my)) * bpow ey))%R;
      [exact Hb |].
    destruct sx, sy; cbn [xorb]; field; split; Lra.lra.
Qed.

(** *** Comparison *)

Lemma canonical_lt_exponent m1 e1 m2 e2 :
  0 < m1 -> 0 < m2 ->
  fexp (Zdigits2 m1 + e1) = e1 -> fexp (Zdigits2 m2 + e2) = e2 ->
  e1 < e2 -> (IZR m1 * bpow e1 < IZR m2 * bpow e2)%R.
Proof.
  intros H1 H2 Hc1 Hc2 Hlt.
  destruct (canonical_bounds m1 e1 H1 Hc1) as [_ Hhi].
  destruct (canonical_bounds m2 e2 H2 Hc2) as [Hlo _].
  destruct (canonical_digits m1 e1 H1 Hc1) as (? & ? & _).
  destruct (canonical_digits m2 e2 H2 Hc2) as (_ & _ & Hd).
  specialize (Hd ltac:(lia)).
  pose proof (bpow_le (Zdigits2 m1 + e1) (Zdigits2 m2 + e2 - 1) ltac:(lia)). Lra.lra.
Qed.

Lemma compare_canonical (m1 m2 : positive) e1 e2 :
  fexp (Zdigits2 (Zpos m1) + e1) = e1 -> fexp (Zdigits2 (Zpos m2) + e2) = e2 ->
  match (match e1 ?= e2 with
         | Lt => Lt
         | Gt => Gt
         | Eq => Pos.compare_cont Eq m1 m2
         end) with
  | Lt => (IZR (Zpos m1) * bpow e1 < IZR (Zpos m2) * bpow e2)%R
  | Eq => (IZR (Zpos m1) * bpow e1 = IZR (Zpos m2) * bpow e2)%R
  | Gt => (IZR (Zpos m2) * bpow e2 < IZR (Zpos m1) * bpow e1)%R
  end.
Proof.
  intros Hc1 Hc2. destruct (Z.compare_spec e1 e2) as [-> | Hlt | Hgt].
  - change (Pos.compare_cont Eq m1 m2) with (Pos.compare m1 m2).
    pose proof (bpow_gt_0 e2).
    destruct (Pos.compare_spec m1 m2) as [-> | Hlt | Hgt].
    + reflexivity.
    + apply Rmult_lt_compat_r; [assumption | apply IZR_lt; lia].
    + apply Rmult_lt_compat_r; [assumption | apply IZR_lt; lia].
  - apply canonical_lt_exponent; try assumption; lia.
  - apply canonical_lt_exponent; try assumption; lia.
Qed.

(** On the numbers of the format the comparison of the floats is the
    comparison of their values. *)
Lemma SFcompare_spec (x y : spec_float) :
  finite x = true -> finite y = true ->
  exists c, SFcompare x y = Some c
    /\ match c with
       | Lt => (B2R x < B2R y)%R
       | Eq => B2R x = B2R y
       | Gt => (B2R y < B2R x)%R
       end.
Proof.
  intros Hx Hy.
  destruct (finite_valid_cases x Hx) as [[sx ->] | (sx & mx & ex & -> & Hcx & Hbx)];
    destruct (finite_valid_cases y Hy) as [[sy ->] | (sy & my & ey & -> & Hcy & Hby)];
    cbn [SFcompare B2R]; eexists; (split; [reflexivity |]).
  - reflexivity.
  - pose proof (bpow_gt_0 ey). pose proof (IZR_lt 0 (Zpos my) ltac:(lia)).
    rewrite IZR_cond_Zopp. destruct sy; Lra.nra.
  - pose proof (bpow_gt_0 ex). pose proof (IZR_lt 0 (Zpos mx) ltac:(lia)).
    rewrite IZR_cond_Zopp. destruct sx; Lra.nra.
  - pose proof (bpow_gt_0 ex). pose proof (IZR_lt 0 (Zpos mx) ltac:(lia)).
    pose proof (bpow_gt_0 ey). pose proof (IZR_lt 0 (Zpos my) ltac:(lia)).
    rewrite !IZR_cond_Zopp.
    pose proof (compare_canonical mx my ex ey Hcx Hcy) as Hc.
    destruct sx, sy; try Lra.nra.
    + destruct (ex ?= ey); [destruct (Pos.compare_cont Eq mx my) | |];
        cbn [CompOpp]; Lra.lra.
    + destruct (ex ?= ey); [destruct (Pos.compare_cont Eq mx my) | |]; Lra.lra.
Qed.

Lemma SFltb_spec (x y : spec_float) :
  finite x = true -> finite y = true ->
  (SFltb x y = true <-> (B2R x < B2R y)%R)
  /\ (SFltb x y = false <-> (B2R y <= B2R x)%R).
Proof.
  intros Hx Hy. destruct (SFcompare_spec x y Hx Hy) as (c & Hc & Hv).
  unfold SFltb. rewrite Hc.
  destruct c; (split; split; intros; try reflexivity; try discriminate; Lra.lra).
Qed.

Lemma SFleb_spec (x y : spec_float) :
  finite x = true -> finite y = true ->
  (SFleb x y = true <-> (B2R x <= B2R y)%R)
  /\ (SFleb x y = false <-> (B2R y < B2R x)%R).
Proof.
  intros Hx Hy. destruct (SFcompare_spec x y Hx Hy) as (c & Hc & Hv).
  unfold SFleb. rewrite Hc.
  destruct c; (split; split; intros; try reflexivity; try discriminate; Lra.lra).
Qed.

(** The numbers of the format below [N * 2^j], with [N] of full width, are
    at most [(N - 1) * 2^j]. *)
Lemma below_grid (x : spec_float) (N j : Z) :
  finite x = true -> 2 ^ (prec - 1) < N ->
  (B2R x < IZR N * bpow j)%R -> (B2R x <= IZR (N - 1) * bpow j)%R.
Proof.
  intros Hx HN Hlt. pose proof (bpow_gt_0 j) as Hj.
  assert (Hpp : 0 < 2 ^ (prec - 1)) by (apply Z.pow_pos_nonneg; lia).
  assert (HN1 : (0 <= IZR (N - 1) * bpow j)%R).
  { pose proof (IZR_le 0 (N - 1) ltac:(lia)). Lra.nra. }
  destruct (finite_valid_cases x Hx) as [[s ->] | (s & m & e & -> & Hc & Hb)].
  - exact HN1.
  - cbn [B2R] in *. rewrite IZR_cond_Zopp in *.
    pose proof (bpow_gt_0 e) as He. pose proof (IZR_lt 0 (Zpos m) ltac:(lia)) as Hm.
    destruct s; [Lra.nra |].
    destruct (Z_le_gt_dec j e) as [Hje | Hje].
    + replace e with (e - j + j) in * by lia.
      rewrite bpow_plus, bpow_IZR, <- Rmult_assoc, <- mult_IZR in * by lia.
      apply mult_bpow_lt_inv in Hlt.
      apply Rmult_le_compat_r; [Lra.lra |]. apply IZR_le. lia.
    + destruct (canonical_digits (Zpos m) e ltac:(lia) Hc) as (_ & Hd & _).
      destruct (canonical_bounds (Zpos m) e ltac:(lia) Hc) as [_ Hhi].
      pose proof (bpow_le (Zdigits2 (Zpos m) + e) (prec - 1 + j) ltac:(lia)) as Hle.
      rewrite (bpow_plus (prec - 1) j), (bpow_IZR (prec - 1)) in Hle by lia.
      pose proof (IZR_le (2 ^ (prec - 1)) (N - 1) ltac:(lia)). Lra.nra.
Qed.

End Round.

Lemma bpow_Zneg (p : positive) : bpow (Zneg p) = (/ IZR (2 ^ Zpos p))%R.
Proof.
  rewrite <- bpow_IZR by lia. pose proof (bpow_opp (Zpos p)) as H.
  change (- Zpos p) with (Zneg p) in H. pose proof (bpow_gt_0 (Zpos p)).
  apply Rmult_eq_reg_r with (bpow (Zpos p)); [| Lra.lra].
  rewrite H, Rinv_l by Lra.lra. reflexivity.
Qed.

Lemma bpow_Zpos (p : positive) : bpow (Zpos p) = IZR (2 ^ Zpos p).
Proof. apply bpow_IZR. lia. Qed.

(** Powers of two with a literal exponent, as literals. *)
Ltac bpow_literals :=
  rewrite ?bpow_Zneg, ?bpow_Zpos, ?bpow_0 in *;
  repeat match goal with
         | |- context [(2 ^ Zpos ?p)%Z] =>
             let v := eval vm_compute in (2 ^ Zpos p)%Z in
             change (2 ^ Zpos p)%Z with v in *
         | H : context [(2 ^ Zpos ?p)%Z] |- _ =>
             let v := eval vm_compute in (2 ^ Zpos p)%Z in
             change (2 ^ Zpos p)%Z with v in *
         end.

(** ** The arithmetic of the program: binary32 *)

(** The value of a literal. *)
Ltac b32_value :=
  cbn [B2R cond_Zopp] in *; rewrite ?opp_IZR in *; bpow_literals.

Section Binary32.
Implicit Types x y L H : spec_float.

Lemma b32_prec : 0 < B32.prec. Proof. reflexivity. Qed.
Lemma b32_emax : B32.prec < B32.emax. Proof. reflexivity. Qed.

Lemma binary32_add x y L H :
  binary32 x = true -> binary32 y = true ->
  binary32 L = true -> binary32 H = true ->
  (B2R L <= B2R x + B2R y <= B2R H)%R ->
  binary32 (x [+] y) = true /\ (B2R L <= B2R (x [+] y) <= B2R H)%R.
Proof. apply (SFadd_sandwich B32.prec B32.emax b32_prec b32_emax). Qed.

Lemma binary32_sub x y L H :
  binary32 x = true -> binary32 y = true ->
  binary32 L = true -> binary32 H = true ->
  (B2R L <= B2R x - B2R y <= B2R H)%R ->
  binary32 (x [-] y) = true /\ (B2R L <= B2R (x [-] y) <= B2R H)%R.
Proof. apply (SFsub_sandwich B32.prec B32.emax b32_prec b32_emax). Qed.

Lemma binary32_mul x y L H :
  binary32 x = true -> binary32 y = true ->
  binary32 L = true -> binary32 H = true ->
  (B2R L <= B2R x * B2R y <= B2R H)%R ->
  binary32 (x [*] y) = true /\ (B2R L <= B2R (x [*] y) <= B2R H)%R.
Proof. apply (SFmul_sandwich B32.prec B32.emax b32_prec b32_emax). Qed.

Lemma binary32_div x sy my ey L H :
  binary32 x = true ->
  binary32 L = true -> binary32 H = true ->
  (B2R L <= B2R x / B2R (S754_finite sy my ey) <= B2R H)%R ->
  binary32 (x [/] S754_finite sy my ey) = true
  /\ (B2R L <= B2R (x [/] S754_finite sy my ey) <= B2R H)%R.
Proof. apply (SFdiv_sandwich B32.prec B32.emax b32_prec b32_emax). Qed.

Lemma binary32_lt x y :
  binary32 x = true -> binary32 y = true ->
  ((x [<] y) = true <-> (B2R x < B2R y)%R)
  /\ ((x [<] y) = false <-> (B2R y <= B2R x)%R).
Proof. apply (SFltb_spec B32.prec B32.emax). Qed.

Lemma binary32_le x y :
  binary32 x = true -> binary32 y = true ->
  ((x [<=] y) = true <-> (B2R x <= B2R y)%R)
  /\ ((x [<=] y) = false <-> (B2R y < B2R x)%R).
Proof. apply (SFleb_spec B32.prec B32.emax). Qed.

Lemma binary32_below x (N j : Z) :
  binary32 x = true -> 8388608 < N ->
  (B2R x < IZR N * bpow j)%R -> (B2R x <= (IZR N - 1) * bpow j)%R.
Proof.
  intros Hx HN Hlt. rewrite <- (minus_IZR N 1).
  exact (below_grid B32.prec B32.emax b32_prec x N j Hx HN Hlt).
Qed.

Lemma in_unit_interval_spec x :
  binary32 x = true ->
  in_unit_interval x = true <-> (0 <= B2R x < 1)%R.
Proof.
  intros Hx. unfold in_unit_interval. rewrite andb_true_iff.
  change (of_int (F := spec_float) 0) with (S754_zero false).
  change (of_int (F := spec_float) 1) with (S754_finite false 8388608 (-23)).
  destruct (binary32_le (S754_zero false) x eq_refl Hx) as [Hle _].
  destruct (binary32_lt x (S754_finite false 8388608 (-23)) Hx eq_refl) as [Hlt _].
  rewrite Hle, Hlt.
  b32_value. split; intros [H0 H1]; split; Lra.lra.
Qed.

Lemma B2R_SFabs x : B2R (SFabs x) = Rabs (B2R x).
Proof.
  destruct x as [s | s | | s m e]; cbn [SFabs B2R]; rewrite ?Rabs_R0; try reflexivity.
  pose proof (bpow_gt_0 e). pose proof (IZR_lt 0 (Zpos m) ltac:(lia)).
  destruct s; cbn [cond_Zopp].
  - rewrite opp_IZR, Rabs_left by Lra.nra. Lra.lra.
  - rewrite Rabs_right by Lra.nra. reflexivity.
Qed.

Lemma binary32_SFabs x : binary32 (SFabs x) = binary32 x.
Proof. destruct x; reflexivity. Qed.

Lemma binary32_SFopp x : binary32 (SFopp x) = binary32 x.
Proof. destruct x; reflexivity. Qed.

(** [fmod(x, 1.0f)] is exact: it is [x] minus [x] truncated to an integer. *)
Lemma fmod1_spec x :
  binary32 x = true ->
  binary32 (fmod1 x) = true
  /\ B2R (fmod1 x) = (B2R x - IZR (ftrunc x))%R.
Proof.
  intros Hx.
  destruct (finite_valid_cases _ _ x Hx) as [[s ->] | (s & m & e & -> & Hc & Hb)].
  - cbn. split; [reflexivity | Lra.lra].
  - cbn [fmod1 ftrunc b32_arith B32.fmod_one B32.trunc B2R].
    destruct (Z.leb_spec 0 e) as [He | He].
    + split; [reflexivity |]. cbn [B2R].
      rewrite !IZR_cond_Zopp, mult_IZR, <- bpow_IZR by lia. destruct s; Lra.lra.
    + assert (Hpow : 0 < 2 ^ (- e)) by (apply Z.pow_pos_nonneg; lia).
      pose proof (Z.div_mod (Zpos m) (2 ^ (- e)) ltac:(lia)) as Hdm.
      pose proof (Z.mod_pos_bound (Zpos m) (2 ^ (- e)) Hpow) as Hr.
      set (q := Zpos m / 2 ^ (- e)) in *. set (r := Zpos m mod 2 ^ (- e)) in *.
      pose proof (bpow_gt_0 e) as Hbe.
      assert (Hm : (IZR (Zpos m) * bpow e = IZR q + IZR r * bpow e)%R).
      { rewrite Hdm, plus_IZR, mult_IZR, <- bpow_IZR by lia.
        replace ((bpow (- e) * IZR q + IZR r) * bpow e)%R
          with (IZR q * (bpow (- e) * bpow e) + IZR r * bpow e)%R by ring.
        rewrite bpow_opp. ring. }
      assert (Hr1 : (IZR r * bpow e < 1)%R).
      { pose proof (IZR_lt r (2 ^ (- e)) ltac:(lia)) as Hlt.
        rewrite <- bpow_IZR in Hlt by lia. pose proof (bpow_opp e). Lra.nra. }
      assert (Hr0 : (0 <= IZR r * bpow e)%R).
      { pose proof (IZR_le 0 r ltac:(lia)). Lra.nra. }
      destruct (Z.eqb_spec r 0) as [Hz | Hnz].
      * split; [reflexivity |]. cbn [B2R]. rewrite Hz, Rmult_0_l in Hm.
        rewrite !IZR_cond_Zopp. destruct s; Lra.lra.
      * destruct (binary_normalize_sandwich B32.prec B32.emax b32_prec b32_emax
                    (cond_Zopp s r) e false
                    (S754_finite true 8388608 (-23)) (S754_finite false 8388608 (-23))
                    eq_refl eq_refl) as [Hfin Hbnd].
        { rewrite IZR_cond_Zopp. b32_value.
          destruct s; Lra.lra. }
        split; [exact Hfin |].
        rewrite (binary_normalize_exact B32.prec B32.emax b32_prec b32_emax).
        -- rewrite !IZR_cond_Zopp. destruct s; Lra.lra.
        -- assert (Hd : Zdigits2 (cond_Zopp s r) <= Zdigits2 (Zpos m)).
           { assert (Zdigits2 (cond_Zopp s r) = Zdigits2 r) as ->
               by (destruct s, r; reflexivity).
             apply Zdigits2_le; [lia |].
             pose proof (Zdigits2_bounds (Zpos m) ltac:(lia)).
             assert (r <= Zpos m) by (apply Z.mod_le; lia). lia. }
           unfold SpecFloat.fexp, SpecFloat.emin in *. lia.
        -- unfold binary32, finite_valid in Hfin.
           apply andb_prop in Hfin. apply Hfin.
Qed.

(** Truncation is towards zero, by less than one. *)
Lemma ftrunc_spec x :
  binary32 x = true ->
  ((0 <= B2R x)%R -> (IZR (ftrunc x) <= B2R x < IZR (ftrunc x) + 1)%R /\ 0 <= ftrunc x)
  /\ ((B2R x <= 0)%R -> (IZR (ftrunc x) - 1 < B2R x <= IZR (ftrunc x))%R /\ ftrunc x <= 0).
Proof.
  intros Hx.
  destruct (finite_valid_cases _ _ x Hx) as [[s ->] | (s & m & e & -> & Hc & Hb)].
  - cbn. split; intros _; (split; [Lra.lra | lia]).
  - cbn [ftrunc b32_arith B32.trunc B2R].
    pose proof (bpow_gt_0 e) as Hbe.
    pose proof (IZR_lt 0 (Zpos m) ltac:(lia)) as HmR.
    assert (Hcases : exists t : Z, 0 <= t
              /\ (if 0 <=? e then Zpos m * 2 ^ e else Zpos m / 2 ^ (- e)) = t
              /\ (IZR t <= IZR (Zpos m) * bpow e < IZR t + 1)%R).
    { destruct (Z.leb_spec 0 e) as [He | He].
      - exists (Zpos m * 2 ^ e). split; [apply Z.mul_nonneg_nonneg; [lia | apply Z.pow_nonneg; lia] |].
        split; [reflexivity |]. rewrite mult_IZR, <- bpow_IZR by lia. Lra.lra.
      - assert (Hpow : 0 < 2 ^ (- e)) by (apply Z.pow_pos_nonneg; lia).
        pose proof (Z.div_mod (Zpos m) (2 ^ (- e)) ltac:(lia)) as Hdm.
        pose proof (Z.mod_pos_bound (Zpos m) (2 ^ (- e)) Hpow) as Hr.
        exists (Zpos m / 2 ^ (- e)).
        split; [apply Z.div_pos; lia |]. split; [reflexivity |].
        set (q := Zpos m / 2 ^ (- e)) in *. set (r := Zpos m mod 2 ^ (- e)) in *.
        assert (Hm : (IZR (Zpos m) * bpow e = IZR q + IZR r * bpow e)%R).
        { rewrite Hdm, plus_IZR, mult_IZR, <- bpow_IZR by lia.
          replace ((bpow (- e) * IZR q + IZR r) * bpow e)%R
            with (IZR q * (bpow (- e) * bpow e) + IZR r * bpow e)%R by ring.
          rewrite bpow_opp. ring. }
        assert (Hr1 : (IZR r * bpow e < 1)%R).
        { pose proof (IZR_lt r (2 ^ (- e)) ltac:(lia)) as Hlt.
          rewrite <- bpow_IZR in Hlt by lia. pose proof (bpow_opp e). Lra.nra. }
        assert (Hr0 : (0 <= IZR r * bpow e)%R).
        { pose proof (IZR_le 0 r ltac:(lia)). Lra.nra. }
        Lra.lra. }
    destruct Hcases as (t & Ht0 & -> & Ht).
    rewrite !IZR_cond_Zopp. destruct s; cbn [cond_Zopp].
    + split; intros Hsgn; [exfalso; Lra.nra |]. split; [Lra.lra | lia].
    + split; intros Hsgn; [split; [Lra.lra | lia] | exfalso; Lra.nra].
Qed.

Lemma binary32_of_int (z : Z) :
  - 2147483648 <= z <= 2147483648 -> binary32 (of_int z) = true.
Proof.
  intros Hz.
  apply (binary_normalize_sandwich B32.prec B32.emax b32_prec b32_emax z 0 false
           (S754_finite true 8388608 8) (S754_finite false 8388608 8) eq_refl eq_refl).
  pose proof (IZR_le (-2147483648) z ltac:(lia)).
  pose proof (IZR_le z 2147483648 ltac:(lia)).
  b32_value. Lra.lra.
Qed.

Lemma binary32_eq (x y : spec_float) :
  binary32 x = true -> binary32 y = true ->
  SFeqb x y = true <-> B2R x = B2R y.
Proof.
  intros Hx Hy.
  destruct (SFcompare_spec B32.prec B32.emax x y Hx Hy) as (c & Hc & Hv).
  unfold SFeqb. rewrite Hc.
  destruct c; split; intros; try reflexivity; try discriminate; Lra.lra.
Qed.

(** Integers of less than 24 bits are binary32 numbers. *)
Lemma binary32_of_int_exact (z : Z) :
  - 16777215 <= z <= 16777215 ->
  binary32 (of_int z) = true /\ B2R (of_int z) = IZR z.
Proof.
  intros Hz.
  assert (Hfin : binary32 (of_int z) = true) by (apply binary32_of_int; lia).
  split; [exact Hfin |].
  change (of_int z) with (binary_normalize B32.prec B32.emax z 0 false).
  rewrite (binary_normalize_exact B32.prec B32.emax b32_prec b32_emax).
  - rewrite bpow_0. ring.
  - assert (Hd : Zdigits2 z <= 24).
    { destruct z as [| p | p]; [cbn; lia | |].
      - apply (Zdigits2_le (Zpos p) 24); lia.
      - change (Zdigits2 (Zneg p)) with (Zdigits2 (Zpos p)).
        apply (Zdigits2_le (Zpos p) 24); lia. }
    unfold SpecFloat.fexp, SpecFloat.emin, B32.prec, B32.emax. lia.
  - unfold binary32, finite_valid in Hfin. apply andb_prop in Hfin. apply Hfin.
Qed.

(** Two binary32 numbers of the same value, other than zero, are the same
    float. *)
Lemma binary32_inj (x y : spec_float) :
  binary32 x = true -> binary32 y = true ->
  B2R x = B2R y -> B2R x <> 0%R -> x = y.
Proof.
  intros Hx Hy Heq Hnz.
  destruct (SFcompare_spec B32.prec B32.emax x y Hx Hy) as (c & Hc & Hv).
  assert (c = Eq) as -> by (destruct c; [reflexivity | Lra.lra | Lra.lra]).
  destruct x as [sx | sx | | sx mx ex]; try discriminate Hx;
    [cbn in Hnz; Lra.lra |].
  destruct y as [sy | sy | | sy my ey]; try discriminate Hy;
    [cbn in Heq, Hnz; Lra.lra |].
  cbn [SFcompare] in Hc.
  destruct sx, sy; try discriminate Hc;
    destruct (Z.compare_spec ex ey) as [-> | |]; try discriminate Hc;
    change (Pos.compare_cont Eq mx my) with (Pos.compare mx my) in Hc;
    destruct (Pos.compare_spec mx my) as [-> | |]; try discriminate Hc;
    reflexivity.
Qed.

End Binary32.

(** ** Exact arithmetic *)

Section QFacts.
Local Open Scope Q_scope.

Lemma Qlt_bool_iff (a b : Q) : Qlt_bool a b = true <-> a < b.
Proof.
  unfold Qlt_bool. rewrite Qlt_alt. destruct (a ?= b); intuition congruence.
Qed.

Lemma Qlt_bool_false (a b : Q) : Qlt_bool a b = false <-> b <= a.
Proof.
  rewrite <- not_true_iff_false, Qlt_bool_iff. split.
  - apply Qnot_lt_le.
  - intros Hle Hlt. exact (Qlt_not_le _ _ Hlt Hle).
Qed.

Lemma Qle_bool_false (a b : Q) : Qle_bool a b = false <-> b < a.
Proof.
  rewrite <- not_true_iff_false, Qle_bool_iff. split.
  - apply Qnot_le_lt.
  - intros Hlt Hle. exact (Qlt_not_le _ _ Hlt Hle).
Qed.

(** Truncation is the floor, or one above it. *)
Lemma Qtrunc_floor (a : Q) :
  Qtrunc a = Qfloor a \/ Qtrunc a = (Qfloor a + 1)%Z.
Proof.
  destruct a as [n d]. unfold Qtrunc, Qfloor. simpl.
  Z.to_euclidean_division_equations. nia.
Qed.

Lemma frac_range (a : Q) : 0 <= frac a < 1.
Proof.
  unfold frac. pose proof (Qfloor_le a). pose proof (Qlt_floor a).
  rewrite inject_Z_plus in *. change (inject_Z 1) with 1 in *. lra.
Qed.

(** [fmod(a, 1)] followed by the correction of line 170 is [frac]. *)
Lemma Qfmod1_corrected (a : Q) :
  (if Qlt_bool (Qfmod1 a) 0 then Qfmod1 a + 1 else Qfmod1 a) == frac a.
Proof.
  unfold Qfmod1, frac.
  pose proof (Qfloor_le a) as Hlo. pose proof (Qlt_floor a) as Hhi.
  rewrite inject_Z_plus in Hhi. change (inject_Z 1) with 1 in Hhi.
  destruct (Qtrunc_floor a) as [-> | ->].
  - destruct (Qlt_bool _ _) eqn:E; [| reflexivity].
    apply Qlt_bool_iff in E. lra.
  - rewrite inject_Z_plus. change (inject_Z 1) with 1.
    destruct (Qlt_bool _ _) eqn:E.
    + lra.
    + apply Qlt_bool_false in E. lra.
Qed.

End QFacts.

(** ** The waveform generator *)

Section GeneratorExact.
Local Open Scope Q_scope.
Implicit Types d : SawtoothData Q.

(** In exact arithmetic the adjusted phase is the fractional part of the
    sum, for every phase and offset, negative ones included. *)
Lemma adjustedPhase_frac d : adjustedPhase d == frac (phase d + phaseOffset d).
Proof. unfold adjustedPhase. simpl. apply Qfmod1_corrected. Qed.

Lemma adjustedPhase_range d : 0 <= adjustedPhase d < 1.
Proof. rewrite adjustedPhase_frac. apply frac_range. Qed.

Lemma sample_of_exact d :
  sample_of d == (2 * frac (phase d + phaseOffset d) - 1) * amplitude d.
Proof. unfold sample_of. simpl. rewrite adjustedPhase_frac. reflexivity. Qed.

End GeneratorExact.

Section Generator.
Implicit Types d : SawtoothData spec_float.

(** The adjusted phase, for an offset between -1 and 1: the sum is a number
    between -1 and 2, its remainder lies strictly between -1 and 1 with the
    sign of the sum, and adding 1 to a negative remainder gives a number of
    [[0, 1]]. *)
Lemma binary32_adjustedPhase (d : SawtoothData spec_float) :
  binary32 (phase d) = true -> binary32 (phaseOffset d) = true ->
  in_unit_interval (phase d) = true ->
  (of_int (-1) [<=] phaseOffset d) = true ->
  (phaseOffset d [<=] of_int 1) = true ->
  let s := phase d [+] phaseOffset d in
  binary32 s = true
  /\ binary32 (adjustedPhase d) = true
  /\ (0 <= B2R (adjustedPhase d) <= 1)%R
  /\ ((0 <= B2R (phaseOffset d))%R ->
      (fmod1 s [<] of_int 0) = false /\ (B2R (adjustedPhase d) < 1)%R).
Proof.
  intros Hp Ho Hunit Ho1 Ho2 s.
  apply (in_unit_interval_spec _ Hp) in Hunit.
  change (of_int (F := spec_float) (-1)) with (S754_finite true 8388608 (-23)) in *.
  change (of_int (F := spec_float) 1) with (S754_finite false 8388608 (-23)) in *.
  apply (proj1 (binary32_le (S754_finite true 8388608 (-23)) _ eq_refl Ho)) in Ho1.
  apply (proj1 (binary32_le _ (S754_finite false 8388608 (-23)) Ho eq_refl)) in Ho2.
  b32_value.
  destruct (binary32_add (phase d) (phaseOffset d)
              (S754_finite true 8388608 (-23)) (S754_finite false 8388608 (-22))
              Hp Ho eq_refl eq_refl) as [Hs Hsb].
  { b32_value. Lra.lra. }
  fold s in Hs, Hsb.
  destruct (fmod1_spec s Hs) as [Hm Hmv].
  destruct (ftrunc_spec s Hs) as [Hpos Hneg].
  assert (Hmr : (-1 < B2R (fmod1 s) < 1)%R).
  { destruct (Rle_dec 0 (B2R s)) as [H0 | H0].
    - destruct (Hpos H0) as [? _]. Lra.lra.
    - destruct (Hneg ltac:(Lra.lra)) as [? _]. Lra.lra. }
  unfold adjustedPhase. fold s.
  change (of_int (F := spec_float) 0) with (S754_zero false).
  change (of_int (F := spec_float) 1) with (S754_finite false 8388608 (-23)).
  split; [exact Hs |].
  destruct (fmod1 s [<] S754_zero false) eqn:E.
  - apply (proj1 (binary32_lt _ (S754_zero false) Hm eq_refl)) in E.
    destruct (binary32_add (fmod1 s) (S754_finite false 8388608 (-23))
                (S754_zero false) (S754_finite false 8388608 (-23))
                Hm eq_refl eq_refl eq_refl) as [Ha Hab].
    { b32_value. Lra.lra. }
    split; [exact Ha |]. split; [b32_value; Lra.lra |].
    intros Ho0. exfalso.
    destruct (binary32_add (phase d) (phaseOffset d)
              (S754_zero false) (S754_finite false 8388608 (-22))
              Hp Ho eq_refl eq_refl) as [_ Hsb'].
    { b32_value. Lra.lra. }
    fold s in Hsb'. b32_value.
    destruct (Hpos ltac:(Lra.lra)) as [? _]. Lra.lra.
  - apply (proj2 (binary32_lt _ (S754_zero false) Hm eq_refl)) in E.
    split; [exact Hm |]. b32_value. split; [Lra.lra |].
    intros _. split; [reflexivity | Lra.lra].
Qed.

(** The sample, for an adjusted phase of [[0, 1]]: [2 * A] is in [[0, 2]],
    [2 * A - 1] in [[-1, 1]], and the product with the amplitude at most the
    amplitude in magnitude; no rounding leaves these ranges. *)
Lemma binary32_sample_range (A a : spec_float) :
  binary32 A = true -> binary32 a = true ->
  (0 <= B2R A <= 1)%R ->
  let v := (of_int 2 [*] A [-] of_int 1) [*] a in
  binary32 v = true
  /\ (B2R (SFopp (SFabs a)) <= B2R v <= B2R (SFabs a))%R.
Proof.
  intros HA Ha HAb v. unfold v.
  change (of_int (F := spec_float) 2) with (S754_finite false 8388608 (-22)).
  change (of_int (F := spec_float) 1) with (S754_finite false 8388608 (-23)).
  destruct (binary32_mul (S754_finite false 8388608 (-22)) A
              (S754_zero false) (S754_finite false 8388608 (-22))
              eq_refl HA eq_refl eq_refl) as [H1 H1b].
  { b32_value. Lra.lra. }
  set (t1 := S754_finite false 8388608 (-22) [*] A) in *.
  destruct (binary32_sub t1 (S754_finite false 8388608 (-23))
              (S754_finite true 8388608 (-23)) (S754_finite false 8388608 (-23))
              H1 eq_refl eq_refl eq_refl) as [H2 H2b].
  { b32_value. Lra.lra. }
  set (t2 := t1 [-] S754_finite false 8388608 (-23)) in *.
  apply binary32_mul; try assumption.
  - rewrite binary32_SFopp, binary32_SFabs. exact Ha.
  - rewrite binary32_SFabs. exact Ha.
  - rewrite B2R_SFopp, B2R_SFabs. b32_value.
    destruct (Rle_dec 0 (B2R a)) as [H0 | H0].
    + rewrite Rabs_right by Lra.lra. Lra.nra.
    + rewrite Rabs_left by Lra.lra. Lra.nra.
Qed.

(** C1.  For binary32 numbers: with a phase [p] in [0,1), an offset [o] in
    [[-1, 1]] and an amplitude [a], the generator rounds the sum [s = p + o],
    takes the remainder [m = fmod(s, 1)], which is exactly [s] minus [s]
    truncated, and adds 1 to it when it is negative; the adjusted phase [A]
    it obtains lies in [[0, 1]]; for an offset in [0,1) the remainder is not
    negative, [A = m] and [A] lies in [0,1).  The sample is
    [(2 * A - 1) * a] with each operation rounded; it is a number of
    magnitude at most that of [a], so that it lies in [[-a, a]] for
    [a >= 0].  In exact arithmetic [A] is [frac (p + o)] and the sample is
    [(2 * frac (p + o) - 1) * a]; in binary32 they are not when the sum is
    rounded to an integer ([rounded_sum_loses_the_fraction]), and [A] can be
    1 for a negative offset ([binary32_negative_offset_rounds_to_one]). *)
Theorem sawtooth_sample_value :
  (forall d,
     binary32 (phase d) = true -> binary32 (phaseOffset d) = true ->
     binary32 (amplitude d) = true ->
     in_unit_interval (phase d) = true ->
     (of_int (-1) [<=] phaseOffset d) = true ->
     (phaseOffset d [<=] of_int 1) = true ->
     let s := phase d [+] phaseOffset d in
     let m := fmod1 s in
     binary32 s = true
     /\ binary32 m = true
     /\ B2R m = (B2R s - IZR (ftrunc s))%R
     /\ adjustedPhase d = (if m [<] of_int 0 then m [+] of_int 1 else m)
     /\ binary32 (adjustedPhase d) = true
     /\ (of_int 0 [<=] adjustedPhase d) = true
     /\ (adjustedPhase d [<=] of_int 1) = true
     /\ (in_unit_interval (phaseOffset d) = true ->
         (m [<] of_int 0) = false
         /\ adjustedPhase d = m
         /\ in_unit_interval (adjustedPhase d) = true)
     /\ sample_of d = (of_int 2 [*] adjustedPhase d [-] of_int 1) [*] amplitude d
     /\ binary32 (sample_of d) = true
     /\ (SFopp (SFabs (amplitude d)) [<=] sample_of d) = true
     /\ (sample_of d [<=] SFabs (amplitude d)) = true
     /\ ((of_int 0 [<=] amplitude d) = true ->
         (SFopp (amplitude d) [<=] sample_of d) = true
         /\ (sample_of d [<=] amplitude d) = true))
  /\ (forall d : SawtoothData Q,
        (adjustedPhase d == frac (phase d + phaseOffset d))%Q
        /\ (sample_of d == (2 * frac (phase d + phaseOffset d) - 1) * amplitude d)%Q).
Proof.
  split.
  - intros d Hp Ho Ha Hu Ho1 Ho2 s m.
    destruct (binary32_adjustedPhase d Hp Ho Hu Ho1 Ho2) as (Hs & HA & HAb & Hnn).
    fold s in Hs, Hnn.
    destruct (fmod1_spec s Hs) as [Hm Hmv]. fold m in Hm, Hmv, Hnn.
    destruct (binary32_sample_range (adjustedPhase d) (amplitude d) HA Ha HAb)
      as [Hv Hvb].
    change ((of_int 2 [*] adjustedPhase d [-] of_int 1) [*] amplitude d)
      with (sample_of d) in Hv, Hvb.
    assert (Habs : binary32 (SFabs (amplitude d)) = true)
      by (rewrite binary32_SFabs; exact Ha).
    assert (Hnabs : binary32 (SFopp (SFabs (amplitude d))) = true)
      by (rewrite binary32_SFopp; exact Habs).
    split; [exact Hs |]. split; [exact Hm |]. split; [exact Hmv |].
    split; [reflexivity |]. split; [exact HA |].
    change (of_int (F := spec_float) 0) with (S754_zero false) in *.
    change (of_int (F := spec_float) 1) with (S754_finite false 8388608 (-23)) in *.
    split; [apply (binary32_le (S754_zero false) _ eq_refl HA); b32_value; Lra.lra |].
    split; [apply (binary32_le _ (S754_finite false 8388608 (-23)) HA eq_refl);
            b32_value; Lra.lra |].
    split.
    { intros Hou.
      change (S754_zero false) with (of_int (F := spec_float) 0) in Hou.
      change (S754_finite false 8388608 (-23)) with (of_int (F := spec_float) 1) in Hou.
      apply (in_unit_interval_spec _ Ho) in Hou.
      destruct (Hnn ltac:(Lra.lra)) as [Hlt HA1].
      split; [exact Hlt |].
      assert (HAm : adjustedPhase d = m).
      { unfold adjustedPhase. fold s. fold m.
        change (of_int (F := spec_float) 0) with (S754_zero false).
        rewrite Hlt. reflexivity. }
      split; [exact HAm |].
      apply (in_unit_interval_spec _ HA). Lra.lra. }
    split; [reflexivity |]. split; [exact Hv |].
    split; [apply (binary32_le _ _ Hnabs Hv); apply Hvb |].
    split; [apply (binary32_le _ _ Hv Habs); apply Hvb |].
    intros Ha0.
    apply (proj1 (binary32_le (S754_zero false) _ eq_refl Ha)) in Ha0.
    rewrite B2R_SFopp, B2R_SFabs in Hvb. b32_value.
    rewrite Rabs_right in Hvb by Lra.lra.
    split.
    + apply (binary32_le _ _ ltac:(rewrite binary32_SFopp; exact Ha) Hv).
      rewrite B2R_SFopp. Lra.lra.
    + apply (binary32_le _ _ Hv Ha). Lra.lra.
  - intros d. split; [apply adjustedPhase_frac | apply sample_of_exact].
Qed.

(** At [p = 0.5f] and [o = 0.49999997f], both in [0,1), the sum rounds to
    1: the adjusted phase is 0 and the sample is [-a = -1], where
    [(2 * frac (p + o) - 1) * a] is [1 - 2^-24]. *)
Lemma rounded_sum_loses_the_fraction :
  binary32 (phase half_and_almost_half) = true
  /\ binary32 (phaseOffset half_and_almost_half) = true
  /\ in_unit_interval (phase half_and_almost_half) = true
  /\ in_unit_interval (phaseOffset half_and_almost_half) = true
  /\ phase half_and_almost_half [+] phaseOffset half_and_almost_half = of_int 1
  /\ adjustedPhase half_and_almost_half = of_int 0
  /\ sample_of half_and_almost_half = SFopp (amplitude half_and_almost_half)
  /\ (B2Q (sample_of half_and_almost_half) == -1)%Q
  /\ ((2 * frac (B2Q (phase half_and_almost_half)
                 + B2Q (phaseOffset half_and_almost_half)) - 1)
      * B2Q (amplitude half_and_almost_half) == 16777215 # 16777216)%Q.
Proof. vm_compute. repeat split; reflexivity. Qed.

End Generator.

(** ** Phase advance *)

Section PhaseAdvance.
Implicit Types d : SawtoothData spec_float.

(** What a frame does to the fields of the oscillator. *)
Lemma frame_advance {F : Type} `{FloatArith F} (d : SawtoothData F) (i : Z) :
  phase (frame d i).1 = phase (advance_phase d)
  /\ frequency (frame d i).1 = frequency d
  /\ phaseOffset (frame d i).1 = phaseOffset d
  /\ amplitude (frame d i).1 = amplitude d.
Proof. unfold frame. destruct (Z.rem i 4 =? 0); repeat split; reflexivity. Qed.

(** One step.  A frequency below 44100 is at most [44100 - 2^-8], so the
    increment rounds to at most [1 - 2^-24]; a phase below 1 is at most
    [1 - 2^-24], so the sum rounds to at most [2 - 2^-23]; and when the sum
    is at least 1, one subtraction leaves at most [1 - 2^-23]. *)
Lemma binary32_advance_phase (d : SawtoothData spec_float) :
  binary32 (phase d) = true -> binary32 (frequency d) = true ->
  in_unit_interval (phase d) = true ->
  (of_int 0 [<] frequency d) = true ->
  (frequency d [<] of_int SAMPLE_RATE) = true ->
  binary32 (phase (advance_phase d)) = true
  /\ in_unit_interval (phase (advance_phase d)) = true.
Proof.
  intros Hp Hf Hunit Hf0 Hf1.
  apply (in_unit_interval_spec _ Hp) in Hunit.
  change (of_int (F := spec_float) SAMPLE_RATE)
    with (S754_finite false 11289600 (-8)) in *.
  change (of_int (F := spec_float) 0) with (S754_zero false) in *.
  apply (binary32_lt (S754_zero false) _ eq_refl Hf) in Hf0.
  apply (binary32_lt _ (S754_finite false 11289600 (-8)) Hf eq_refl) in Hf1.
  assert (Hp1 : (B2R (phase d) <= (16777216 - 1) * bpow (-24))%R).
  { apply binary32_below; [exact Hp | lia |]. bpow_literals. Lra.lra. }
  assert (Hf2 : (B2R (frequency d) <= (11289600 - 1) * bpow (-8))%R).
  { apply binary32_below; [exact Hf | lia | exact Hf1]. }
  unfold advance_phase, phase_increment. cbn [phase set_phase].
  change (of_int (F := spec_float) SAMPLE_RATE)
    with (S754_finite false 11289600 (-8)).
  destruct (binary32_div (frequency d) false 11289600 (-8)
              (S754_zero false) (S754_finite false 16777215 (-24)) Hf eq_refl eq_refl)
    as [Hi Hib].
  { b32_value. Lra.lra. }
  set (inc := frequency d [/] S754_finite false 11289600 (-8)) in *.
  destruct (binary32_add (phase d) inc
              (S754_zero false) (S754_finite false 16777215 (-23)) Hp Hi eq_refl eq_refl)
    as [Hs Hsb].
  { b32_value. Lra.lra. }
  set (s := phase d [+] inc) in *.
  change (of_int (F := spec_float) 1) with (S754_finite false 8388608 (-23)) in *.
  destruct (S754_finite false 8388608 (-23) [<=] s) eqn:E.
  - apply (proj1 (binary32_le (S754_finite false 8388608 (-23)) s eq_refl Hs)) in E.
    destruct (binary32_sub s (S754_finite false 8388608 (-23))
                (S754_zero false) (S754_finite false 16777214 (-24)) Hs eq_refl eq_refl eq_refl)
      as [Hr Hrb].
    { b32_value. Lra.lra. }
    split; [exact Hr |]. apply (in_unit_interval_spec _ Hr). b32_value. Lra.lra.
  - apply (proj2 (binary32_le (S754_finite false 8388608 (-23)) s eq_refl Hs)) in E.
    split; [exact Hs |].
    apply (in_unit_interval_spec _ Hs). b32_value. Lra.lra.
Qed.

Lemma frame_oscillator_ok d (i : Z) : oscillator_ok d -> oscillator_ok (frame d i).1.
Proof.
  intros (Hp & Hf & Hu & Hf0 & Hf1).
  destruct (frame_advance d i) as (Hph & Hfr & _).
  destruct (binary32_advance_phase d Hp Hf Hu Hf0 Hf1) as [Hp' Hu'].
  unfold oscillator_ok. rewrite Hph, Hfr. repeat split; assumption.
Qed.

Lemma frames_oscillator_ok (n : nat) : forall (i : Z) d,
  oscillator_ok d -> oscillator_ok (frames n i d).1.
Proof.
  induction n as [| n IH]; intros i d Hok; [exact Hok |].
  cbn [frames]. pose proof (frame_oscillator_ok d i Hok) as H1.
  destruct (frame d i) as [d1 e1]. specialize (IH (i + 1) d1 H1).
  destruct (frames n (i + 1) d1) as [d2 e2]. exact IH.
Qed.

(** C2.  For binary32 numbers: with a frequency above 0 and below the
    sample rate, one phase-advance step (add [frequency / 44100], then
    subtract 1 once when the sum is at least 1) takes a phase of [0,1) to a
    phase of [0,1), and so does any number of frames of the callback. *)
Theorem phase_stays_in_unit_interval d :
  binary32 (phase d) = true -> binary32 (frequency d) = true ->
  (of_int 0 [<] frequency d) = true ->
  (frequency d [<] of_int SAMPLE_RATE) = true ->
  in_unit_interval (phase d) = true ->
  (let p := phase d [+] frequency d [/] of_int SAMPLE_RATE in
   phase (advance_phase d) = if p [>=] of_int 1 then p [-] of_int 1 else p)
  /\ in_unit_interval (phase (advance_phase d)) = true
  /\ (forall (n : nat) (i : Z), in_unit_interval (phase (frames n i d).1) = true)
  /\ (forall framesPerBuffer : Z,
        in_unit_interval (phase (sawtoothCallback d framesPerBuffer).1) = true).
Proof.
  intros Hp Hf Hf0 Hf1 Hu.
  assert (Hok : oscillator_ok d) by (repeat split; assumption).
  split; [reflexivity |].
  split; [apply (binary32_advance_phase d Hp Hf Hu Hf0 Hf1) |].
  split.
  - intros n i. apply (frames_oscillator_ok n i d Hok).
  - intros N. unfold sawtoothCallback.
    pose proof (frames_oscillator_ok (Z.to_nat N) 0 d Hok) as Hr.
    destruct (frames (Z.to_nat N) 0 d) as [d' e]. apply Hr.
Qed.

End PhaseAdvance.

(** ** Knob drag *)

Section KnobDrag.
Local Open Scope Q_scope.
Implicit Types k : Knob.Knob Q.

Lemma clamp_cases k (v : Q) :
  Knob.minValue k <= Knob.maxValue k ->
  Knob.minValue k <= Knob.clamp k v <= Knob.maxValue k
  /\ (Knob.minValue k <= v <= Knob.maxValue k -> Knob.clamp k v == v)
  /\ (v < Knob.minValue k -> Knob.clamp k v == Knob.minValue k)
  /\ (Knob.maxValue k < v -> Knob.clamp k v == Knob.maxValue k).
Proof.
  intros Hmm. unfold Knob.clamp, fmax, fmin. simpl.
  destruct (Qlt_bool v (Knob.maxValue k)) eqn:E1;
    [apply Qlt_bool_iff in E1 | apply Qlt_bool_false in E1];
    match goal with
    | |- context [Qlt_bool ?a ?b] =>
        destruct (Qlt_bool a b) eqn:E2;
        [apply Qlt_bool_iff in E2 | apply Qlt_bool_false in E2]
    end;
    repeat split; intros; try reflexivity; lra.
Qed.


End KnobDrag.


(** ** The ring buffer *)

Section RingBuffer.
Context {F : Type} `{FloatArith F}.
Implicit Types (d : SawtoothData F) (l : list F).

Lemma rem_WAVE_SAMPLES (a : Z) : 0 <= a -> Z.rem a WAVE_SAMPLES = a mod WAVE_SAMPLES.
Proof. intros Ha. apply Z.rem_mod_nonneg; [exact Ha | reflexivity]. Qed.

Lemma vec_get_lookup (v : list F) (i : Z) (a : F) :
  0 <= i -> v !! Z.to_nat i = Some a -> vec_get v i = a.
Proof.
  intros Hi Hl. unfold vec_get.
  destruct (i <? 0) eqn:E; [apply Z.ltb_lt in E; lia |].
  rewrite Hl. reflexivity.
Qed.

Lemma ring_write_ok d (a : F) : buffer_ok d -> buffer_ok (ring_write d a).
Proof.
  intros [Hlen Hc]. unfold buffer_ok, cursor_ok in *. simpl. split.
  - unfold vec_set. destruct (bufferIndex d <? 0); [exact Hlen |].
    rewrite length_insert. exact Hlen.
  - rewrite rem_WAVE_SAMPLES by lia. apply Z.mod_pos_bound. reflexivity.
Qed.

Lemma write_all_snoc l (a : F) d :
  write_all (l ++ [a]) d = ring_write (write_all l d) a.
Proof. unfold write_all. rewrite fold_left_app. reflexivity. Qed.

(** After writing [l] (at most one full turn), the cursor has moved by the
    length of [l] and the slots it passed hold [l] in order. *)
Lemma write_all_spec l : forall d,
  buffer_ok d ->
  Z.of_nat (length l) <= WAVE_SAMPLES ->
  buffer_ok (write_all l d)
  /\ bufferIndex (write_all l d)
     = (bufferIndex d + Z.of_nat (length l)) mod WAVE_SAMPLES
  /\ forall j : nat, (j < length l)%nat ->
       waveBuffer (write_all l d)
         !! Z.to_nat ((bufferIndex d + Z.of_nat j) mod WAVE_SAMPLES)
       = l !! j.
Proof.
  induction l as [| a l IH] using rev_ind; intros d Hok Hlen.
  - simpl. split; [exact Hok |]. split; [| intros j Hj; simpl in Hj; lia].
    destruct Hok as [_ Hc]. unfold cursor_ok in Hc.
    rewrite Z.add_0_r, Z.mod_small; [reflexivity | exact Hc].
  - rewrite length_app in Hlen. simpl in Hlen.
    destruct (IH d Hok ltac:(lia)) as (Hok1 & Hc1 & Hs1).
    rewrite write_all_snoc. set (d1 := write_all l d) in *.
    pose proof Hok as [_ Hc]. pose proof Hok1 as [Hlen1 Hcur1].
    unfold cursor_ok in Hc, Hcur1.
    split; [apply ring_write_ok; exact Hok1 |]. split.
    + simpl. rewrite rem_WAVE_SAMPLES by lia. rewrite Hc1, length_app. simpl.
      rewrite Zplus_mod_idemp_l. f_equal. lia.
    + intros j Hj. rewrite length_app in Hj. simpl in Hj.
      simpl. unfold vec_set.
      destruct (bufferIndex d1 <? 0) eqn:E; [apply Z.ltb_lt in E; lia |].
      destruct (decide (j = length l)) as [-> | Hne].
      * rewrite <- Hc1, list_lookup_insert_eq by lia.
        rewrite lookup_app_r, Nat.sub_diag by lia. reflexivity.
      * rewrite list_lookup_insert_ne.
        { rewrite Hs1 by lia. rewrite lookup_app_l by lia. reflexivity. }
        rewrite Hc1. intros Heq. apply Z2Nat.inj in Heq;
          try (apply Z.mod_pos_bound; reflexivity).
        unfold WAVE_SAMPLES in *.
        Z.to_euclidean_division_equations. lia.
Qed.

(** What the reader finds at distance [j] from the cursor after a full
    turn of writes. *)
Lemma full_turn_read l d (j : Z) :
  buffer_ok d ->
  Z.of_nat (length l) = WAVE_SAMPLES ->
  0 <= j < WAVE_SAMPLES ->
  vec_get (waveBuffer (write_all l d))
          (Z.rem (bufferIndex (write_all l d) + j) WAVE_SAMPLES)
  = vec_get l j.
Proof.
  intros Hok Hlen Hj.
  destruct (write_all_spec l d Hok ltac:(lia)) as (Hok' & Hc' & Hs').
  pose proof Hok as [_ Hc]. unfold cursor_ok in Hc.
  assert (Hcur : bufferIndex (write_all l d) = bufferIndex d).
  { rewrite Hc', Hlen, Z.add_mod, Z.mod_same, Z.add_0_r, Z.mod_mod by easy.
    apply Z.mod_small. exact Hc. }
  rewrite Hcur, rem_WAVE_SAMPLES by lia.
  specialize (Hs' (Z.to_nat j) ltac:(lia)). rewrite Z2Nat.id in Hs' by lia.
  destruct (l !! Z.to_nat j) as [a |] eqn:El.
  - rewrite (vec_get_lookup l j a) by (lia || assumption).
    apply vec_get_lookup; [| exact Hs'].
    apply Z.mod_pos_bound. reflexivity.
  - apply lookup_ge_None in El. lia.
Qed.

Lemma snapshot_full_turn l d :
  buffer_ok d ->
  Z.of_nat (length l) = WAVE_SAMPLES ->
  snapshot (write_all l d) = l.
Proof.
  intros Hok Hlen. apply list_eq. intros i. unfold snapshot.
  rewrite list_lookup_fmap.
  destruct (decide (Z.of_nat i < WAVE_SAMPLES)) as [Hi | Hi].
  - rewrite lookup_seqZ_lt by exact Hi. simpl.
    rewrite full_turn_read by (assumption || lia).
    destruct (l !! i) as [a |] eqn:El.
    + f_equal. apply vec_get_lookup; [lia |].
      rewrite Z.add_0_l, Nat2Z.id. exact El.
    + apply lookup_ge_None in El. lia.
  - rewrite lookup_seqZ_ge by lia. simpl. symmetry.
    apply lookup_ge_None. lia.
Qed.

Lemma drawWaveform_full_turn l d :
  buffer_ok d ->
  Z.of_nat (length l) = WAVE_SAMPLES ->
  drawWaveform (write_all l d) = polyline l.
Proof.
  intros Hok Hlen. unfold drawWaveform, polyline.
  apply Forall_fmap_ext, Forall_seqZ. intros i Hi. unfold segment.
  rewrite <- Z.add_assoc.
  rewrite !full_turn_read by (assumption || unfold WAVE_SAMPLES in *; lia).
  reflexivity.
Qed.

(** C5.  After exactly 800 samples have been written, the reader, which
    starts at the write cursor and wraps modulo 800, meets the 800 written
    samples, each once, from the oldest to the newest; the polyline drawn is
    the polyline through them in that order. *)
Theorem snapshot_after_capacity_writes l d :
  buffer_ok d ->
  Z.of_nat (length l) = WAVE_SAMPLES ->
  snapshot (write_all l d) = l
  /\ bufferIndex (write_all l d) = bufferIndex d
  /\ drawWaveform (write_all l d) = polyline l.
Proof.
  intros Hok Hlen.
  split; [apply snapshot_full_turn; assumption |].
  split; [| apply drawWaveform_full_turn; assumption].
  destruct (write_all_spec l d Hok ltac:(lia)) as (_ & Hc' & _).
  destruct Hok as [_ Hc]. unfold cursor_ok in Hc.
  rewrite Hc', Hlen, Z.add_mod, Z.mod_same, Z.add_0_r, Z.mod_mod by easy.
  apply Z.mod_small. exact Hc.
Qed.

End RingBuffer.

(** ** The callback and the ring buffer *)

Section CallbackWrites.
Context {F : Type} `{FloatArith F}.
Implicit Types d : SawtoothData F.

Lemma advance_phase_buffer d :
  waveBuffer (advance_phase d) = waveBuffer d
  /\ bufferIndex (advance_phase d) = bufferIndex d.
Proof. split; reflexivity. Qed.

Lemma frame_ok d (i : Z) : buffer_ok d -> buffer_ok (frame d i).1.
Proof.
  intros Hok. unfold frame. destruct (Z.rem i 4 =? 0); simpl.
  - apply (ring_write_ok d (sample_of d)) in Hok. exact Hok.
  - exact Hok.
Qed.

Lemma frames_ok n : forall (i : Z) d, buffer_ok d -> buffer_ok (frames n i d).1.
Proof.
  induction n as [| n IH]; intros i d Hok; simpl; [exact Hok |].
  pose proof (frame_ok d i Hok) as H1.
  destruct (frame d i) as [d1 e1]. specialize (IH (i + 1) d1 H1).
  destruct (frames n (i + 1) d1) as [d2 e2]. exact IH.
Qed.

Lemma sawtoothCallback_ok d (framesPerBuffer : Z) :
  buffer_ok d -> buffer_ok (sawtoothCallback d framesPerBuffer).1.
Proof.
  intros Hok. unfold sawtoothCallback.
  pose proof (frames_ok (Z.to_nat framesPerBuffer) 0 d Hok) as H1.
  destruct (frames (Z.to_nat framesPerBuffer) 0 d) as [d' e]. exact H1.
Qed.

(** The loop can be cut at any frame. *)
Lemma frames_add n m : forall (i : Z) d,
  frames (n + m) i d =
    let '(d1, e1) := frames n i d in
    let '(d2, e2) := frames m (i + Z.of_nat n) d1 in
    (d2, e1 ++ e2).
Proof.
  induction n as [| n IH]; intros i d.
  - simpl. rewrite Z.add_0_r. destruct (frames m i d). reflexivity.
  - cbn [frames Nat.add]. destruct (frame d i) as [d1 e1]. rewrite IH.
    destruct (frames n (i + 1) d1) as [d2 e2].
    replace (i + Z.of_nat (S n)) with (i + 1 + Z.of_nat n) by lia.
    destruct (frames m (i + 1 + Z.of_nat n) d2) as [d3 e3].
    rewrite app_assoc. reflexivity.
Qed.

Lemma SawtoothData_init_ok : buffer_ok (SawtoothData_init (F := F)).
Proof.
  split; [apply length_replicate |]. unfold cursor_ok. simpl.
  unfold WAVE_SAMPLES. lia.
Qed.

Lemma run_operation_ok d (o : operation F) :
  buffer_ok d -> buffer_ok (run_operation d o).
Proof.
  intros Hok. destruct o as [n | | f po a]; simpl.
  - apply sawtoothCallback_ok. exact Hok.
  - exact Hok.
  - exact Hok.
Qed.

Lemma run_operations_ok (os : list (operation F)) : buffer_ok (run_operations os).
Proof.
  unfold run_operations.
  induction os as [| o os IH] using rev_ind; simpl.
  - apply SawtoothData_init_ok.
  - rewrite fold_left_app. simpl. apply run_operation_ok. exact IH.
Qed.

End CallbackWrites.

(** C6.  In a callback block of [N] frames, frame [i] starts in the state
    the first [i] frames leave and the rest of the block continues from the
    state it leaves.  When [i mod 4 = 0] the frame stores its sample at the
    cursor and moves the cursor to [(cursor + 1) mod 800]; otherwise it
    leaves the buffer and the cursor as they are and performs no buffer
    store. *)
Theorem every_fourth_frame_writes {F : Type} `{FloatArith F}
    (d : SawtoothData F) (N i : Z) :
  buffer_ok d ->
  0 <= i < N ->
  let before := (frames (Z.to_nat i) 0 d).1 in
  let after := (frame before i).1 in
  let sample := sample_of before in
  (frames (Z.to_nat (i + 1)) 0 d).1 = after
  /\ (sawtoothCallback d N).1 = (frames (Z.to_nat (N - (i + 1))) (i + 1) after).1
  /\ cursor_ok before
  /\ (i mod 4 = 0 ->
      waveBuffer after = <[Z.to_nat (bufferIndex before) := sample]> (waveBuffer before)
      /\ bufferIndex after = (bufferIndex before + 1) mod WAVE_SAMPLES
      /\ buffer_stores (frame before i).2 = [(bufferIndex before, sample)])
  /\ (i mod 4 <> 0 ->
      waveBuffer after = waveBuffer before
      /\ bufferIndex after = bufferIndex before
      /\ buffer_stores (frame before i).2 = []).
Proof.
  intros Hok Hi.
  assert (Hstep : frames (Z.to_nat (i + 1)) 0 d
                  = let '(d1, e1) := frames (Z.to_nat i) 0 d in
                    let '(d2, e2) := frame d1 i in (d2, e1 ++ e2)).
  { replace (Z.to_nat (i + 1)) with (Z.to_nat i + 1)%nat by lia.
    rewrite frames_add. destruct (frames (Z.to_nat i) 0 d) as [d1 e1].
    simpl. rewrite Z2Nat.id, Z.add_0_l by lia.
    destruct (frame d1 i) as [d2 e2]. rewrite app_nil_r. reflexivity. }
  intros before after sample.
  assert (Hafter : (frames (Z.to_nat (i + 1)) 0 d).1 = after).
  { rewrite Hstep. unfold after, before.
    destruct (frames (Z.to_nat i) 0 d) as [d1 e1]. simpl.
    destruct (frame d1 i) as [d2 e2]. reflexivity. }
  pose proof (frames_ok (Z.to_nat i) 0 d Hok) as Hokb. fold before in Hokb.
  pose proof Hokb as [Hlenb Hcb]. unfold cursor_ok in Hcb.
  split; [exact Hafter |]. split.
  { unfold sawtoothCallback.
    replace (Z.to_nat N) with (Z.to_nat (i + 1) + Z.to_nat (N - (i + 1)))%nat by lia.
    rewrite frames_add, <- Hafter.
    destruct (frames (Z.to_nat (i + 1)) 0 d) as [d1 e1]. simpl.
    rewrite Z2Nat.id, Z.add_0_l by lia.
    destruct (frames (Z.to_nat (N - (i + 1))) (i + 1) d1) as [d2 e2].
    reflexivity. }
  split; [exact Hcb |].
  assert (Hrem : Z.rem i 4 = i mod 4) by (apply Z.rem_mod_nonneg; lia).
  unfold after, frame. rewrite Hrem. split; intros Hmod.
  - rewrite Hmod. simpl. unfold vec_set.
    destruct (bufferIndex before <? 0) eqn:E; [apply Z.ltb_lt in E; lia |].
    rewrite rem_WAVE_SAMPLES by lia.
    split; [reflexivity |]. split; [reflexivity |].
    unfold advance_effects.
    destruct (phase_increment (ring_write before (sample_of before))
              [>=] of_int 1); reflexivity.
  - apply Z.eqb_neq in Hmod. rewrite Hmod. simpl.
    split; [reflexivity |]. split; [reflexivity |].
    unfold advance_effects.
    destruct (phase_increment before [>=] of_int 1); reflexivity.
Qed.

(** C7.  The write cursor is 0 when the oscillator data are built, and it
    is in [0, 800) after any sequence of callbacks, reads by [drawWaveform]
    and parameter stores, and after every frame inside a callback. *)
Theorem cursor_always_in_range {F : Type} `{FloatArith F} :
  bufferIndex (SawtoothData_init (F := F)) = 0
  /\ (forall os : list (operation F),
        0 <= bufferIndex (run_operations os) < WAVE_SAMPLES)
  /\ (forall (os : list (operation F)) (n : nat),
        0 <= bufferIndex (frames n 0 (run_operations os)).1 < WAVE_SAMPLES).
Proof.
  split; [reflexivity |]. split.
  - intros os. apply (run_operations_ok os).
  - intros os n. apply (frames_ok n 0 _ (run_operations_ok os)).
Qed.

(** ** Pointer ingestion *)

Section Ingestion.
Local Open Scope string_scope.

(** [sscanf] returns the number of values it assigned, or [EOF] when it
    assigned none. *)
Lemma run_result (fmt : list Scan.directive) : forall (s : string) (vals : list Z),
  (Scan.run fmt s vals).1 = Scan.count (Scan.run fmt s vals).2
  \/ ((Scan.run fmt s vals).1 = Scan.EOF /\ (Scan.run fmt s vals).2 = []).
Proof.
  induction fmt as [| dir fmt IH]; intros s vals; simpl.
  - left. reflexivity.
  - destruct dir as [| c].
    + destruct (Scan.scan_int s) as [v rest | |].
      * apply IH.
      * left. reflexivity.
      * destruct vals; [right; split; reflexivity | left; reflexivity].
    + destruct s as [| c' rest].
      * destruct vals; [right; split; reflexivity | left; reflexivity].
      * destruct (Ascii.eqb c c'); [apply IH | left; reflexivity].
Qed.

Lemma recv_length (datagram : string) :
  (recv datagram).1 = Z.of_nat (String.length (recv datagram).2).
Proof. reflexivity. Qed.

(** C4.  The datagram "100,200,1" sets the pointer signal to
    (100, 200, engaged) and "10,20" sets it to (10, 20, not engaged),
    whatever it was before; "garbage" leaves it as it was, and so does every
    datagram from which fewer than two integers are parsed.  A datagram from
    which [x] and [y] are parsed sets the signal to them, engaged exactly
    when a third integer was parsed and is 1. *)
Theorem pointer_ingestion :
  (forall p, udp_receive p "100,200,1"
             = {| handX := 100; handY := 200; handPinch := true |})
  /\ (forall p, udp_receive p "10,20"
                = {| handX := 10; handY := 20; handPinch := false |})
  /\ (forall p, udp_receive p "garbage" = p)
  /\ (forall p datagram,
        (length (Scan.sscanf_ddd (c_string (recv datagram).2)).2 < 2)%nat ->
        udp_receive p datagram = p)
  /\ (forall p datagram (x y : Z) (more : list Z),
        (Scan.sscanf_ddd (c_string (recv datagram).2)).2 = x :: y :: more ->
        udp_receive p datagram
        = {| handX := x; handY := y; handPinch := (nth 0 more 0 =? 1)%Z |}).
Proof.
  split; [reflexivity |]. split; [reflexivity |]. split; [reflexivity |].
  split.
  - intros p datagram Hfew. unfold udp_receive.
    destruct (recv datagram) as [len buf]. simpl in Hfew.
    destruct (0 <? len)%Z; [| reflexivity].
    pose proof (run_result Scan.format_ddd (c_string buf) []) as Hr.
    fold (Scan.sscanf_ddd (c_string buf)) in Hr.
    destruct (Scan.sscanf_ddd (c_string buf)) as [ret vals]. simpl in *.
    assert (Hret : (ret < 2)%Z).
    { destruct Hr as [-> | [-> _]]; unfold Scan.count, Scan.EOF; lia. }
    apply Z.leb_gt in Hret. rewrite Hret. reflexivity.
  - intros p datagram x y more Hvals. unfold udp_receive.
    pose proof (recv_length datagram) as Hlen.
    destruct (recv datagram) as [len buf]. simpl in Hvals, Hlen.
    assert (Hpos : (0 <? len)%Z = true).
    { destruct buf as [| c buf]; [vm_compute in Hvals; discriminate |].
      apply Z.ltb_lt. rewrite Hlen. simpl. lia. }
    rewrite Hpos.
    pose proof (run_result Scan.format_ddd (c_string buf) []) as Hr.
    fold (Scan.sscanf_ddd (c_string buf)) in Hr.
    destruct (Scan.sscanf_ddd (c_string buf)) as [ret vals]. simpl in *.
    subst vals.
    assert (Hret : (2 <=? ret)%Z = true).
    { destruct Hr as [-> | [_ Hnil]]; [| discriminate].
      apply Z.leb_le. unfold Scan.count. simpl. lia. }
    rewrite Hret. destruct more; reflexivity.
Qed.

End Ingestion.

(** ** The knob state machine *)

Section KnobMachine.
Context {F : Type} `{FloatArith F}.
Implicit Types k : Knob.Knob F.

Lemma update_mode k (x y : Z) (engaged : bool) :
  mode_of (Knob.update k x y engaged) =
    match mode_of k with
    | Idle => if engaged && Knob.within_radius k x y then Dragging else Idle
    | Dragging => if engaged then Dragging else Idle
    end.
Proof.
  unfold mode_of, Knob.update.
  destruct (Knob.isDragging k) eqn:Hd, engaged,
    (Knob.within_radius k x y); simpl; rewrite ?Hd; simpl; rewrite ?Hd;
    reflexivity.
Qed.

(** A knob that is dragging saw the pointer engaged at its latest update. *)
Lemma dragging_was_engaged (inputs : list (Z * Z * bool)) k :
  mode_of k = Idle ->
  mode_of (knob_run inputs k) = Dragging ->
  last_engaged inputs = true.
Proof.
  induction inputs as [| p inputs IH] using rev_ind; intros Hidle Hdrag.
  - simpl in Hdrag. congruence.
  - unfold knob_run in Hdrag. rewrite fold_left_app in Hdrag. simpl in Hdrag.
    unfold knob_step in Hdrag at 1. rewrite update_mode in Hdrag.
    unfold last_engaged. rewrite last_snoc.
    destruct (mode_of (fold_left knob_step inputs k)), p.2; simpl in *;
      reflexivity || discriminate.
Qed.

End KnobMachine.

(** C8, as the code has it.  A knob starts Idle.  An update takes an Idle
    knob to Dragging exactly when the pointer is engaged and within the hit
    radius at that update, whether the engagement is new or was already
    there at the previous update; it takes a Dragging knob to Idle exactly
    when the pointer is not engaged, wherever it is, and since a Dragging
    knob saw the pointer engaged at its previous update this is exactly when
    engagement becomes false.  There is no other transition. *)
Theorem knob_state_machine {F : Type} `{FloatArith F} :
  (forall (x y min max initial : F) (lbl : string),
     mode_of (Knob.make x y min max initial lbl) = Idle)
  /\ (forall (k : Knob.Knob F) (x y : Z) (engaged : bool),
        mode_of k = Idle ->
        (mode_of (Knob.update k x y engaged) = Dragging
         <-> engaged = true /\ Knob.within_radius k x y = true))
  /\ (forall (k : Knob.Knob F) (x y : Z) (engaged : bool),
        mode_of k = Dragging ->
        (mode_of (Knob.update k x y engaged) = Idle <-> engaged = false))
  /\ (forall (k0 : Knob.Knob F) (inputs : list (Z * Z * bool))
             (x y : Z) (engaged : bool),
        mode_of k0 = Idle ->
        mode_of (knob_run inputs k0) = Dragging ->
        (mode_of (Knob.update (knob_run inputs k0) x y engaged) = Idle
         <-> becomes_false (last_engaged inputs) engaged = true)).
Proof.
  split; [reflexivity |]. split; [| split].
  - intros k x y engaged Hidle. rewrite update_mode, Hidle.
    destruct engaged, (Knob.within_radius k x y); simpl;
      split; try tauto; try discriminate; intros [? ?]; discriminate.
  - intros k x y engaged Hdrag. rewrite update_mode, Hdrag.
    destruct engaged; split; congruence.
  - intros k0 inputs x y engaged Hidle Hdrag.
    rewrite (dragging_was_engaged inputs k0 Hidle Hdrag).
    rewrite update_mode, Hdrag. unfold becomes_false.
    destruct engaged; simpl; split; congruence.
Qed.

(** C8 as stated fails on the "becomes true" of its first transition: the
    frequency knob, after an update with the pointer engaged far from it, is
    Idle; the next update, still engaged and now on the knob, starts the
    drag although engagement did not become true at that update. *)
Lemma drag_starts_without_new_engagement :
  mode_of (knob_run held_outside (frequency_knob (F := Q))) = Idle
  /\ last_engaged held_outside = true
  /\ becomes_true (last_engaged held_outside) true = false
  /\ mode_of (Knob.update (knob_run held_outside (frequency_knob (F := Q)))
                          150 knobY true) = Dragging
  /\ ~ (mode_of (Knob.update (knob_run held_outside (frequency_knob (F := Q)))
                             150 knobY true) = Dragging
        <-> becomes_true (last_engaged held_outside) true = true
            /\ Knob.within_radius (knob_run held_outside (frequency_knob (F := Q)))
                                  150 knobY = true).
Proof.
  split; [reflexivity |]. split; [reflexivity |]. split; [reflexivity |].
  split; [reflexivity |].
  intros [Hstart _]. destruct (Hstart eq_refl) as [Hedge _]. discriminate.
Qed.

(** ** The main loop and the mouse *)

Section MouseIndependence.
Context {F : Type} `{FloatArith F}.
Implicit Types st : LoopState F.

Lemma handle_event_knobs st e :
  knobs (handle_event st e) = knobs st /\ data (handle_event st e) = data st.
Proof. destruct e; split; reflexivity. Qed.

Lemma handle_events_knobs (evs : list SDL_Event) : forall st,
  knobs (fold_left handle_event evs st) = knobs st
  /\ data (fold_left handle_event evs st) = data st.
Proof.
  induction evs as [| e evs IH]; intros st; simpl; [split; reflexivity |].
  destruct (IH (handle_event st e)) as [-> ->]. apply handle_event_knobs.
Qed.

Lemma handle_events_running (evs : list SDL_Event) : forall st,
  running (fold_left handle_event evs st)
  = running st && negb (existsb is_quit_event (other_events evs)).
Proof.
  induction evs as [| e evs IH]; intros st; simpl.
  - rewrite andb_true_r. reflexivity.
  - rewrite IH. unfold other_events.
    destruct e as [| sym | b | b | ex ey |]; simpl; try reflexivity.
    + rewrite andb_false_r. reflexivity.
    + destruct (sym =? SDLK_ESCAPE); simpl;
        [rewrite andb_false_r |]; reflexivity.
Qed.

Lemma update_knobs_ext (h1 h2 : nat -> PointerSignal) (ks : list (Knob.Knob F)) :
  (forall i, h1 i = h2 i) ->
  forall (i : nat) (d : SawtoothData F),
    update_knobs h1 i ks d = update_knobs h2 i ks d.
Proof.
  intros Hh. induction ks as [| k ks IH]; intros i d; simpl; [reflexivity |].
  rewrite Hh, IH. reflexivity.
Qed.

(** One iteration: the knobs and the audio data it leaves depend on the
    knobs, the audio data and the pointer readings, not on the events. *)
Lemma main_iteration_knobs st (input : list SDL_Event * (nat -> PointerSignal)) :
  knobs (main_iteration st input) = (update_knobs input.2 0 (knobs st) (data st)).1
  /\ data (main_iteration st input) = (update_knobs input.2 0 (knobs st) (data st)).2
  /\ running (main_iteration st input)
     = running st && negb (existsb is_quit_event (other_events input.1)).
Proof.
  unfold main_iteration.
  destruct (handle_events_knobs input.1 st) as [-> ->].
  pose proof (handle_events_running input.1 st) as Hr.
  destruct (update_knobs input.2 0 (knobs st) (data st)) as [ks d].
  simpl. auto.
Qed.

Lemma main_loop_mouse_independent
    (inputs1 inputs2 : list (list SDL_Event * (nat -> PointerSignal))) :
  Forall2 (fun a b => other_events a.1 = other_events b.1
                      /\ forall i, a.2 i = b.2 i) inputs1 inputs2 ->
  forall st1 st2,
    knobs st1 = knobs st2 -> data st1 = data st2 -> running st1 = running st2 ->
    knobs (main_loop inputs1 st1) = knobs (main_loop inputs2 st2)
    /\ data (main_loop inputs1 st1) = data (main_loop inputs2 st2)
    /\ running (main_loop inputs1 st1) = running (main_loop inputs2 st2).
Proof.
  induction 1 as [| a b l1 l2 [Hev Hhand] _ IH]; intros st1 st2 Hk Hd Hr; simpl.
  - repeat split; assumption.
  - rewrite <- Hr. destruct (running st1) eqn:Hrun;
      [| repeat split; congruence].
    destruct (main_iteration_knobs st1 a) as (Hk1 & Hd1 & Hr1).
    destruct (main_iteration_knobs st2 b) as (Hk2 & Hd2 & Hr2).
    apply IH.
    + rewrite Hk1, Hk2, Hk, Hd, (update_knobs_ext a.2 b.2 _ Hhand). reflexivity.
    + rewrite Hd1, Hd2, Hk, Hd, (update_knobs_ext a.2 b.2 _ Hhand). reflexivity.
    + rewrite Hr1, Hr2, Hev, <- Hr, Hrun. reflexivity.
Qed.

End MouseIndependence.

(** C9.  Two runs of the main loop that start with the same knobs and audio
    data and receive, iteration by iteration, the same hand-pointer readings
    and the same events other than mouse events, end with the same knobs and
    the same audio data, whatever their mouse positions, mouse-button states
    and mouse events; in particular with the same knob values and the same
    frequency, phase offset and amplitude. *)
Theorem knobs_follow_hand_pointer_only {F : Type} `{FloatArith F}
    (inputs1 inputs2 : list (list SDL_Event * (nat -> PointerSignal)))
    (st1 st2 : LoopState F) :
  knobs st1 = knobs st2 ->
  data st1 = data st2 ->
  running st1 = running st2 ->
  Forall2 (fun a b => other_events a.1 = other_events b.1
                      /\ forall i, a.2 i = b.2 i) inputs1 inputs2 ->
  knobs (main_loop inputs1 st1) = knobs (main_loop inputs2 st2)
  /\ Knob.value <$> knobs (main_loop inputs1 st1)
     = Knob.value <$> knobs (main_loop inputs2 st2)
  /\ frequency (data (main_loop inputs1 st1))
     = frequency (data (main_loop inputs2 st2))
  /\ phaseOffset (data (main_loop inputs1 st1))
     = phaseOffset (data (main_loop inputs2 st2))
  /\ amplitude (data (main_loop inputs1 st1))
     = amplitude (data (main_loop inputs2 st2)).
Proof.
  intros Hk Hd Hr Hin.
  destruct (main_loop_mouse_independent inputs1 inputs2 Hin st1 st2 Hk Hd Hr)
    as (Hk' & Hd' & _).
  rewrite Hk', Hd'. repeat split; reflexivity.
Qed.

(** ** The mutex in the callback *)

Section CallbackLock.
Context {F : Type} `{FloatArith F}.
Implicit Types d : SawtoothData F.

Lemma frame_no_lock d (i : Z) :
  Forall (fun ev => is_lock_effect ev = false) (frame d i).2.
Proof.
  unfold frame, advance_effects.
  destruct (Z.rem i 4 =? 0); simpl;
    match goal with
    | |- context [if ?c then _ else _] => destruct c
    end; repeat constructor.
Qed.

Lemma frames_no_lock n : forall (i : Z) d,
  Forall (fun ev => is_lock_effect ev = false) (frames n i d).2.
Proof.
  induction n as [| n IH]; intros i d; simpl; [constructor |].
  pose proof (frame_no_lock d i) as H1.
  destruct (frame d i) as [d1 e1]. specialize (IH (i + 1) d1).
  destruct (frames n (i + 1) d1) as [d2 e2]. simpl in *.
  apply Forall_app. split; assumption.
Qed.

(** Effects without mutex operations extend the section under way. *)
Lemma critical_sections_held (e : list (effect F)) :
  Forall (fun ev => is_lock_effect ev = false) e ->
  forall (cs rest : list (effect F)),
    critical_sections (Some cs) (e ++ Release :: rest)
    = (cs ++ e) :: critical_sections None rest.
Proof.
  induction 1 as [| ev e Hev _ IH]; intros cs rest; simpl.
  - rewrite app_nil_r. reflexivity.
  - destruct ev; try discriminate; simpl; rewrite IH, <- app_assoc; reflexivity.
Qed.

End CallbackLock.

(** C10, as the code has it.  The callback takes the mutex once, before the
    loop, and releases it once, when it returns: its effects are one
    critical section that holds every effect of every frame of the block,
    the output samples and the phase stores as well as the buffer writes. *)
Theorem callback_holds_lock_for_whole_block {F : Type} `{FloatArith F}
    (d : SawtoothData F) (framesPerBuffer : Z) :
  (sawtoothCallback d framesPerBuffer).2
  = Acquire :: (frames (Z.to_nat framesPerBuffer) 0 d).2 ++ [Release]
  /\ critical_sections None (sawtoothCallback d framesPerBuffer).2
     = [(frames (Z.to_nat framesPerBuffer) 0 d).2]
  /\ Forall (fun ev => is_lock_effect ev = false)
            (frames (Z.to_nat framesPerBuffer) 0 d).2.
Proof.
  pose proof (frames_no_lock (Z.to_nat framesPerBuffer) 0 d) as Hno.
  unfold sawtoothCallback.
  destruct (frames (Z.to_nat framesPerBuffer) 0 d) as [d' e]. simpl in *.
  split; [reflexivity |]. split; [| exact Hno].
  rewrite (critical_sections_held e Hno [] []). reflexivity.
Qed.

(** C10 as stated fails: already in a block of one frame the critical
    section holds the two output stores and the phase store besides the
    buffer write and the cursor store, and in a block of eight frames one
    critical section holds two buffer writes. *)
Lemma callback_lock_spans_more_than_one_write :
  forallb single_write
    (critical_sections None (sawtoothCallback (SawtoothData_init (F := spec_float)) 1).2)
  = false
  /\ length (critical_sections None
              (sawtoothCallback (SawtoothData_init (F := spec_float)) 1).2) = 1%nat
  /\ length (outputs (concat (critical_sections None
              (sawtoothCallback (SawtoothData_init (F := spec_float)) 1).2))) = 2%nat
  /\ length (critical_sections None
              (sawtoothCallback (SawtoothData_init (F := spec_float)) 8).2) = 1%nat
  /\ length (buffer_stores (concat (critical_sections None
              (sawtoothCallback (SawtoothData_init (F := spec_float)) 8).2))) = 2%nat.
Proof. vm_compute. repeat split; reflexivity. Qed.

(** ** The theorems at concrete inputs *)

Ltac q_concrete :=
  repeat split; vm_compute; solve [reflexivity | discriminate].

Lemma sawtooth_sample_value_witness :
  (binary32 (phase quarter_phase_data) = true
   /\ binary32 (phaseOffset quarter_phase_data) = true
   /\ binary32 (amplitude quarter_phase_data) = true
   /\ in_unit_interval (phase quarter_phase_data) = true
   /\ (of_int (-1) [<=] phaseOffset quarter_phase_data) = true
   /\ (phaseOffset quarter_phase_data [<=] of_int 1) = true
   /\ in_unit_interval (phaseOffset quarter_phase_data) = true
   /\ in_unit_interval (adjustedPhase quarter_phase_data) = true
   /\ (SFopp (SFabs (amplitude quarter_phase_data)) [<=] sample_of quarter_phase_data)
      = true
   /\ (sample_of quarter_phase_data [<=] SFabs (amplitude quarter_phase_data)) = true)
  /\ (binary32 (phase negative_offset_data) = true
      /\ binary32 (phaseOffset negative_offset_data) = true
      /\ binary32 (amplitude negative_offset_data) = true
      /\ in_unit_interval (phase negative_offset_data) = true
      /\ (of_int (-1) [<=] phaseOffset negative_offset_data) = true
      /\ (phaseOffset negative_offset_data [<=] of_int 1) = true
      /\ (fmod1 (phase negative_offset_data [+] phaseOffset negative_offset_data)
          [<] of_int 0) = true
      /\ adjustedPhase negative_offset_data
         = fmod1 (phase negative_offset_data [+] phaseOffset negative_offset_data)
           [+] of_int 1
      /\ (of_int 0 [<=] adjustedPhase negative_offset_data) = true
      /\ (adjustedPhase negative_offset_data [<=] of_int 1) = true
      /\ (sample_of negative_offset_data [<=] SFabs (amplitude negative_offset_data))
         = true).
Proof.
  split.
  - assert (Hp : binary32 (phase quarter_phase_data) = true) by reflexivity.
    assert (Ho : binary32 (phaseOffset quarter_phase_data) = true) by reflexivity.
    assert (Ha : binary32 (amplitude quarter_phase_data) = true) by reflexivity.
    assert (Hu : in_unit_interval (phase quarter_phase_data) = true) by reflexivity.
    assert (Ho1 : (of_int (-1) [<=] phaseOffset quarter_phase_data) = true)
      by reflexivity.
    assert (Ho2 : (phaseOffset quarter_phase_data [<=] of_int 1) = true)
      by reflexivity.
    assert (Hou : in_unit_interval (phaseOffset quarter_phase_data) = true)
      by reflexivity.
    destruct (proj1 sawtooth_sample_value quarter_phase_data Hp Ho Ha Hu Ho1 Ho2)
      as (_ & _ & _ & _ & _ & _ & _ & Hoff & _ & _ & Hlo & Hhi & _).
    destruct (Hoff Hou) as (_ & _ & HA).
    repeat (split; [assumption |]). assumption.
  - assert (Hp : binary32 (phase negative_offset_data) = true) by reflexivity.
    assert (Ho : binary32 (phaseOffset negative_offset_data) = true) by reflexivity.
    assert (Ha : binary32 (amplitude negative_offset_data) = true) by reflexivity.
    assert (Hu : in_unit_interval (phase negative_offset_data) = true) by reflexivity.
    assert (Ho1 : (of_int (-1) [<=] phaseOffset negative_offset_data) = true)
      by reflexivity.
    assert (Ho2 : (phaseOffset negative_offset_data [<=] of_int 1) = true)
      by reflexivity.
    assert (Hneg : (fmod1 (phase negative_offset_data
                           [+] phaseOffset negative_offset_data)
                    [<] of_int 0) = true) by reflexivity.
    destruct (proj1 sawtooth_sample_value negative_offset_data Hp Ho Ha Hu Ho1 Ho2)
      as (_ & _ & _ & HA & _ & H0 & H1 & _ & _ & _ & _ & Hhi & _).
    rewrite Hneg in HA.
    repeat (split; [assumption |]). assumption.
Defined.

Lemma phase_stays_in_unit_interval_witness :
  binary32 (phase largest_phase_and_frequency) = true
  /\ binary32 (frequency largest_phase_and_frequency) = true
  /\ (of_int 0 [<] frequency largest_phase_and_frequency) = true
  /\ (frequency largest_phase_and_frequency [<] of_int SAMPLE_RATE) = true
  /\ in_unit_interval (phase largest_phase_and_frequency) = true
  /\ in_unit_interval (phase (advance_phase largest_phase_and_frequency)) = true
  /\ in_unit_interval
       (phase (sawtoothCallback largest_phase_and_frequency FRAMES_PER_BUFFER).1)
     = true.
Proof.
  assert (Hp : binary32 (phase largest_phase_and_frequency) = true) by reflexivity.
  assert (Hf : binary32 (frequency largest_phase_and_frequency) = true)
    by reflexivity.
  assert (Hf0 : (of_int 0 [<] frequency largest_phase_and_frequency) = true)
    by reflexivity.
  assert (Hf1 : (frequency largest_phase_and_frequency [<] of_int SAMPLE_RATE) = true)
    by reflexivity.
  assert (Hu : in_unit_interval (phase largest_phase_and_frequency) = true)
    by reflexivity.
  destruct (phase_stays_in_unit_interval largest_phase_and_frequency Hp Hf Hf0 Hf1 Hu)
    as (_ & Hstep & _ & Hblock).
  repeat (split; [assumption |]). apply Hblock.
Defined.


Lemma pointer_ingestion_witness :
  (length (Scan.sscanf_ddd (c_string (recv "12;34").2)).2 < 2)%nat
  /\ udp_receive PointerSignal_init "12;34" = PointerSignal_init
  /\ (Scan.sscanf_ddd (c_string (recv "7,8,1").2)).2 = [7; 8; 1]
  /\ udp_receive PointerSignal_init "7,8,1"
     = {| handX := 7; handY := 8; handPinch := true |}.
Proof.
  assert (Hfew : (length (Scan.sscanf_ddd (c_string (recv "12;34").2)).2 < 2)%nat)
    by (vm_compute; lia).
  split; [exact Hfew |].
  split; [exact (proj1 (proj2 (proj2 (proj2 pointer_ingestion)))
                   PointerSignal_init "12;34"%string Hfew) |].
  split; [reflexivity |].
  exact (proj2 (proj2 (proj2 (proj2 pointer_ingestion)))
           PointerSignal_init "7,8,1"%string 7 8 [1] eq_refl).
Defined.

Lemma snapshot_after_capacity_writes_witness :
  buffer_ok (SawtoothData_init (F := spec_float))
  /\ Z.of_nat (length ramp) = WAVE_SAMPLES
  /\ snapshot (write_all ramp SawtoothData_init) = ramp.
Proof.
  assert (Hok : buffer_ok (SawtoothData_init (F := spec_float)))
    by exact SawtoothData_init_ok.
  assert (Hlen : Z.of_nat (length ramp) = WAVE_SAMPLES) by reflexivity.
  split; [exact Hok |]. split; [exact Hlen |].
  apply (snapshot_after_capacity_writes ramp SawtoothData_init Hok Hlen).
Defined.

Lemma every_fourth_frame_writes_witness :
  buffer_ok (SawtoothData_init (F := spec_float))
  /\ 0 <= 4 < FRAMES_PER_BUFFER
  /\ cursor_ok (frames (Z.to_nat 4) 0 (SawtoothData_init (F := spec_float))).1.
Proof.
  assert (Hok : buffer_ok (SawtoothData_init (F := spec_float)))
    by exact SawtoothData_init_ok.
  assert (Hi : 0 <= 4 < FRAMES_PER_BUFFER) by (split; vm_compute; congruence).
  split; [exact Hok |]. split; [exact Hi |].
  apply (every_fourth_frame_writes SawtoothData_init FRAMES_PER_BUFFER 4 Hok Hi).
Defined.

Lemma knob_state_machine_witness :
  mode_of (frequency_knob (F := spec_float)) = Idle
  /\ (mode_of (Knob.update (frequency_knob (F := spec_float)) 150 knobY true) = Dragging
      <-> true = true
          /\ Knob.within_radius (frequency_knob (F := spec_float)) 150 knobY = true)
  /\ mode_of (Knob.update (frequency_knob (F := spec_float)) 150 knobY true) = Dragging
  /\ (mode_of (Knob.update
                 (Knob.update (frequency_knob (F := spec_float)) 150 knobY true)
                 0 0 false) = Idle
      <-> false = false).
Proof.
  assert (Hidle : mode_of (frequency_knob (F := spec_float)) = Idle) by reflexivity.
  assert (Hdrag : mode_of (Knob.update (frequency_knob (F := spec_float))
                                       150 knobY true) = Dragging) by reflexivity.
  split; [exact Hidle |].
  split; [exact (proj1 (proj2 knob_state_machine) frequency_knob 150 knobY true Hidle) |].
  split; [exact Hdrag |].
  exact (proj1 (proj2 (proj2 knob_state_machine))
           (Knob.update frequency_knob 150 knobY true) 0 0 false Hdrag).
Defined.

Lemma knobs_follow_hand_pointer_only_witness :
  knobs main_init = knobs main_init_mouse_elsewhere
  /\ data main_init = data main_init_mouse_elsewhere
  /\ running main_init = running main_init_mouse_elsewhere
  /\ Knob.value <$> knobs (main_loop
         [([SDL_MOUSEMOTION 350 knobY; SDL_MOUSEBUTTONDOWN SDL_BUTTON_LEFT],
           pinch_on_frequency_knob)] main_init)
     = Knob.value <$> knobs (main_loop
         [([SDL_MOUSEBUTTONUP SDL_BUTTON_LEFT], pinch_on_frequency_knob)]
         main_init_mouse_elsewhere).
Proof.
  split; [reflexivity |]. split; [reflexivity |]. split; [reflexivity |].
  apply (knobs_follow_hand_pointer_only
           [([SDL_MOUSEMOTION 350 knobY; SDL_MOUSEBUTTONDOWN SDL_BUTTON_LEFT],
             pinch_on_frequency_knob)]
           [([SDL_MOUSEBUTTONUP SDL_BUTTON_LEFT], pinch_on_frequency_knob)]
           main_init main_init_mouse_elsewhere eq_refl eq_refl eq_refl).
  constructor; [| constructor].
  split; [reflexivity | intros i; reflexivity].
Defined.

(** ** The same code in binary32 arithmetic *)

(** The two drags of the knob example give the floats 1415 and 50 exactly. *)
Lemma binary32_knob_drag :
  Knob.value (Knob.update (Knob.update (frequency_knob (F := spec_float)) 150 knobY true)
                          150 (knobY - 50) true) = B32.of_Z 1415
  /\ Knob.value (Knob.update (Knob.update (frequency_knob (F := spec_float)) 150 knobY true)
                             150 (knobY + 500) true) = B32.of_Z 50.
Proof. vm_compute. split; reflexivity. Qed.

(** Clamping holds for every binary32 value, NaN and infinities included:
    the comparisons of [std::max] and [std::min] need no rounding. *)
Lemma SFleb_refl (a : spec_float) : a <> S754_nan -> SFleb a a = true.
Proof.
  intros Hn. unfold SFleb, SFcompare.
  destruct a as [s | s | | s m e]; try congruence; destruct s;
    rewrite ?Z.compare_refl, ?Pos.compare_cont_refl; reflexivity.
Qed.

Lemma SFltb_SFleb (a b : spec_float) : SFltb a b = true -> SFleb a b = true.
Proof. unfold SFltb, SFleb. destruct (SFcompare a b) as [[] |]; congruence. Qed.

Lemma SFleb_not_nan (a b : spec_float) :
  SFleb a b = true -> a <> S754_nan /\ b <> S754_nan.
Proof.
  unfold SFleb, SFcompare.
  destruct a as [| | |], b as [| | |]; split; congruence.
Qed.

Lemma binary32_clamp_in_range (k : Knob.Knob spec_float) (v : spec_float) :
  SFleb (Knob.minValue k) (Knob.maxValue k) = true ->
  SFleb (Knob.minValue k) (Knob.clamp k v) = true
  /\ SFleb (Knob.clamp k v) (Knob.maxValue k) = true.
Proof.
  intros Hmm. destruct (SFleb_not_nan _ _ Hmm) as [Hmin Hmax].
  unfold Knob.clamp, fmax, fmin. simpl.
  destruct (SFltb v (Knob.maxValue k)) eqn:E1;
    match goal with
    | |- context [SFltb ?a ?b] => destruct (SFltb a b) eqn:E2
    end;
    split; auto using SFleb_refl, SFltb_SFleb.
Qed.

(** The hit test at the edge of the radius, 30 pixels from the centre. *)
Lemma binary32_hit_radius :
  Knob.within_radius (frequency_knob (F := spec_float)) 180 knobY = true
  /\ Knob.within_radius (frequency_knob (F := spec_float)) 181 knobY = false
  /\ Knob.within_radius (frequency_knob (F := Q)) 180 knobY = true
  /\ Knob.within_radius (frequency_knob (F := Q)) 181 knobY = false.
Proof. vm_compute. repeat split; reflexivity. Qed.

(** The first sample of the oscillator is [-0.3f], and after a block of 256
    frames at 440 Hz the phase is in [0,1). *)
Lemma binary32_first_block :
  sample_of (SawtoothData_init (F := spec_float)) = SFopp (of_int 3 [/] of_int 10)
  /\ in_unit_interval
       (phase (sawtoothCallback (SawtoothData_init (F := spec_float))
                                FRAMES_PER_BUFFER).1) = true.
Proof. vm_compute. split; reflexivity. Qed.

(** The largest phase below 1 advanced by the largest frequency below the
    sample rate: the increment rounds to [1 - 2^-24], the sum is
    [2 - 2^-23] and the wrapped phase [1 - 2^-23], still below 1. *)
Lemma binary32_phase_advance_at_the_edge :
  (frequency largest_phase_and_frequency [<] of_int SAMPLE_RATE) = true
  /\ in_unit_interval (phase largest_phase_and_frequency) = true
  /\ phase (advance_phase largest_phase_and_frequency)
     = S754_finite false 16777214 (-24)
  /\ in_unit_interval (phase (advance_phase largest_phase_and_frequency)) = true.
Proof. vm_compute. repeat split; reflexivity. Qed.

(** Rounding shows outside the range of offsets the specification
    considers: with the offset [- 2^-30] the remainder is negative and
    adding 1 to it rounds to 1, which exact arithmetic excludes
    ([adjustedPhase_range]). *)
Lemma binary32_negative_offset_rounds_to_one :
  adjustedPhase tiny_negative_offset = of_int 1
  /\ in_unit_interval (adjustedPhase tiny_negative_offset) = false.
Proof. vm_compute. split; reflexivity. Qed.

(** * Further properties of the code *)

(** ** The knob over a whole interaction *)

Section KnobRuns.
Context {F : Type} `{FloatArith F}.
Implicit Types k : Knob.Knob F.

Lemma update_geometry k (x y : Z) (engaged : bool) :
  Knob.x (Knob.update k x y engaged) = Knob.x k
  /\ Knob.y (Knob.update k x y engaged) = Knob.y k
  /\ Knob.minValue (Knob.update k x y engaged) = Knob.minValue k
  /\ Knob.maxValue (Knob.update k x y engaged) = Knob.maxValue k
  /\ Knob.label (Knob.update k x y engaged) = Knob.label k.
Proof.
  unfold Knob.update.
  destruct (engaged && Knob.within_radius k x y && negb (Knob.isDragging k));
    simpl; [destruct engaged | destruct (Knob.isDragging k), engaged];
    simpl; repeat split; reflexivity.
Qed.

(** An update keeps the value or sets it to a clamped one. *)
Lemma update_value k (x y : Z) (engaged : bool) :
  Knob.value (Knob.update k x y engaged) = Knob.value k
  \/ exists v, Knob.value (Knob.update k x y engaged) = Knob.clamp k v.
Proof.
  unfold Knob.update.
  destruct (engaged && Knob.within_radius k x y && negb (Knob.isDragging k));
    simpl; [destruct engaged | destruct (Knob.isDragging k), engaged]; simpl;
    try (left; reflexivity); right; eexists; reflexivity.
Qed.

(** Where the knob is and what its range and label are never change. *)
Lemma knob_geometry_is_fixed k (inputs : list (Z * Z * bool)) :
  Knob.x (knob_run inputs k) = Knob.x k
  /\ Knob.y (knob_run inputs k) = Knob.y k
  /\ Knob.minValue (knob_run inputs k) = Knob.minValue k
  /\ Knob.maxValue (knob_run inputs k) = Knob.maxValue k
  /\ Knob.label (knob_run inputs k) = Knob.label k.
Proof.
  revert k. induction inputs as [| p inputs IH]; intros k; simpl.
  - repeat split; reflexivity.
  - destruct (IH (knob_step k p)) as (-> & -> & -> & -> & ->).
    apply update_geometry.
Qed.

(** X1.  A drag is anchored where it started: for a knob that is being
    dragged, an update with the pointer engaged gives the same knob
    whatever engaged updates came in between, so the value depends on the
    anchor and the current pointer height only, not on the path. *)
Theorem drag_forgets_the_path k (x1 y1 x2 y2 : Z) :
  Knob.isDragging k = true ->
  Knob.update (Knob.update k x1 y1 true) x2 y2 true = Knob.update k x2 y2 true.
Proof.
  intros Hd. unfold Knob.update. rewrite Hd, !andb_false_r. simpl.
  rewrite Hd. simpl. rewrite Hd, andb_false_r. simpl. rewrite Hd.
  reflexivity.
Qed.

(** X2.  Without engagement nothing moves: an update with the pointer not
    engaged leaves the value and the anchor as they are and the knob Idle;
    and an Idle knob is left entirely as it is by every update whose pointer
    is not engaged or not within the radius. *)
Theorem update_without_engagement k (x y : Z) :
  Knob.value (Knob.update k x y false) = Knob.value k
  /\ Knob.dragStartY (Knob.update k x y false) = Knob.dragStartY k
  /\ Knob.dragStartValue (Knob.update k x y false) = Knob.dragStartValue k
  /\ mode_of (Knob.update k x y false) = Idle
  /\ (forall engaged : bool,
        Knob.isDragging k = false ->
        engaged && Knob.within_radius k x y = false ->
        Knob.update k x y engaged = k).
Proof.
  unfold mode_of, Knob.update. simpl.
  split; [destruct (Knob.isDragging k); reflexivity |].
  split; [destruct (Knob.isDragging k); reflexivity |].
  split; [destruct (Knob.isDragging k); reflexivity |].
  split; [destruct (Knob.isDragging k) eqn:E; simpl; rewrite ?E; reflexivity |].
  intros engaged Hidle Hout. rewrite Hout. simpl. rewrite Hidle. reflexivity.
Qed.

End KnobRuns.

Section KnobValues.
Local Open Scope Q_scope.
Implicit Types k : Knob.Knob Q.

Lemma knob_run_value_range_Q (inputs : list (Z * Z * bool)) : forall k,
  Knob.minValue k <= Knob.maxValue k ->
  Knob.minValue k <= Knob.value k <= Knob.maxValue k ->
  Knob.minValue k <= Knob.value (knob_run inputs k) <= Knob.maxValue k.
Proof.
  induction inputs as [| p inputs IH]; intros k Hmm Hv; simpl; [exact Hv |].
  destruct (update_geometry k p.1.1 p.1.2 p.2) as (_ & _ & Hmin & Hmax & _).
  unfold knob_run in IH. specialize (IH (knob_step k p)).
  unfold knob_step in *. rewrite Hmin, Hmax in IH. apply IH; [exact Hmm |].
  destruct (update_value k p.1.1 p.1.2 p.2) as [-> | [v ->]]; [exact Hv |].
  apply (clamp_cases k v Hmm).
Qed.

Lemma knob_run_value_range_b32 (inputs : list (Z * Z * bool)) :
  forall k : Knob.Knob spec_float,
  SFleb (Knob.minValue k) (Knob.value k) = true ->
  SFleb (Knob.value k) (Knob.maxValue k) = true ->
  SFleb (Knob.minValue k) (Knob.maxValue k) = true ->
  SFleb (Knob.minValue k) (Knob.value (knob_run inputs k)) = true
  /\ SFleb (Knob.value (knob_run inputs k)) (Knob.maxValue k) = true.
Proof.
  induction inputs as [| p inputs IH]; intros k Hlo Hhi Hmm; simpl;
    [split; assumption |].
  destruct (update_geometry k p.1.1 p.1.2 p.2) as (_ & _ & Hmin & Hmax & _).
  unfold knob_run in IH. specialize (IH (knob_step k p)).
  unfold knob_step in *. rewrite Hmin, Hmax in IH.
  destruct (update_value k p.1.1 p.1.2 p.2) as [Hv | [v Hv]];
    rewrite Hv in IH; apply IH; try assumption;
    apply (binary32_clamp_in_range k v Hmm).
Qed.

(** X3.  The value of a knob never leaves its range: built with
    [min <= initial <= max], it is within [[min, max]] after any sequence of
    updates, whatever the pointer does; this holds in exact arithmetic and
    for binary32 floats. *)
Theorem knob_value_stays_in_range (inputs : list (Z * Z * bool)) :
  (forall k,
     Knob.minValue k <= Knob.value k <= Knob.maxValue k ->
     Knob.minValue k <= Knob.value (knob_run inputs k) <= Knob.maxValue k)
  /\ (forall k : Knob.Knob spec_float,
        SFleb (Knob.minValue k) (Knob.value k) = true ->
        SFleb (Knob.value k) (Knob.maxValue k) = true ->
        SFleb (Knob.minValue k) (Knob.maxValue k) = true ->
        SFleb (Knob.minValue k) (Knob.value (knob_run inputs k)) = true
        /\ SFleb (Knob.value (knob_run inputs k)) (Knob.maxValue k) = true).
Proof.
  split.
  - intros k Hv. apply knob_run_value_range_Q; [lra | exact Hv].
  - apply knob_run_value_range_b32.
Qed.

End KnobValues.

Section KnobStart.
Implicit Types k : Knob.Knob spec_float.

(** Clamping a number that is within the range returns a number of the same
    value. *)
Lemma binary32_clamp_value k (t : spec_float) :
  binary32 (Knob.minValue k) = true -> binary32 (Knob.maxValue k) = true ->
  binary32 t = true ->
  (B2R (Knob.minValue k) <= B2R t <= B2R (Knob.maxValue k))%R ->
  binary32 (Knob.clamp k t) = true /\ B2R (Knob.clamp k t) = B2R t.
Proof.
  intros Hmin Hmax Ht Hb. unfold Knob.clamp, fmax, fmin.
  destruct (t [<] Knob.maxValue k) eqn:E1.
  - destruct (Knob.minValue k [<] t) eqn:E2; [split; [exact Ht | reflexivity] |].
    apply (proj2 (binary32_lt _ _ Hmin Ht)) in E2.
    split; [exact Hmin | Lra.lra].
  - apply (proj2 (binary32_lt _ _ Ht Hmax)) in E1.
    destruct (Knob.minValue k [<] Knob.maxValue k) eqn:E2;
      [split; [exact Hmax | Lra.lra] |].
    apply (proj2 (binary32_lt _ _ Hmin Hmax)) in E2.
    split; [exact Hmin | Lra.lra].
Qed.

Lemma dragging_update_value {F : Type} `{FloatArith F} (k : Knob.Knob F) (x y : Z) :
  Knob.isDragging k = true ->
  Knob.value (Knob.update k x y true) = Knob.clamp k (Knob.drag_target k y).
Proof.
  intros Hd. unfold Knob.update. rewrite Hd, andb_false_r. simpl.
  rewrite Hd. reflexivity.
Qed.

(** Clamping a number at or above the maximum gives the maximum, and one at
    or below the minimum gives the minimum. *)
Lemma binary32_clamp_ends k (t : spec_float) :
  binary32 (Knob.minValue k) = true -> binary32 (Knob.maxValue k) = true ->
  binary32 t = true ->
  (B2R (Knob.minValue k) < B2R (Knob.maxValue k))%R ->
  ((B2R (Knob.maxValue k) <= B2R t)%R -> Knob.clamp k t = Knob.maxValue k)
  /\ ((B2R t <= B2R (Knob.minValue k))%R -> Knob.clamp k t = Knob.minValue k).
Proof.
  intros Hmin Hmax Ht Hmm. unfold Knob.clamp, fmax, fmin. split; intros Hb.
  - assert (E1 : (t [<] Knob.maxValue k) = false)
      by (apply (binary32_lt _ _ Ht Hmax); exact Hb).
    assert (E2 : (Knob.minValue k [<] Knob.maxValue k) = true)
      by (apply (binary32_lt _ _ Hmin Hmax); exact Hmm).
    rewrite E1, E2. reflexivity.
  - assert (E1 : (t [<] Knob.maxValue k) = true)
      by (apply (binary32_lt _ _ Ht Hmax); Lra.lra).
    assert (E2 : (Knob.minValue k [<] t) = false)
      by (apply (binary32_lt _ _ Hmin Ht); exact Hb).
    rewrite E1, E2. reflexivity.
Qed.

(** The pointer's distance from the anchor is computed exactly. *)
Lemma binary32_deltaY (y0 y : Z) :
  - 8388607 <= y0 <= 8388607 -> - 8388607 <= y <= 8388607 ->
  binary32 (of_int y0 [-] of_int y) = true
  /\ B2R (of_int y0 [-] of_int y) = IZR (y0 - y).
Proof.
  intros Hy0 Hy.
  destruct (binary32_of_int_exact y0 ltac:(lia)) as [H0 H0v].
  destruct (binary32_of_int_exact y ltac:(lia)) as [H1 H1v].
  destruct (binary32_of_int_exact (y0 - y) ltac:(lia)) as [H2 H2v].
  destruct (binary32_sub (of_int y0) (of_int y) (of_int (y0 - y)) (of_int (y0 - y))
              H0 H1 H2 H2) as [Hd Hdb].
  { rewrite H0v, H1v, H2v, minus_IZR. Lra.lra. }
  split; [exact Hd |]. rewrite H2v in Hdb. Lra.lra.
Qed.

(** X4.  A drag of 100 pixels covers the range, for the knobs of the
    program, in binary32: while a knob of range [[50, 2000]] or [[0, 1]]
    is dragged, anchored at a pointer height and at a value within its
    range, a pointer 100 pixels or more above the anchor gives the maximum
    and a pointer 100 pixels or more below it gives the minimum (for pointer
    heights of less than 24 bits, which the conversion to [float] keeps).
    It is not so for every range: [drag_of_100_pixels_can_fall_short]. *)
Theorem program_knobs_span_their_range k (x y y0 : Z) :
  Knob.isDragging k = true ->
  (Knob.minValue k = of_int 50 /\ Knob.maxValue k = of_int 2000)
  \/ (Knob.minValue k = of_int 0 /\ Knob.maxValue k = of_int 1) ->
  Knob.dragStartY k = of_int y0 ->
  - 8388607 <= y0 <= 8388607 -> - 8388607 <= y <= 8388607 ->
  binary32 (Knob.dragStartValue k) = true ->
  (Knob.minValue k [<=] Knob.dragStartValue k) = true ->
  (Knob.dragStartValue k [<=] Knob.maxValue k) = true ->
  (100 <= y0 - y -> Knob.value (Knob.update k x y true) = Knob.maxValue k)
  /\ (y0 - y <= -100 -> Knob.value (Knob.update k x y true) = Knob.minValue k).
Proof.
  intros Hdrag Hrange Hanchor Hy0 Hy Hv Hlo Hhi.
  rewrite (dragging_update_value k x y Hdrag).
  unfold Knob.drag_target. rewrite Hanchor.
  destruct (binary32_deltaY y0 y Hy0 Hy) as [Hd Hdv].
  set (deltaY := of_int y0 [-] of_int y) in *.
  set (v0 := Knob.dragStartValue k) in *.
  assert (HdR : (- 16777214 <= IZR (y0 - y) <= 16777214)%R).
  { split; [apply (IZR_le (-16777214)) | apply (IZR_le _ 16777214)]; lia. }
  destruct Hrange as [[Hmin Hmax] | [Hmin Hmax]]; rewrite Hmin, Hmax in *.
  - (* the frequency knob: 19.5 per pixel *)
    change ((of_int 2000 [-] of_int 50) [/] of_int 100)
      with (S754_finite false 10223616 (-19)).
    change (of_int (F := spec_float) 50) with (S754_finite false 13107200 (-18)) in *.
    change (of_int (F := spec_float) 2000) with (S754_finite false 16384000 (-13)) in *.
    apply (proj1 (binary32_le (S754_finite false 13107200 (-18)) v0 eq_refl Hv)) in Hlo.
    apply (proj1 (binary32_le v0 (S754_finite false 16384000 (-13)) Hv eq_refl)) in Hhi.
    assert (Hends := fun t Ht => binary32_clamp_ends k t
              ltac:(rewrite Hmin; reflexivity) ltac:(rewrite Hmax; reflexivity) Ht).
    rewrite Hmin, Hmax in Hends.
    split; intros Hfar.
    + apply IZR_le in Hfar.
      destruct (binary32_mul deltaY (S754_finite false 10223616 (-19))
                  (S754_finite false 15974400 (-13)) (S754_finite false 8388608 9)
                  Hd eq_refl eq_refl eq_refl) as [Hp Hpb].
      { rewrite Hdv. b32_value. Lra.lra. }
      destruct (binary32_add v0 (deltaY [*] S754_finite false 10223616 (-19))
                  (S754_finite false 16384000 (-13)) (S754_finite false 8388608 10)
                  Hv Hp eq_refl eq_refl) as [Ht Htb].
      { b32_value. Lra.lra. }
      apply (Hends _ Ht); b32_value; Lra.lra.
    + apply IZR_le in Hfar.
      destruct (binary32_mul deltaY (S754_finite false 10223616 (-19))
                  (S754_finite true 8388608 9) (S754_finite true 15974400 (-13))
                  Hd eq_refl eq_refl eq_refl) as [Hp Hpb].
      { rewrite Hdv. b32_value. Lra.lra. }
      destruct (binary32_add v0 (deltaY [*] S754_finite false 10223616 (-19))
                  (S754_finite true 8388608 10) (S754_finite false 13107200 (-18))
                  Hv Hp eq_refl eq_refl) as [Ht Htb].
      { b32_value. Lra.lra. }
      apply (Hends _ Ht); b32_value; Lra.lra.
  - (* the phase and amplitude knobs: 0.01f per pixel *)
    change ((of_int 1 [-] of_int 0) [/] of_int 100)
      with (S754_finite false 10737418 (-30)).
    change (of_int (F := spec_float) 0) with (S754_zero false) in *.
    change (of_int (F := spec_float) 1) with (S754_finite false 8388608 (-23)) in *.
    apply (proj1 (binary32_le (S754_zero false) v0 eq_refl Hv)) in Hlo.
    apply (proj1 (binary32_le v0 (S754_finite false 8388608 (-23)) Hv eq_refl)) in Hhi.
    assert (Hends := fun t Ht => binary32_clamp_ends k t
              ltac:(rewrite Hmin; reflexivity) ltac:(rewrite Hmax; reflexivity) Ht).
    rewrite Hmin, Hmax in Hends.
    split; intros Hfar.
    + assert (Hp : binary32 (deltaY [*] S754_finite false 10737418 (-30)) = true
                   /\ (1 <= B2R (deltaY [*] S754_finite false 10737418 (-30))
                       <= 262144)%R).
      { destruct (Z.eq_dec (y0 - y) 100) as [E100 | Hne].
        - assert (deltaY = S754_finite false 13107200 (-17)) as ->.
          { apply binary32_inj; [exact Hd | reflexivity | |];
              rewrite Hdv, E100; b32_value; Lra.lra. }
          change (S754_finite false 13107200 (-17) [*] S754_finite false 10737418 (-30))
            with (S754_finite false 8388608 (-23)).
          split; [reflexivity |]. b32_value. Lra.lra.
        - assert (Hfar' : (101 <= IZR (y0 - y))%R) by (apply (IZR_le 101); lia).
          destruct (binary32_mul deltaY (S754_finite false 10737418 (-30))
                      (S754_finite false 8388608 (-23)) (S754_finite false 8388608 (-5))
                      Hd eq_refl eq_refl eq_refl) as [Hp Hpb].
          { rewrite Hdv. b32_value. Lra.lra. }
          split; [exact Hp |]. b32_value. Lra.lra. }
      destruct Hp as [Hp Hpb].
      destruct (binary32_add v0 (deltaY [*] S754_finite false 10737418 (-30))
                  (S754_finite false 8388608 (-23)) (S754_finite false 8388608 (-4))
                  Hv Hp eq_refl eq_refl) as [Ht Htb].
      { b32_value. Lra.lra. }
      apply (Hends _ Ht); b32_value; Lra.lra.
    + assert (Hp : binary32 (deltaY [*] S754_finite false 10737418 (-30)) = true
                   /\ (- 262144 <= B2R (deltaY [*] S754_finite false 10737418 (-30))
                       <= - 1)%R).
      { destruct (Z.eq_dec (y0 - y) (-100)) as [E100 | Hne].
        - assert (deltaY = S754_finite true 13107200 (-17)) as ->.
          { apply binary32_inj; [exact Hd | reflexivity | |];
              rewrite Hdv, E100; b32_value; Lra.lra. }
          change (S754_finite true 13107200 (-17) [*] S754_finite false 10737418 (-30))
            with (S754_finite true 8388608 (-23)).
          split; [reflexivity |]. b32_value. Lra.lra.
        - assert (Hfar' : (IZR (y0 - y) <= - 101)%R) by (apply (IZR_le _ (-101)); lia).
          destruct (binary32_mul deltaY (S754_finite false 10737418 (-30))
                      (S754_finite true 8388608 (-5)) (S754_finite true 8388608 (-23))
                      Hd eq_refl eq_refl eq_refl) as [Hp Hpb].
          { rewrite Hdv. b32_value. Lra.lra. }
          split; [exact Hp |]. b32_value. Lra.lra. }
      destruct Hp as [Hp Hpb].
      destruct (binary32_add v0 (deltaY [*] S754_finite false 10737418 (-30))
                  (S754_finite true 8388608 (-4)) (S754_zero false)
                  Hv Hp eq_refl eq_refl) as [Ht Htb].
      { b32_value. Lra.lra. }
      apply (Hends _ Ht); b32_value; Lra.lra.
Qed.

(** With another range the last pixel can be missing: (53 - 0) / 100 rounds
    down, and 100 pixels above the anchor the knob of range [[0, 53]] is at
    [13893631 * 2^-18], just below 53. *)
Lemma drag_of_100_pixels_can_fall_short :
  Knob.isDragging knob_0_to_53 = true
  /\ Knob.dragStartValue knob_0_to_53 = Knob.minValue knob_0_to_53
  /\ Knob.maxValue knob_0_to_53 = of_int 53
  /\ Knob.value (Knob.update knob_0_to_53 150 (knobY - 100) true)
     = S754_finite false 13893631 (-18)
  /\ (Knob.value (Knob.update knob_0_to_53 150 (knobY - 100) true)
      [<] Knob.maxValue knob_0_to_53) = true.
Proof. vm_compute. repeat split; reflexivity. Qed.

(** X5.  Starting a drag does not move the value, in binary32: when an
    Idle knob is pinched within the radius, with a value within
    [[min, max]] and a range [max - min] that does not overflow, the knob is
    Dragging, anchored at the pointer height and at its value, and its new
    value is a number that compares equal to the old one.  (When
    [max - min] overflows the sensitivity is infinite, [0 * inf] is a NaN
    and the value is lost: [drag_start_with_overflowing_range].) *)
Theorem drag_start_keeps_the_value k (x y : Z) :
  Knob.isDragging k = false ->
  Knob.within_radius k x y = true ->
  - 2147483648 <= y <= 2147483647 ->
  binary32 (Knob.value k) = true ->
  binary32 (Knob.minValue k) = true -> binary32 (Knob.maxValue k) = true ->
  binary32 (Knob.maxValue k [-] Knob.minValue k) = true ->
  (Knob.minValue k [<=] Knob.value k) = true ->
  (Knob.value k [<=] Knob.maxValue k) = true ->
  Knob.isDragging (Knob.update k x y true) = true
  /\ Knob.dragStartY (Knob.update k x y true) = of_int y
  /\ Knob.dragStartValue (Knob.update k x y true) = Knob.value k
  /\ binary32 (Knob.value (Knob.update k x y true)) = true
  /\ SFeqb (Knob.value (Knob.update k x y true)) (Knob.value k) = true.
Proof.
  intros Hidle Hin Hy Hv Hmin Hmax Hrange Hlo Hhi.
  unfold Knob.update. rewrite Hin, Hidle. cbn [andb negb Knob.start_drag Knob.isDragging].
  cbn [Knob.set_value Knob.isDragging Knob.dragStartY Knob.dragStartValue Knob.value].
  split; [reflexivity |]. split; [reflexivity |]. split; [reflexivity |].
  apply (proj1 (binary32_le _ _ Hmin Hv)) in Hlo.
  apply (proj1 (binary32_le _ _ Hv Hmax)) in Hhi.
  set (k1 := {| Knob.x := Knob.x k; Knob.y := Knob.y k; Knob.value := Knob.value k;
                Knob.minValue := Knob.minValue k; Knob.maxValue := Knob.maxValue k;
                Knob.label := Knob.label k; Knob.isDragging := true;
                Knob.dragStartY := of_int y; Knob.dragStartValue := Knob.value k |}).
  assert (Hfy : binary32 (of_int y) = true) by (apply binary32_of_int; lia).
  (* deltaY = 0 *)
  destruct (binary32_sub (of_int y) (of_int y) (S754_zero false) (S754_zero false)
              Hfy Hfy eq_refl eq_refl) as [Hd Hdb].
  { b32_value. Lra.lra. }
  (* the sensitivity is a number *)
  set (w := Knob.maxValue k [-] Knob.minValue k) in *.
  assert (Hs : binary32 (w [/] of_int 100) = true).
  { change (of_int (F := spec_float) 100) with (S754_finite false 13107200 (-17)).
    apply (binary32_div w false 13107200 (-17) (SFopp (SFabs w)) (SFabs w) Hrange).
    - rewrite binary32_SFopp, binary32_SFabs. exact Hrange.
    - rewrite binary32_SFabs. exact Hrange.
    - rewrite B2R_SFopp, B2R_SFabs. b32_value.
      destruct (Rle_dec 0 (B2R w)) as [H0 | H0].
      + rewrite Rabs_right by Lra.lra. Lra.lra.
      + rewrite Rabs_left by Lra.lra. Lra.lra. }
  destruct (binary32_mul (of_int y [-] of_int y) (w [/] of_int 100)
              (S754_zero false) (S754_zero false) Hd Hs eq_refl eq_refl) as [Hm Hmb].
  { b32_value. assert (B2R (of_int y [-] of_int y) = 0%R) as -> by Lra.lra. Lra.lra. }
  destruct (binary32_add (Knob.value k) ((of_int y [-] of_int y) [*] (w [/] of_int 100))
              (Knob.value k) (Knob.value k) Hv Hm Hv Hv) as [Ht Htb].
  { b32_value. Lra.lra. }
  change (Knob.drag_target k1 y)
    with (Knob.value k [+] (of_int y [-] of_int y) [*] (w [/] of_int 100)).
  set (t := Knob.value k [+] (of_int y [-] of_int y) [*] (w [/] of_int 100)) in *.
  destruct (binary32_clamp_value k1 t Hmin Hmax Ht) as [Hc Hcv].
  { cbn [Knob.minValue Knob.maxValue k1]. Lra.lra. }
  split; [exact Hc |].
  apply (binary32_eq _ _ Hc Hv). Lra.lra.
Qed.

(** A knob whose range is the whole of binary32: [max - min] overflows, and
    pinching it at its centre takes the value from 440 to the maximum. *)
Lemma drag_start_with_overflowing_range :
  Knob.value wide_knob = of_int 440
  /\ Knob.within_radius wide_knob 150 knobY = true
  /\ Knob.maxValue wide_knob [-] Knob.minValue wide_knob = S754_infinity false
  /\ Knob.value (Knob.update wide_knob 150 knobY true) = Knob.maxValue wide_knob.
Proof. vm_compute. repeat split; reflexivity. Qed.

End KnobStart.

(** ** The callback over a block and over successive blocks *)

Section CallbackBlocks.
Context {F : Type} `{FloatArith F}.
Implicit Types d : SawtoothData F.

Lemma frame_parameters d (i : Z) :
  frequency (frame d i).1 = frequency d
  /\ phaseOffset (frame d i).1 = phaseOffset d
  /\ amplitude (frame d i).1 = amplitude d.
Proof. unfold frame. destruct (Z.rem i 4 =? 0); repeat split; reflexivity. Qed.

Lemma frames_parameters n : forall (i : Z) d,
  frequency (frames n i d).1 = frequency d
  /\ phaseOffset (frames n i d).1 = phaseOffset d
  /\ amplitude (frames n i d).1 = amplitude d.
Proof.
  induction n as [| n IH]; intros i d; simpl; [repeat split; reflexivity |].
  pose proof (frame_parameters d i) as Hf.
  destruct (frame d i) as [d1 e1]. specialize (IH (i + 1) d1).
  destruct (frames n (i + 1) d1) as [d2 e2]. simpl in *.
  destruct IH as (-> & -> & ->). exact Hf.
Qed.

Lemma sawtoothCallback_state d (N : Z) :
  (sawtoothCallback d N).1 = (frames (Z.to_nat N) 0 d).1.
Proof.
  unfold sawtoothCallback. destruct (frames (Z.to_nat N) 0 d). reflexivity.
Qed.

Lemma sawtoothCallback_effects d (N : Z) :
  (sawtoothCallback d N).2 = Acquire :: (frames (Z.to_nat N) 0 d).2 ++ [Release].
Proof.
  unfold sawtoothCallback. destruct (frames (Z.to_nat N) 0 d). reflexivity.
Qed.

Lemma outputs_app (e1 e2 : list (effect F)) :
  outputs (e1 ++ e2) = outputs e1 ++ outputs e2.
Proof. unfold outputs. apply omap_app. Qed.

Lemma buffer_stores_app (e1 e2 : list (effect F)) :
  buffer_stores (e1 ++ e2) = buffer_stores e1 ++ buffer_stores e2.
Proof. unfold buffer_stores. apply omap_app. Qed.

Lemma frame_outputs d (i : Z) :
  outputs (frame d i).2 = [sample_of d; sample_of d].
Proof.
  unfold frame, advance_effects.
  destruct (Z.rem i 4 =? 0); simpl;
    match goal with
    | |- context [if ?c then _ else _] => destruct c
    end; reflexivity.
Qed.

Lemma frame_buffer_stores d (i : Z) :
  buffer_stores (frame d i).2
  = if Z.rem i 4 =? 0 then [(bufferIndex d, sample_of d)] else [].
Proof.
  unfold frame, advance_effects.
  destruct (Z.rem i 4 =? 0); simpl;
    match goal with
    | |- context [if ?c then _ else _] => destruct c
    end; reflexivity.
Qed.

Lemma frames_succ n (i : Z) d :
  frames (S n) i d
  = ((frames n (i + 1) (frame d i).1).1,
     (frame d i).2 ++ (frames n (i + 1) (frame d i).1).2).
Proof.
  simpl. destruct (frame d i) as [d1 e1]. simpl.
  destruct (frames n (i + 1) d1). reflexivity.
Qed.

Lemma frames_snoc n (i : Z) d :
  frames (S n) i d
  = ((frame (frames n i d).1 (i + Z.of_nat n)).1,
     (frames n i d).2 ++ (frame (frames n i d).1 (i + Z.of_nat n)).2).
Proof.
  replace (S n) with (n + 1)%nat by lia. rewrite frames_add.
  destruct (frames n i d) as [d1 e1]. cbn [frames fst snd].
  destruct (frame d1 (i + Z.of_nat n)) as [d2 e2]. simpl.
  rewrite app_nil_r. reflexivity.
Qed.

(** The outputs of a run of frames, two by two. *)
Lemma frames_outputs_lookup n : forall (k : nat) (i : Z) d,
  (k < n)%nat ->
  outputs (frames n i d).2 !! (2 * k)%nat = Some (sample_of (frames k i d).1)
  /\ outputs (frames n i d).2 !! (2 * k + 1)%nat = Some (sample_of (frames k i d).1).
Proof.
  induction n as [| n IH]; intros k i d Hk; [lia |].
  rewrite frames_succ. cbn [snd]. rewrite outputs_app, frame_outputs.
  destruct k as [| k].
  - split; reflexivity.
  - replace (2 * S k)%nat with (S (S (2 * k))) by lia.
    replace (S (S (2 * k)) + 1)%nat with (S (S (2 * k + 1))) by lia.
    cbn [app lookup list_lookup].
    rewrite frames_succ. cbn [fst]. apply IH. lia.
Qed.

Lemma frames_outputs_length n : forall (i : Z) d,
  length (outputs (frames n i d).2) = (2 * n)%nat.
Proof.
  induction n as [| n IH]; intros i d; [reflexivity |].
  rewrite frames_succ. cbn [snd].
  rewrite outputs_app, frame_outputs, length_app, IH. simpl. lia.
Qed.

Lemma outputs_callback d (N : Z) :
  outputs (sawtoothCallback d N).2 = outputs (frames (Z.to_nat N) 0 d).2.
Proof.
  rewrite sawtoothCallback_effects. change (Acquire :: ?e) with ([Acquire (F := F)] ++ e).
  rewrite !outputs_app. simpl. apply app_nil_r.
Qed.

(** X6.  A callback of [N] frames writes [2 * N] output samples, and the
    two samples of frame [i] (left and right channel) are the same: the
    sample generated from the state the first [i] frames leave. *)
Theorem callback_output_is_stereo d (N : Z) :
  0 <= N ->
  length (outputs (sawtoothCallback d N).2) = Z.to_nat (2 * N)
  /\ forall i : nat, Z.of_nat i < N ->
       outputs (sawtoothCallback d N).2 !! (2 * i)%nat
       = Some (sample_of (frames i 0 d).1)
       /\ outputs (sawtoothCallback d N).2 !! (2 * i + 1)%nat
          = Some (sample_of (frames i 0 d).1).
Proof.
  intros HN. rewrite outputs_callback. split.
  - rewrite frames_outputs_length. lia.
  - intros i Hi. apply frames_outputs_lookup. lia.
Qed.

Lemma frame_buffer_length d (i : Z) :
  length (waveBuffer (frame d i).1) = length (waveBuffer d).
Proof.
  unfold frame. destruct (Z.rem i 4 =? 0); simpl; [| reflexivity].
  unfold vec_set. destruct (bufferIndex d <? 0); [reflexivity |].
  apply length_insert.
Qed.

Lemma frames_buffer_length n : forall (i : Z) d,
  length (waveBuffer (frames n i d).1) = length (waveBuffer d).
Proof.
  induction n as [| n IH]; intros i d; [reflexivity |].
  rewrite frames_succ. cbn [fst]. rewrite IH. apply frame_buffer_length.
Qed.

(** X7.  The callback reads the three parameters and never writes them:
    frequency, phase offset and amplitude are after a callback what they
    were before, and the ring buffer keeps its length, whatever the state
    and the number of frames. *)
Theorem callback_keeps_parameters d (N : Z) :
  frequency (sawtoothCallback d N).1 = frequency d
  /\ phaseOffset (sawtoothCallback d N).1 = phaseOffset d
  /\ amplitude (sawtoothCallback d N).1 = amplitude d
  /\ length (waveBuffer (sawtoothCallback d N).1) = length (waveBuffer d).
Proof.
  rewrite sawtoothCallback_state.
  destruct (frames_parameters (Z.to_nat N) 0 d) as (Hf & Hp & Ha).
  repeat split; try assumption. apply frames_buffer_length.
Qed.

Lemma frames_stores_count n : forall d,
  buffer_ok d ->
  Z.of_nat (length (buffer_stores (frames n 0 d).2)) = (Z.of_nat n + 3) / 4
  /\ bufferIndex (frames n 0 d).1
     = (bufferIndex d + (Z.of_nat n + 3) / 4) mod WAVE_SAMPLES.
Proof.
  induction n as [| n IH]; intros d Hok.
  - simpl. destruct Hok as [_ Hc]. unfold cursor_ok in Hc.
    rewrite Z.add_0_r, Z.mod_small by exact Hc. split; reflexivity.
  - destruct (IH d Hok) as [Hcount Hcur].
    pose proof (frames_ok n 0 d Hok) as [_ Hcn]. unfold cursor_ok in Hcn.
    rewrite frames_snoc. cbn [fst snd]. rewrite Z.add_0_l.
    rewrite buffer_stores_app, length_app, frame_buffer_stores.
    assert (Hrem : Z.rem (Z.of_nat n) 4 = Z.of_nat n mod 4)
      by (apply Z.rem_mod_nonneg; lia).
    unfold frame. rewrite Hrem.
    destruct (Z.of_nat n mod 4 =? 0) eqn:E.
    + apply Z.eqb_eq in E. simpl. rewrite rem_WAVE_SAMPLES by lia.
      rewrite Hcur, Zplus_mod_idemp_l.
      assert (Hdiv : (Z.of_nat (S n) + 3) / 4 = (Z.of_nat n + 3) / 4 + 1)
        by (Z.to_euclidean_division_equations; lia).
      rewrite Hdiv. split; [lia | f_equal; lia].
    + apply Z.eqb_neq in E. simpl.
      assert (Hdiv : (Z.of_nat (S n) + 3) / 4 = (Z.of_nat n + 3) / 4)
        by (Z.to_euclidean_division_equations; lia).
      rewrite Hdiv. split; [lia | exact Hcur].
Qed.

(** X8.  Downsampling by four, counted: a callback of [N] frames stores
    [ceil (N / 4)] samples in the ring buffer and leaves the cursor that many
    slots further, modulo 800. *)
Theorem callback_store_count d (N : Z) :
  buffer_ok d ->
  0 <= N ->
  Z.of_nat (length (buffer_stores (sawtoothCallback d N).2)) = (N + 3) / 4
  /\ bufferIndex (sawtoothCallback d N).1
     = (bufferIndex d + (N + 3) / 4) mod WAVE_SAMPLES.
Proof.
  intros Hok HN. rewrite sawtoothCallback_state, sawtoothCallback_effects.
  change (Acquire :: ?e) with ([Acquire (F := F)] ++ e).
  rewrite !buffer_stores_app. simpl. rewrite app_nil_r.
  destruct (frames_stores_count (Z.to_nat N) d Hok) as [Hc Hi].
  rewrite Z2Nat.id in Hc, Hi by exact HN. split; assumption.
Qed.

(** A frame looks at its index modulo 4 only. *)
Lemma frames_index_shift n : forall (i k : Z) d,
  0 <= i -> 0 <= k -> frames n (i + 4 * k) d = frames n i d.
Proof.
  induction n as [| n IH]; intros i k d Hi Hk; [reflexivity |].
  rewrite !frames_succ.
  assert (Hfr : frame d (i + 4 * k) = frame d i).
  { assert (Hrem : Z.rem (i + 4 * k) 4 = Z.rem i 4).
    { rewrite !Z.rem_mod_nonneg by lia.
      replace (i + 4 * k) with (i + k * 4) by lia. apply Z.mod_add. lia. }
    unfold frame. rewrite Hrem. reflexivity. }
  rewrite Hfr. replace (i + 4 * k + 1) with (i + 1 + 4 * k) by lia.
  rewrite IH by lia. reflexivity.
Qed.

(** X9.  Blocks compose when their length is a multiple of four (as the
    256 of the stream is): a callback of [4 * k] frames followed by a
    callback of [M] frames leaves the state, and writes the output samples
    and the buffer stores, of one callback of [4 * k + M] frames. *)
Theorem callbacks_compose d (k M : Z) :
  0 <= k ->
  0 <= M ->
  (sawtoothCallback (sawtoothCallback d (4 * k)).1 M).1
  = (sawtoothCallback d (4 * k + M)).1
  /\ outputs (sawtoothCallback d (4 * k)).2
     ++ outputs (sawtoothCallback (sawtoothCallback d (4 * k)).1 M).2
     = outputs (sawtoothCallback d (4 * k + M)).2
  /\ buffer_stores (sawtoothCallback d (4 * k)).2
     ++ buffer_stores (sawtoothCallback (sawtoothCallback d (4 * k)).1 M).2
     = buffer_stores (sawtoothCallback d (4 * k + M)).2.
Proof.
  intros Hk HM.
  assert (Hsplit : frames (Z.to_nat (4 * k + M)) 0 d
                   = ((frames (Z.to_nat M) 0 (frames (Z.to_nat (4 * k)) 0 d).1).1,
                      (frames (Z.to_nat (4 * k)) 0 d).2
                      ++ (frames (Z.to_nat M) 0 (frames (Z.to_nat (4 * k)) 0 d).1).2)).
  { replace (Z.to_nat (4 * k + M)) with (Z.to_nat (4 * k) + Z.to_nat M)%nat by lia.
    rewrite frames_add. destruct (frames (Z.to_nat (4 * k)) 0 d) as [d1 e1].
    rewrite Z2Nat.id by lia.
    rewrite (frames_index_shift (Z.to_nat M) 0 k d1) by lia.
    cbn [fst snd]. destruct (frames (Z.to_nat M) 0 d1). reflexivity. }
  rewrite !sawtoothCallback_state, !sawtoothCallback_effects, Hsplit.
  cbn [fst snd]. split; [reflexivity |].
  change (Acquire :: ?e) with ([Acquire (F := F)] ++ e).
  rewrite !outputs_app, !buffer_stores_app. simpl. rewrite !app_nil_r.
  split; reflexivity.
Qed.

End CallbackBlocks.

(** ** The oscillator over many frames *)

Section Oscillator.
Implicit Types d : SawtoothData spec_float.

(** X10.  Rounding accumulates: at 441 Hz the period is 100 frames, but in
    binary32 the oscillator started at the phase 1/4 is not back at 1/4
    after 100 frames: its phase is [16777171 * 2^-26], just below 1/4, and
    its sample [- 8388630 * 2^-25] where it was [- 1/4].  The phase is
    still in [0,1). *)
Lemma phase_drifts_over_a_period :
  phase data_441Hz = S754_finite false 8388608 (-25)
  /\ sample_of data_441Hz = S754_finite true 8388608 (-25)
  /\ phase (frames 100 0 data_441Hz).1 = S754_finite false 16777171 (-26)
  /\ sample_of (frames 100 0 data_441Hz).1 = S754_finite true 8388630 (-25)
  /\ in_unit_interval (phase (frames 100 0 data_441Hz).1) = true.
Proof. vm_compute. repeat split; reflexivity. Qed.

Lemma sample_within_amplitude d :
  generator_ok d -> within_amplitude (amplitude d) (sample_of d).
Proof.
  intros ((Hp & Hf & Hu & Hf0 & Hf1) & Ho & Ha & Ho1 & Ho2).
  destruct (binary32_adjustedPhase d Hp Ho Hu Ho1 Ho2) as (_ & HA & HAb & _).
  destruct (binary32_sample_range (adjustedPhase d) (amplitude d) HA Ha HAb)
    as [Hv Hvb].
  change ((of_int 2 [*] adjustedPhase d [-] of_int 1) [*] amplitude d)
    with (sample_of d) in Hv, Hvb.
  assert (Habs : binary32 (SFabs (amplitude d)) = true)
    by (rewrite binary32_SFabs; exact Ha).
  assert (Hnabs : binary32 (SFopp (SFabs (amplitude d))) = true)
    by (rewrite binary32_SFopp; exact Habs).
  split; [exact Hv |].
  split; [apply (binary32_le _ _ Hnabs Hv) | apply (binary32_le _ _ Hv Habs)];
    apply Hvb.
Qed.

Lemma frame_generator_ok d (i : Z) : generator_ok d -> generator_ok (frame d i).1.
Proof.
  intros (Hosc & Ho & Ha & Ho1 & Ho2).
  destruct (frame_advance d i) as (_ & _ & Hoff & Hamp).
  unfold generator_ok. rewrite Hoff, Hamp.
  split; [apply frame_oscillator_ok; exact Hosc |]. repeat split; assumption.
Qed.

Lemma frames_within_amplitude (n : nat) : forall (i : Z) d,
  generator_ok d ->
  Forall (within_amplitude (amplitude d)) (outputs (frames n i d).2)
  /\ Forall (fun iv => within_amplitude (amplitude d) iv.2)
            (buffer_stores (frames n i d).2).
Proof.
  induction n as [| n IH]; intros i d Hok; [split; constructor |].
  rewrite frames_succ. cbn [snd].
  rewrite outputs_app, buffer_stores_app, frame_outputs, frame_buffer_stores.
  destruct (frame_advance d i) as (_ & _ & _ & Hamp).
  destruct (IH (i + 1) (frame d i).1 (frame_generator_ok d i Hok)) as [Ho Hs].
  rewrite Hamp in Ho, Hs.
  pose proof (sample_within_amplitude d Hok) as Hb.
  split.
  - repeat (constructor; [exact Hb |]). exact Ho.
  - destruct (Z.rem i 4 =? 0); [constructor; [exact Hb | exact Hs] | exact Hs].
Qed.

(** X11.  No sample is louder than the amplitude, in binary32: with a
    phase in [0,1), a frequency between 0 and the sample rate, an offset in
    [[-1, 1]] and an amplitude [a], all of them numbers, every sample a
    callback writes to the output, and every sample it stores in the ring
    buffer, is a number in [[-|a|, |a|]]. *)
Theorem callback_samples_within_amplitude d (N : Z) :
  binary32 (phase d) = true -> binary32 (frequency d) = true ->
  binary32 (phaseOffset d) = true -> binary32 (amplitude d) = true ->
  in_unit_interval (phase d) = true ->
  (of_int 0 [<] frequency d) = true ->
  (frequency d [<] of_int SAMPLE_RATE) = true ->
  (of_int (-1) [<=] phaseOffset d) = true ->
  (phaseOffset d [<=] of_int 1) = true ->
  Forall (within_amplitude (amplitude d)) (outputs (sawtoothCallback d N).2)
  /\ Forall (fun iv => within_amplitude (amplitude d) iv.2)
            (buffer_stores (sawtoothCallback d N).2).
Proof.
  intros Hp Hf Ho Ha Hu Hf0 Hf1 Ho1 Ho2.
  assert (Hok : generator_ok d) by (repeat split; assumption).
  rewrite outputs_callback, sawtoothCallback_effects.
  change (Acquire :: ?e) with ([Acquire (F := spec_float)] ++ e).
  rewrite !buffer_stores_app. simpl. rewrite app_nil_r.
  apply frames_within_amplitude. exact Hok.
Qed.

End Oscillator.

(** ** The ring buffer as a sliding window *)

Section SlidingWindow.
Context {F : Type} `{FloatArith F}.
Implicit Types (d : SawtoothData F) (l : list F).

Lemma snapshot_length d : length (snapshot d) = Z.to_nat WAVE_SAMPLES.
Proof. unfold snapshot. rewrite length_fmap. apply length_seqZ. Qed.

Lemma snapshot_lookup d (j : nat) :
  Z.of_nat j < WAVE_SAMPLES ->
  snapshot d !! j
  = Some (vec_get (waveBuffer d) (Z.rem (bufferIndex d + Z.of_nat j) WAVE_SAMPLES)).
Proof.
  intros Hj. unfold snapshot.
  rewrite list_lookup_fmap, lookup_seqZ_lt by exact Hj. reflexivity.
Qed.

Lemma vec_get_insert (v : list F) (i j : Z) (a : F) :
  0 <= i -> 0 <= j ->
  vec_get (<[Z.to_nat i := a]> v) j
  = if decide (i = j /\ j < Z.of_nat (length v)) then a else vec_get v j.
Proof.
  intros Hi Hj. unfold vec_get.
  destruct (j <? 0) eqn:E; [apply Z.ltb_lt in E; lia |].
  destruct (decide (i = j /\ j < Z.of_nat (length v))) as [[-> Hlt] | Hn].
  - rewrite list_lookup_insert_eq by lia. reflexivity.
  - destruct (decide (i = j)) as [-> | Hne].
    + rewrite !lookup_ge_None_2; [reflexivity | lia |].
      rewrite length_insert. lia.
    + rewrite list_lookup_insert_ne by lia. reflexivity.
Qed.

(** One write moves the window by one sample. *)
Lemma snapshot_ring_write d (a : F) :
  buffer_ok d -> snapshot (ring_write d a) = drop 1 (snapshot d) ++ [a].
Proof.
  intros [Hlen Hc]. unfold cursor_ok in Hc. apply list_eq. intros j.
  destruct (decide (Z.of_nat j < WAVE_SAMPLES)) as [Hj | Hj].
  - rewrite snapshot_lookup by exact Hj. cbn [ring_write waveBuffer bufferIndex].
    unfold vec_set. destruct (bufferIndex d <? 0) eqn:E;
      [apply Z.ltb_lt in E; lia |].
    pose proof (Z.mod_pos_bound (bufferIndex d + 1) WAVE_SAMPLES eq_refl) as Hm1.
    rewrite (rem_WAVE_SAMPLES (bufferIndex d + 1)) by lia.
    rewrite rem_WAVE_SAMPLES by lia.
    rewrite Zplus_mod_idemp_l.
    pose proof (Z.mod_pos_bound (bufferIndex d + 1 + Z.of_nat j) WAVE_SAMPLES
                  eq_refl) as Hm2.
    rewrite vec_get_insert by lia.
    destruct (decide (Z.of_nat j = WAVE_SAMPLES - 1)) as [Hlast | Hmid].
    + rewrite lookup_app_r
        by (rewrite length_drop, snapshot_length; unfold WAVE_SAMPLES in *; lia).
      rewrite length_drop, snapshot_length.
      replace (j - (Z.to_nat WAVE_SAMPLES - 1))%nat with 0%nat
        by (unfold WAVE_SAMPLES in *; lia).
      simpl. f_equal. apply decide_True. unfold WAVE_SAMPLES in *. split.
      * Z.to_euclidean_division_equations. lia.
      * Z.to_euclidean_division_equations. lia.
    + rewrite lookup_app_l
        by (rewrite length_drop, snapshot_length; unfold WAVE_SAMPLES in *; lia).
      rewrite lookup_drop, snapshot_lookup by (unfold WAVE_SAMPLES in *; lia).
      f_equal. rewrite decide_False.
      * rewrite rem_WAVE_SAMPLES by lia. f_equal. f_equal. lia.
      * intros [Heq _]. unfold WAVE_SAMPLES in *.
        Z.to_euclidean_division_equations. lia.
  - rewrite !lookup_ge_None_2; [reflexivity | |].
    + rewrite length_app, length_drop, snapshot_length. simpl.
      unfold WAVE_SAMPLES in *. lia.
    + rewrite snapshot_length. unfold WAVE_SAMPLES in *. lia.
Qed.

(** X12.  The buffer is a sliding window over the samples written: one
    write drops the oldest sample of the snapshot and appends the new one;
    any number of writes leaves the last 800 of "old snapshot, then the
    samples written", so after 800 or more writes the snapshot is the 800
    most recent samples, oldest first. *)
Theorem snapshot_is_sliding_window l d :
  buffer_ok d ->
  snapshot (write_all l d) = drop (length l) (snapshot d ++ l)
  /\ ((Z.to_nat WAVE_SAMPLES <= length l)%nat ->
      snapshot (write_all l d) = drop (length l - Z.to_nat WAVE_SAMPLES) l).
Proof.
  intros Hok.
  assert (Hgen : forall l d, buffer_ok d ->
            snapshot (write_all l d) = drop (length l) (snapshot d ++ l)).
  { clear l d Hok. induction l as [| a l IH]; intros d Hok.
    - cbn [write_all fold_left length drop]. rewrite app_nil_r. reflexivity.
    - change (write_all (a :: l) d) with (write_all l (ring_write d a)).
      rewrite IH by (apply ring_write_ok; exact Hok).
      rewrite snapshot_ring_write by exact Hok.
      pose proof (snapshot_length d) as Hlen.
      destruct (snapshot d) as [| s0 ss] eqn:Es; [simpl in Hlen; discriminate |].
      simpl. rewrite <- app_assoc. reflexivity. }
  split; [apply Hgen; exact Hok |].
  intros Hlong. rewrite Hgen by exact Hok.
  rewrite drop_app_ge by (rewrite snapshot_length; exact Hlong).
  rewrite snapshot_length. reflexivity.
Qed.

Lemma vec_get_snapshot d (j : Z) :
  0 <= j < WAVE_SAMPLES ->
  vec_get (snapshot d) j
  = vec_get (waveBuffer d) (Z.rem (bufferIndex d + j) WAVE_SAMPLES).
Proof.
  intros Hj. apply vec_get_lookup; [lia |].
  rewrite snapshot_lookup by lia. rewrite Z2Nat.id by lia. reflexivity.
Qed.

(** X13.  What is drawn is the snapshot: [drawWaveform] draws the polyline
    through the samples of the snapshot, in 799 segments, and the polyline
    is connected: each segment starts at the point where the one before it
    ends. *)
Theorem drawWaveform_draws_the_snapshot d :
  drawWaveform d = polyline (snapshot d)
  /\ length (drawWaveform d) = 799%nat
  /\ forall (i : nat) (a b : Z * Z * Z * Z),
       drawWaveform d !! i = Some a ->
       drawWaveform d !! S i = Some b ->
       (a.1.2, a.2) = (b.1.1.1, b.1.1.2).
Proof.
  split; [| split].
  - unfold drawWaveform, polyline.
    apply Forall_fmap_ext, Forall_seqZ. intros i Hi. unfold segment.
    rewrite <- Z.add_assoc.
    rewrite !vec_get_snapshot by (unfold WAVE_SAMPLES in *; lia).
    reflexivity.
  - unfold drawWaveform. rewrite length_fmap, length_seqZ. reflexivity.
  - intros i a b Ha Hb. unfold drawWaveform in Ha, Hb.
    rewrite list_lookup_fmap in Ha, Hb.
    destruct (seqZ 0 (WAVE_SAMPLES - 1) !! i) as [zi |] eqn:Ei; [| discriminate].
    destruct (seqZ 0 (WAVE_SAMPLES - 1) !! S i) as [zs |] eqn:Es; [| discriminate].
    apply lookup_seqZ in Ei as [-> _]. apply lookup_seqZ in Es as [-> _].
    simpl in Ha, Hb. inversion Ha; subst a. inversion Hb; subst b.
    unfold segment. simpl.
    replace (0 + Z.of_nat (S i)) with (0 + Z.of_nat i + 1) by lia.
    replace (bufferIndex d + (0 + Z.of_nat i + 1))
      with (bufferIndex d + (0 + Z.of_nat i) + 1) by lia.
    reflexivity.
Qed.

End SlidingWindow.

Section WaveArea.

(** The height of a sample between -1 and 1: [sample * 192] is in
    [[-192, 192]] and [240 - sample * 192] in [[48, 432]], whatever the
    rounding, and so is its integer part. *)
Lemma binary32_pixel_y (v : spec_float) :
  binary32 v = true ->
  (of_int (-1) [<=] v) = true -> (v [<=] of_int 1) = true ->
  48 <= pixel_y v <= 432.
Proof.
  intros Hv Hlo Hhi. unfold pixel_y.
  change (of_int (F := spec_float) centerY) with (S754_finite false 15728640 (-16)).
  change (of_int (F := spec_float) (scaleY (F := spec_float)))
    with (S754_finite false 12582912 (-16)).
  change (of_int (F := spec_float) (-1)) with (S754_finite true 8388608 (-23)) in *.
  change (of_int (F := spec_float) 1) with (S754_finite false 8388608 (-23)) in *.
  apply (proj1 (binary32_le (S754_finite true 8388608 (-23)) _ eq_refl Hv)) in Hlo.
  apply (proj1 (binary32_le _ (S754_finite false 8388608 (-23)) Hv eq_refl)) in Hhi.
  destruct (binary32_mul v (S754_finite false 12582912 (-16))
              (S754_finite true 12582912 (-16)) (S754_finite false 12582912 (-16))
              Hv eq_refl eq_refl eq_refl) as [H1 H1b].
  { b32_value. Lra.lra. }
  set (t := v [*] S754_finite false 12582912 (-16)) in *.
  destruct (binary32_sub (S754_finite false 15728640 (-16)) t
              (S754_finite false 12582912 (-18)) (S754_finite false 14155776 (-15))
              eq_refl H1 eq_refl eq_refl) as [H2 H2b].
  { b32_value. Lra.lra. }
  set (y := S754_finite false 15728640 (-16) [-] t) in *.
  destruct (ftrunc_spec y H2) as [Hpos _]. b32_value.
  destruct (Hpos ltac:(Lra.lra)) as [[Ht1 Ht2] _].
  assert (Hlow : 48 < ftrunc y + 1) by (apply lt_IZR; rewrite plus_IZR; Lra.lra).
  assert (Hupp : ftrunc y <= 432) by (apply le_IZR; Lra.lra).
  lia.
Qed.

(** X14.  The waveform stays in its area, in binary32: whenever every
    sample in the buffer is a number in [[-1, 1]] (as every sample
    generated with an amplitude of at most 1 is), each line [drawWaveform]
    draws has its x coordinates in [0, 999] and its y coordinates in
    [48, 432], inside the 1000 by 480 area above the control panel. *)
Theorem waveform_stays_in_its_area (d : SawtoothData spec_float) :
  buffer_ok d ->
  Forall (fun v => binary32 v = true
                   /\ (of_int (-1) [<=] v) = true /\ (v [<=] of_int 1) = true)
         (waveBuffer d) ->
  Forall (fun s : Z * Z * Z * Z =>
            0 <= s.1.1.1 <= 999 /\ 0 <= s.1.2 <= 999
            /\ 48 <= s.1.1.2 <= 432 /\ 48 <= s.2 <= 432)
         (drawWaveform d).
Proof.
  intros [Hlen Hc] Hall. unfold cursor_ok in Hc.
  assert (Hget : forall j : Z, 0 <= j < WAVE_SAMPLES ->
            48 <= pixel_y (vec_get (waveBuffer d) j) <= 432).
  { intros j Hj.
    destruct (waveBuffer d !! Z.to_nat j) as [v |] eqn:E.
    - rewrite (vec_get_lookup _ j v) by (lia || exact E).
      rewrite Forall_lookup in Hall. destruct (Hall _ _ E) as (Hv & Hlo & Hhi).
      apply binary32_pixel_y; assumption.
    - apply lookup_ge_None in E. lia. }
  unfold drawWaveform. rewrite Forall_fmap. apply Forall_seqZ.
  intros i Hi. unfold segment. simpl.
  unfold WAVE_SAMPLES in *.
  assert (Hr1 : 0 <= Z.rem (bufferIndex d + i) 800 < 800)
    by (rewrite Z.rem_mod_nonneg by lia; apply Z.mod_pos_bound; lia).
  assert (Hr2 : 0 <= Z.rem (bufferIndex d + i + 1) 800 < 800)
    by (rewrite Z.rem_mod_nonneg by lia; apply Z.mod_pos_bound; lia).
  unfold pixel_x, WINDOW_WIDTH, WAVE_SAMPLES.
  repeat split; try (apply Hget; unfold WAVE_SAMPLES; assumption);
    Z.to_euclidean_division_equations; lia.
Qed.

End WaveArea.

(** ** The listener over a stream of datagrams *)

Section Listener.

(** What a datagram does, read off the values parsed from it. *)
Lemma udp_receive_values (p : PointerSignal) (datagram : string) :
  udp_receive p datagram =
    match (Scan.sscanf_ddd (c_string (recv datagram).2)).2 with
    | x :: y :: more =>
        {| handX := x; handY := y; handPinch := (nth 0 more 0 =? 1) |}
    | _ => p
    end.
Proof.
  unfold udp_receive. pose proof (recv_length datagram) as Hlen.
  destruct (recv datagram) as [len buf]. simpl in Hlen. cbn [snd].
  pose proof (run_result Scan.format_ddd (c_string buf) []) as Hr.
  fold (Scan.sscanf_ddd (c_string buf)) in Hr.
  destruct (0 <? len) eqn:Epos.
  - destruct (Scan.sscanf_ddd (c_string buf)) as [ret vals]. simpl in *.
    destruct Hr as [-> | [-> ->]]; [| reflexivity].
    destruct vals as [| x [| y more]]; try reflexivity.
    assert (Hret : (2 <=? Scan.count (x :: y :: more)) = true)
      by (apply Z.leb_le; unfold Scan.count; simpl length; lia).
    rewrite Hret. destruct more; reflexivity.
  - assert (buf = EmptyString) as ->.
    { apply Z.ltb_ge in Epos. destruct buf; [reflexivity | simpl in Hlen; lia]. }
    reflexivity.
Qed.

Lemma c_string_substring_nul (a : string) : forall (n : nat) (extra : string),
  c_string (String.substring 0 n (a ++ String Ascii.zero extra))
  = c_string (String.substring 0 n a).
Proof.
  induction a as [| c a IH]; intros n extra; destruct n as [| n]; simpl;
    try reflexivity.
  destruct (Ascii.eqb c Ascii.zero); [reflexivity |]. rewrite IH. reflexivity.
Qed.

Lemma substring_app_long (a : string) : forall (n : nat) (extra : string),
  (n <= String.length a)%nat ->
  String.substring 0 n (a ++ extra) = String.substring 0 n a.
Proof.
  induction a as [| c a IH]; intros n extra Hn; destruct n as [| n]; simpl in *;
    try reflexivity; try lia.
  - destruct extra; reflexivity.
  - rewrite IH by lia. reflexivity.
Qed.

(** X15.  Only the text before the first NUL among the first 63 bytes of a
    datagram counts: whatever follows a NUL byte, and whatever follows the
    63rd byte, has no effect on the pointer signal. *)
Theorem datagram_tail_is_ignored (p : PointerSignal) (datagram extra : string) :
  udp_receive p (datagram ++ String Ascii.zero extra) = udp_receive p datagram
  /\ ((63 <= String.length datagram)%nat ->
      udp_receive p (datagram ++ extra) = udp_receive p datagram).
Proof.
  split.
  - rewrite !udp_receive_values. unfold recv. cbn [snd].
    rewrite c_string_substring_nul. reflexivity.
  - intros Hlong. rewrite !udp_receive_values. unfold recv. cbn [snd].
    rewrite substring_app_long by exact Hlong. reflexivity.
Qed.

Lemma udp_receive_well_formed (p q : PointerSignal) (datagram : string) :
  well_formed datagram = true -> udp_receive p datagram = udp_receive q datagram.
Proof.
  unfold well_formed. intros Hwf. rewrite !udp_receive_values.
  destruct (Scan.sscanf_ddd (c_string (recv datagram).2)).2 as [| x [| y more]];
    simpl in Hwf; try discriminate. reflexivity.
Qed.

Lemma udp_receive_malformed (p : PointerSignal) (datagram : string) :
  well_formed datagram = false -> udp_receive p datagram = p.
Proof.
  unfold well_formed. intros Hwf. rewrite udp_receive_values.
  destruct (Scan.sscanf_ddd (c_string (recv datagram).2)).2 as [| x [| y more]];
    simpl in Hwf; try discriminate; reflexivity.
Qed.

(** X16.  The most recent well-formed datagram wins: after any sequence of
    datagrams the pointer signal is the one the last well-formed datagram
    sets, whatever came before it and whatever malformed datagrams came
    after it; it is the initial signal when none was well formed. *)
Theorem last_well_formed_datagram_wins (datagrams : list string) :
  udpListener datagrams =
    match last (List.filter well_formed datagrams) with
    | Some datagram => udp_receive PointerSignal_init datagram
    | None => PointerSignal_init
    end.
Proof.
  unfold udpListener.
  induction datagrams as [| dg datagrams IH] using rev_ind; [reflexivity |].
  rewrite fold_left_app, List.filter_app. simpl.
  destruct (well_formed dg) eqn:Ewf.
  - rewrite last_snoc. apply udp_receive_well_formed. exact Ewf.
  - rewrite app_nil_r, udp_receive_malformed by exact Ewf. exact IH.
Qed.

Lemma to_int_is_int (n : Z) : is_int (Scan.to_int n).
Proof.
  unfold is_int, Scan.to_int.
  pose proof (Z.mod_pos_bound
                (Z.max (- 2 ^ 63) (Z.min (2 ^ 63 - 1) n) + 2 ^ 31) (2 ^ 32)
                eq_refl). lia.
Qed.

Lemma to_int_id (n : Z) : is_int n -> Scan.to_int n = n.
Proof.
  unfold is_int, Scan.to_int. intros Hn.
  rewrite Z.max_r, Z.min_r by lia. rewrite Z.mod_small by lia. lia.
Qed.

Lemma scan_int_is_int (s : string) (v : Z) (rest : string) :
  Scan.scan_int s = Scan.Converted v rest -> is_int v.
Proof.
  unfold Scan.scan_int. destruct (Scan.skip_space s) as [| c r]; [discriminate |].
  destruct (if Ascii.eqb c "-" then (true, r)
            else if Ascii.eqb c "+" then (false, r) else (false, String c r))
    as [negative s1].
  destruct s1 as [| c1 r1]; [discriminate |].
  destruct (Scan.isdigit c1); [| discriminate].
  destruct (Scan.digits (String c1 r1) 0) as [n rest'].
  intros Heq. inversion Heq. apply to_int_is_int.
Qed.

Lemma run_is_int (fmt : list Scan.directive) : forall (s : string) (vals : list Z),
  Forall is_int vals -> Forall is_int (Scan.run fmt s vals).2.
Proof.
  induction fmt as [| dir fmt IH]; intros s vals Hv; simpl; [exact Hv |].
  destruct dir as [| c].
  - destruct (Scan.scan_int s) as [v rest | |] eqn:E; try exact Hv.
    apply IH. apply Forall_app. split; [exact Hv |].
    constructor; [| constructor]. exact (scan_int_is_int s v rest E).
  - destruct s as [| c' rest]; [exact Hv |].
    destruct (Ascii.eqb c c'); [apply IH; exact Hv | exact Hv].
Qed.

(** Whatever datagrams arrive, [handX] and [handY] hold values of an
    [int]. *)
Lemma pointer_coordinates_are_ints (datagrams : list string) :
  is_int (handX (udpListener datagrams)) /\ is_int (handY (udpListener datagrams)).
Proof.
  unfold udpListener.
  induction datagrams as [| dg datagrams IH] using rev_ind.
  - split; unfold is_int; simpl; lia.
  - rewrite fold_left_app. simpl. rewrite udp_receive_values.
    pose proof (run_is_int Scan.format_ddd (c_string (recv dg).2) []
                  (Forall_nil_2 _)) as Hr.
    fold (Scan.sscanf_ddd (c_string (recv dg).2)) in Hr.
    destruct (Scan.sscanf_ddd (c_string (recv dg).2)).2 as [| x [| y more]];
      try exact IH.
    inversion Hr as [| ? ? Hx Hr']; subst. inversion Hr' as [| ? ? Hy _]; subst.
    split; assumption.
Qed.

End Listener.

(** ** The listener reads back what a sender prints *)

Section DecimalRoundTrip.

Lemma digits_uint_acc (u : Decimal.uint) : forall (acc : positive) (rest : string),
  starts_without_digit rest ->
  Scan.digits (NilEmpty.string_of_uint u ++ rest) (Zpos acc)
  = (Zpos (Pos.of_uint_acc u acc), rest).
Proof.
  induction u; intros acc rest Hrest;
    try (cbn [NilEmpty.string_of_uint String.append Scan.digits];
         change (Scan.isdigit _) with true; cbv iota;
         cbn [Pos.of_uint_acc]; rewrite <- IHu by exact Hrest;
         f_equal; unfold Scan.code; simpl; lia).
  simpl. destruct rest as [| c r]; [reflexivity |].
  simpl in Hrest. simpl. rewrite Hrest. reflexivity.
Qed.

Lemma digits_uint (u : Decimal.uint) : forall rest : string,
  starts_without_digit rest ->
  Scan.digits (NilEmpty.string_of_uint u ++ rest) 0
  = (Z.of_N (Pos.of_uint u), rest).
Proof.
  induction u; intros rest Hrest;
    try (cbn [NilEmpty.string_of_uint String.append Scan.digits];
         change (Scan.isdigit _) with true; cbv iota;
         cbn [Pos.of_uint Z.of_N]; rewrite <- digits_uint_acc by exact Hrest;
         reflexivity).
  - simpl. destruct rest as [| c r]; [reflexivity |].
    simpl in Hrest. simpl. rewrite Hrest. reflexivity.
  - cbn [NilEmpty.string_of_uint String.append Scan.digits].
    change (Scan.isdigit _) with true. cbv iota. cbn [Pos.of_uint].
    apply IHu. exact Hrest.
Qed.

(** The printed digits of a positive number, read back by [%d]. *)
Lemma scan_int_uint (p : positive) (rest : string) :
  starts_without_digit rest ->
  Scan.scan_int (NilEmpty.string_of_uint (Pos.to_uint p) ++ rest)
  = Scan.Converted (Scan.to_int (Zpos p)) rest
  /\ Scan.scan_int (String "-" (NilEmpty.string_of_uint (Pos.to_uint p) ++ rest))
     = Scan.Converted (Scan.to_int (Zneg p)) rest.
Proof.
  intros Hrest.
  pose proof (DecimalPos.Unsigned.of_to p) as Hof.
  pose proof (DecimalPos.Unsigned.to_uint_nonnil p) as Hnil.
  pose proof (digits_uint (Pos.to_uint p) rest Hrest) as Hd.
  rewrite Hof in Hd.
  destruct (Pos.to_uint p) as [| u | u | u | u | u | u | u | u | u | u];
    [congruence | ..];
    (split;
     [ unfold Scan.scan_int;
       cbn [NilEmpty.string_of_uint String.append Scan.skip_space];
       change (Scan.isspace _) with false; cbv iota;
       change (Ascii.eqb _ "-") with false; change (Ascii.eqb _ "+") with false;
       cbv iota; change (Scan.isdigit _) with true; cbv iota;
       cbn [NilEmpty.string_of_uint String.append] in Hd; rewrite Hd;
       reflexivity
     | unfold Scan.scan_int; cbn [Scan.skip_space];
       change (Scan.isspace "-") with false; cbv iota;
       change (Ascii.eqb "-" "-") with true; cbv iota;
       cbn [NilEmpty.string_of_uint String.append];
       change (Scan.isdigit _) with true; cbv iota;
       cbn [NilEmpty.string_of_uint String.append] in Hd; rewrite Hd;
       reflexivity ]).
Qed.

Lemma scan_int_show_int (z : Z) (rest : string) :
  starts_without_digit rest ->
  Scan.scan_int (show_int z ++ rest) = Scan.Converted (Scan.to_int z) rest.
Proof.
  intros Hrest. unfold show_int.
  destruct z as [| p | p]; cbn [Z.to_int NilZero.string_of_int].
  - simpl. destruct rest as [| c r]; [reflexivity |].
    simpl in Hrest. unfold Scan.scan_int. simpl. rewrite Hrest. reflexivity.
  - pose proof (DecimalPos.Unsigned.to_uint_nonnil p) as Hnil.
    unfold NilZero.string_of_uint.
    destruct (Pos.to_uint p) eqn:E; [congruence | ..]; rewrite <- E;
      apply scan_int_uint; exact Hrest.
  - pose proof (DecimalPos.Unsigned.to_uint_nonnil p) as Hnil.
    unfold NilZero.string_of_uint.
    destruct (Pos.to_uint p) eqn:E; [congruence | ..]; rewrite <- E;
      apply scan_int_uint; exact Hrest.
Qed.

Lemma c_string_uint (u : Decimal.uint) (rest : string) :
  c_string (NilEmpty.string_of_uint u ++ rest)
  = (NilEmpty.string_of_uint u ++ c_string rest)%string.
Proof.
  induction u; cbn [NilEmpty.string_of_uint String.append c_string];
    try (change (Ascii.eqb _ Ascii.zero) with false; cbv iota; rewrite IHu);
    reflexivity.
Qed.

Lemma c_string_show_int (z : Z) (rest : string) :
  c_string (show_int z ++ rest) = (show_int z ++ c_string rest)%string.
Proof.
  unfold show_int. destruct z as [| p | p];
    cbn [Z.to_int NilZero.string_of_int]; unfold NilZero.string_of_uint.
  - reflexivity.
  - destruct (Pos.to_uint p) eqn:E; try reflexivity; rewrite <- E;
      apply c_string_uint.
  - destruct (Pos.to_uint p) eqn:E; try reflexivity; rewrite <- E;
      cbn [String.append c_string];
      change (Ascii.eqb "-" Ascii.zero) with false; cbv iota;
      rewrite c_string_uint; reflexivity.
Qed.

Lemma substring_all (s : string) : forall n : nat,
  (String.length s <= n)%nat -> String.substring 0 n s = s.
Proof.
  induction s as [| c s IH]; intros n Hn; destruct n as [| n]; simpl in *;
    try reflexivity; try lia.
  rewrite IH by lia. reflexivity.
Qed.

(** X17.  The listener reads back what a sender prints: for [int] values
    [x] and [y] and a pinch flag, the datagram made of their decimal texts
    separated by commas, when it fits the 63 bytes of the buffer, sets the
    pointer signal to exactly [x], [y] and the flag. *)
Theorem printed_reading_is_read_back (p : PointerSignal) (x y : Z) (pinch : bool) :
  is_int x ->
  is_int y ->
  (String.length (packet x y pinch) <= 63)%nat ->
  udp_receive p (packet x y pinch)
  = {| handX := x; handY := y; handPinch := pinch |}.
Proof.
  intros Hx Hy Hlen. rewrite udp_receive_values. unfold recv. cbn [snd].
  rewrite substring_all by exact Hlen. unfold packet.
  rewrite c_string_show_int. cbn [String.append c_string].
  change (Ascii.eqb "," Ascii.zero) with false. cbv iota.
  rewrite c_string_show_int.
  destruct pinch;
    match goal with
    | |- context [c_string ?t] =>
        let t' := eval vm_compute in (c_string t) in
        change (c_string t) with t'
    end;
    unfold Scan.sscanf_ddd, Scan.format_ddd; cbn [Scan.run];
    rewrite scan_int_show_int by reflexivity;
    cbn [app]; change (Ascii.eqb "," ",") with true; cbv iota;
    rewrite scan_int_show_int by reflexivity;
    rewrite !to_int_id by assumption;
    reflexivity.
Qed.

End DecimalRoundTrip.

(** ** The circles of the knob *)

Section Circles.

(** A point is drawn by [drawCircle] exactly when it is in the disc and
    right of its leftmost column and below its topmost row. *)
Lemma drawCircle_In (centerX centerY radius px py : Z) :
  In (px, py) (drawCircle centerX centerY radius)
  <-> (px - centerX) * (px - centerX) + (py - centerY) * (py - centerY)
      <= radius * radius
      /\ - radius < px - centerX /\ - radius < py - centerY.
Proof.
  unfold drawCircle. rewrite in_flat_map. split.
  - intros (w & Hw & Hin). apply in_flat_map in Hin as (h & Hh & Hin).
    apply list_elem_of_In, elem_of_seqZ in Hw.
    apply list_elem_of_In, elem_of_seqZ in Hh.
    destruct ((radius - w) * (radius - w) + (radius - h) * (radius - h)
              <=? radius * radius) eqn:E; [| destruct Hin].
    apply Z.leb_le in E. destruct Hin as [Heq | []].
    inversion Heq; subst px py.
    replace (centerX + (radius - w) - centerX) with (radius - w) by lia.
    replace (centerY + (radius - h) - centerY) with (radius - h) by lia.
    split; [exact E | lia].
  - intros (Hdisc & Hx & Hy).
    set (dx := px - centerX) in *. set (dy := py - centerY) in *.
    assert (Hsx : dx * dx <= radius * radius) by nia.
    assert (Hsy : dy * dy <= radius * radius) by nia.
    assert (Hbx : dx <= radius).
    { destruct (Z_le_gt_dec dx radius) as [Hle | Hgt]; [exact Hle |].
      destruct (Z_le_gt_dec 0 radius); nia. }
    assert (Hby : dy <= radius).
    { destruct (Z_le_gt_dec dy radius) as [Hle | Hgt]; [exact Hle |].
      destruct (Z_le_gt_dec 0 radius); nia. }
    unfold dx, dy in *. clear dx dy Hsx Hsy.
    exists (radius - (px - centerX)). split.
    + apply list_elem_of_In, elem_of_seqZ. lia.
    + apply in_flat_map. exists (radius - (py - centerY)). split.
      * apply list_elem_of_In, elem_of_seqZ. lia.
      * replace (radius - (radius - (px - centerX))) with (px - centerX) by lia.
        replace (radius - (radius - (py - centerY))) with (py - centerY) by lia.
        apply Z.leb_le in Hdisc. rewrite Hdisc. left. f_equal; lia.
Qed.

Lemma drawCircle_NoDup (centerX centerY radius : Z) :
  NoDup (drawCircle centerX centerY radius).
Proof.
  unfold drawCircle.
  assert (Hbind : forall (A B : Type) (f : A -> list B) (l : list A),
            List.flat_map f l = l ≫= f).
  { intros A B f l. induction l as [| a l IH]; [reflexivity |].
    simpl. rewrite IH. reflexivity. }
  rewrite Hbind. apply NoDup_bind.
  - intros w1 w2 pt _ _ H1 H2. rewrite Hbind in H1, H2.
    apply list_elem_of_bind in H1 as (h1 & H1 & _).
    apply list_elem_of_bind in H2 as (h2 & H2 & _).
    destruct (_ <=? _) in H1; [| inversion H1].
    destruct (_ <=? _) in H2; [| inversion H2].
    apply list_elem_of_singleton in H1, H2. subst pt. inversion H2. lia.
  - intros w _. rewrite Hbind. apply NoDup_bind.
    + intros h1 h2 pt _ _ H1 H2.
      destruct (_ <=? _) in H1; [| inversion H1].
      destruct (_ <=? _) in H2; [| inversion H2].
      apply list_elem_of_singleton in H1, H2. subst pt. inversion H2. lia.
    + intros h _. destruct (_ <=? _); [apply NoDup_singleton | apply NoDup_nil_2].
    + apply NoDup_seqZ.
  - apply NoDup_seqZ.
Qed.

(** X18.  [drawCircle] fills a disc and draws each point once: a point is
    drawn exactly when its offset [(dx, dy)] from the centre satisfies
    [dx^2 + dy^2 <= radius^2] with [dx > -radius] and [dy > -radius] (the
    loops start one step inside on the left and on top, so the leftmost and
    topmost points of the disc are left out), and no point is drawn twice. *)
Theorem drawCircle_is_a_disc (centerX centerY radius : Z) :
  (forall px py : Z,
     In (px, py) (drawCircle centerX centerY radius)
     <-> (px - centerX) * (px - centerX) + (py - centerY) * (py - centerY)
         <= radius * radius
         /\ - radius < px - centerX /\ - radius < py - centerY)
  /\ NoDup (drawCircle centerX centerY radius).
Proof.
  split.
  - intros px py. apply drawCircle_In.
  - apply drawCircle_NoDup.
Qed.

Lemma outline_step_invariant (radius : Z) (s : outline_state) :
  outline_invariant radius s ->
  out_y s <= out_x s ->
  outline_invariant radius (outline_step radius s)
  /\ out_x (outline_step radius s) - out_y (outline_step radius s)
     < out_x s - out_y s.
Proof.
  intros (Herr & Hdy & Hdx & Hy & Hx & Hb) Hguard.
  specialize (Hb Hguard). unfold outline_step, outline_invariant.
  rewrite Z.shiftl_mul_pow2 by lia. change (2 ^ 1) with 2.
  destruct (out_err s <=? 0) eqn:E1; [| apply Z.leb_gt in E1; lia].
  cbn [out_err out_x out_y out_dx out_dy].
  destruct (0 <? out_err s + out_dy s) eqn:E2;
    [apply Z.ltb_lt in E2 | apply Z.ltb_ge in E2];
    cbn [out_err out_x out_y out_dx out_dy];
    repeat split; try lia; try nia.
Qed.

Lemma outline_points_on_the_rim (centerX centerY radius : Z) (s : outline_state) :
  outline_invariant radius s ->
  out_y s <= out_x s ->
  Forall (on_the_rim centerX centerY radius)
         (outline_points centerX centerY (out_x s) (out_y s)).
Proof.
  intros (Herr & Hdy & Hdx & Hy & Hx & Hb) Hguard. specialize (Hb Hguard).
  unfold outline_points, on_the_rim.
  repeat constructor; cbn [fst snd]; nia.
Qed.

Lemma outline_loop_total (centerX centerY radius : Z) (fuel : nat) :
  forall s : outline_state,
    outline_invariant radius s ->
    out_x s - out_y s + 1 <= Z.of_nat fuel ->
    exists ps, outline_loop fuel centerX centerY radius s = Some ps
               /\ Forall (on_the_rim centerX centerY radius) ps.
Proof.
  induction fuel as [| fuel IH]; intros s Hinv Hfuel; cbn [outline_loop].
  - destruct (out_y s <=? out_x s) eqn:E; [apply Z.leb_le in E; lia |].
    exists []. split; [reflexivity | constructor].
  - destruct (out_y s <=? out_x s) eqn:E.
    + apply Z.leb_le in E.
      destruct (outline_step_invariant radius s Hinv E) as [Hinv' Hdec].
      destruct (IH (outline_step radius s) Hinv' ltac:(lia)) as (ps & -> & Hps).
      eexists. split; [reflexivity |].
      apply Forall_app. split; [| exact Hps].
      apply outline_points_on_the_rim; assumption.
    + exists []. split; [reflexivity | constructor].
Qed.

(** X19.  [drawCircleOutline] ends, and it draws a ring: for every centre
    and radius its loop finishes within [radius] iterations, and every point
    it draws lies between the circles of radius [radius - 1] and [radius]
    around the centre; so every point of the outline is one of the points
    [drawCircle] fills for the same centre and radius. *)
Theorem drawCircleOutline_is_a_ring (centerX centerY radius : Z) :
  exists ps,
    drawCircleOutline centerX centerY radius = Some ps
    /\ Forall (on_the_rim centerX centerY radius) ps
    /\ forall pt, In pt ps -> In pt (drawCircle centerX centerY radius).
Proof.
  assert (Hinv : outline_invariant radius (outline_start radius)).
  { unfold outline_invariant, outline_start.
    cbn [out_err out_x out_y out_dx out_dy].
    rewrite Z.shiftl_mul_pow2 by lia. change (2 ^ 1) with 2.
    repeat split; lia. }
  destruct (outline_loop_total centerX centerY radius (Z.to_nat radius)
              (outline_start radius) Hinv) as (ps & Hps & Hrim).
  { cbn [outline_start out_x out_y]. lia. }
  exists ps. split; [exact Hps |]. split; [exact Hrim |].
  intros [px py] Hin. rewrite Forall_forall in Hrim.
  apply list_elem_of_In in Hin.
  destruct (Hrim _ Hin) as (Hdisc & Hdx & Hdy). cbn [fst snd] in *.
  apply drawCircle_In. lia.
Qed.

End Circles.

(** ** How [main] starts and ends *)

Section StartAndEnd.
Context {F : Type} `{FloatArith F}.

(** X20.  [main] gives back what it took, on every path: whichever of the
    five initialisations fail, and whatever the loop does, each library
    resource taken by a successful initialisation is given back exactly
    once, in the reverse order of taking, nothing is given back that was not
    taken, and nothing is held when [main] returns.  The exit code is 0
    when all five succeeded and -1 otherwise, and a failure is reported
    before the clean-up. *)
Theorem main_releases_what_it_acquired (o : init_outcome)
    (inputs : list (list SDL_Event * (nat -> PointerSignal))) :
  (forall code, (main (F := F) o inputs).1.1 = Some code ->
     held_after o (main (F := F) o inputs).1.2 [] = Some []
     /\ (code = if all_ok o then 0 else -1))
  /\ (all_ok o = false ->
      (main (F := F) o inputs).1.1 = Some (-1)
      /\ (main (F := F) o inputs).2 = None
      /\ In report_error (main (F := F) o inputs).1.2)
  /\ (all_ok o = true ->
      (main (F := F) o inputs).2 = Some (main_loop inputs main_init)
      /\ ((main (F := F) o inputs).1.1 = Some 0
          <-> running (main_loop (F := F) inputs main_init) = false)).
Proof.
  unfold main, all_ok.
  destruct o as [[] [] [] [] []]; cbn;
    try (split; [intros code Hc; inversion Hc; split; reflexivity |];
         split; [intros _; repeat split; auto 10 using in_eq, in_cons
                | intros Hf; discriminate]).
  destruct (running (main_loop inputs main_init)) eqn:Erun; cbn.
  - split; [intros code Hc; discriminate |].
    split; [intros Hf; discriminate |].
    intros _. split; [reflexivity |]. split; intros Hc; discriminate.
  - split; [intros code Hc; inversion Hc; split; reflexivity |].
    split; [intros Hf; discriminate |].
    intros _. split; [reflexivity |]. split; reflexivity.
Qed.

End StartAndEnd.

(** ** The main loop over its iterations *)

Section LoopInvariant.
Context {F : Type} `{FloatArith F}.
Implicit Types st : LoopState F.

Lemma main_iteration_follows st (input : list SDL_Event * (nat -> PointerSignal)) :
  parameters_follow_knobs st -> parameters_follow_knobs (main_iteration st input).
Proof.
  intros (k0 & k1 & k2 & Hk & _ & _ & _ & Hp & Hb & Hi).
  destruct (main_iteration_knobs st input) as (Hks & Hd & _).
  unfold parameters_follow_knobs. rewrite Hks, Hd, Hk. cbn.
  eexists _, _, _. split; [reflexivity |].
  repeat split; assumption.
Qed.

(** X21.  The audio parameters always are the knob values: in every state
    the main loop reaches there are exactly three knobs, and frequency,
    phase offset and amplitude of the audio data equal the values of the
    first, second and third knob; the main loop never writes the phase, the
    ring buffer or its cursor. *)
Theorem parameters_always_follow_knobs
    (inputs : list (list SDL_Event * (nat -> PointerSignal))) :
  parameters_follow_knobs (main_loop (F := F) inputs main_init).
Proof.
  assert (Hgen : forall st, parameters_follow_knobs st ->
                   parameters_follow_knobs (main_loop inputs st)).
  { induction inputs as [| input inputs IH]; intros st Hst; simpl; [exact Hst |].
    destruct (running st); [| exact Hst].
    apply IH, main_iteration_follows. exact Hst. }
  apply Hgen. unfold parameters_follow_knobs.
  exists frequency_knob, phase_knob, amplitude_knob.
  repeat split; reflexivity.
Qed.

Lemma quit_is_not_a_mouse_event (evs : list SDL_Event) :
  existsb is_quit_event (other_events evs) = existsb is_quit_event evs.
Proof.
  unfold other_events. induction evs as [| e evs IH]; [reflexivity |].
  destruct e; simpl; rewrite ?IH; reflexivity.
Qed.

Lemma main_loop_stopped (inputs : list (list SDL_Event * (nat -> PointerSignal))) st :
  running st = false -> main_loop inputs st = st.
Proof. intros Hr. destruct inputs; simpl; [| rewrite Hr]; reflexivity. Qed.

(** X22.  Quitting ends the loop after the current iteration: when the
    events of an iteration contain a quit event or an Escape key press, the
    knobs are still updated in that iteration and no later input has any
    effect; without such an event the loop goes on to the next iteration.
    Once [running] is cleared nothing sets it again. *)
Theorem quit_ends_the_loop st
    (input : list SDL_Event * (nat -> PointerSignal))
    (rest : list (list SDL_Event * (nat -> PointerSignal))) :
  running st = true ->
  (existsb is_quit_event input.1 = true ->
   main_loop (input :: rest) st = main_iteration st input
   /\ running (main_loop (input :: rest) st) = false)
  /\ (existsb is_quit_event input.1 = false ->
      main_loop (input :: rest) st = main_loop rest (main_iteration st input)
      /\ running (main_iteration st input) = true)
  /\ (forall st', running st' = false ->
        running (main_loop (input :: rest) st') = false).
Proof.
  intros Hrun.
  destruct (main_iteration_knobs st input) as (_ & _ & Hr).
  rewrite quit_is_not_a_mouse_event, Hrun in Hr. simpl in Hr.
  split; [| split].
  - intros Hq. rewrite Hq in Hr. simpl. rewrite Hrun.
    rewrite main_loop_stopped by exact Hr. split; [reflexivity | exact Hr].
  - intros Hq. rewrite Hq in Hr. simpl. rewrite Hrun.
    split; [reflexivity | exact Hr].
  - intros st' Hst'. rewrite main_loop_stopped by exact Hst'. exact Hst'.
Qed.

End LoopInvariant.

(** ** The further properties at concrete inputs *)

Lemma drag_forgets_the_path_witness :
  Knob.isDragging pinched_frequency_knob = true
  /\ Knob.update (Knob.update pinched_frequency_knob 0 0 true) 150 (knobY - 50) true
     = Knob.update pinched_frequency_knob 150 (knobY - 50) true.
Proof.
  split; [reflexivity |].
  apply (drag_forgets_the_path pinched_frequency_knob 0 0 150 (knobY - 50) eq_refl).
Defined.

Lemma update_without_engagement_witness :
  Knob.isDragging (frequency_knob (F := spec_float)) = false
  /\ true && Knob.within_radius (frequency_knob (F := spec_float)) 0 0 = false
  /\ Knob.update (frequency_knob (F := spec_float)) 0 0 true = frequency_knob.
Proof.
  split; [reflexivity |]. split; [reflexivity |].
  exact (proj2 (proj2 (proj2 (proj2
           (update_without_engagement (frequency_knob (F := spec_float)) 0 0))))
           true eq_refl eq_refl).
Defined.

Lemma knob_value_stays_in_range_witness :
  (Knob.minValue (frequency_knob (F := Q)) <= Knob.value (frequency_knob (F := Q))
   <= Knob.maxValue (frequency_knob (F := Q)))%Q
  /\ (Knob.minValue (frequency_knob (F := Q))
      <= Knob.value (knob_run pinch_and_drag_far_up frequency_knob)
      <= Knob.maxValue (frequency_knob (F := Q)))%Q.
Proof.
  assert (Hv : (Knob.minValue (frequency_knob (F := Q))
                <= Knob.value (frequency_knob (F := Q))
                <= Knob.maxValue (frequency_knob (F := Q)))%Q) by q_concrete.
  split; [exact Hv |].
  exact (proj1 (knob_value_stays_in_range pinch_and_drag_far_up)
           frequency_knob Hv).
Defined.

Lemma program_knobs_span_their_range_witness :
  Knob.isDragging pinched_frequency_knob_binary32 = true
  /\ Knob.minValue pinched_frequency_knob_binary32 = of_int 50
  /\ Knob.maxValue pinched_frequency_knob_binary32 = of_int 2000
  /\ Knob.dragStartY pinched_frequency_knob_binary32 = of_int knobY
  /\ 100 <= knobY - (knobY - 100)
  /\ Knob.value (Knob.update pinched_frequency_knob_binary32 150 (knobY - 100) true)
     = Knob.maxValue pinched_frequency_knob_binary32.
Proof.
  assert (Hfar : 100 <= knobY - (knobY - 100)) by (vm_compute; discriminate).
  split; [reflexivity |]. split; [reflexivity |]. split; [reflexivity |].
  split; [reflexivity |]. split; [exact Hfar |].
  refine (proj1 (program_knobs_span_their_range pinched_frequency_knob_binary32
                   150 (knobY - 100) knobY eq_refl (or_introl (conj eq_refl eq_refl))
                   eq_refl _ _ eq_refl eq_refl eq_refl) Hfar);
    split; vm_compute; discriminate.
Defined.

Lemma drag_start_keeps_the_value_witness :
  Knob.isDragging (frequency_knob (F := spec_float)) = false
  /\ Knob.within_radius (frequency_knob (F := spec_float)) 150 knobY = true
  /\ - 2147483648 <= knobY <= 2147483647
  /\ (Knob.minValue (frequency_knob (F := spec_float))
      [<=] Knob.value (frequency_knob (F := spec_float))) = true
  /\ (Knob.value (frequency_knob (F := spec_float))
      [<=] Knob.maxValue (frequency_knob (F := spec_float))) = true
  /\ SFeqb (Knob.value (Knob.update (frequency_knob (F := spec_float)) 150 knobY true))
           (Knob.value (frequency_knob (F := spec_float))) = true.
Proof.
  assert (Hidle : Knob.isDragging (frequency_knob (F := spec_float)) = false)
    by reflexivity.
  assert (Hin : Knob.within_radius (frequency_knob (F := spec_float)) 150 knobY = true)
    by reflexivity.
  assert (Hy : - 2147483648 <= knobY <= 2147483647)
    by (split; vm_compute; discriminate).
  assert (Hlo : (Knob.minValue (frequency_knob (F := spec_float))
                 [<=] Knob.value (frequency_knob (F := spec_float))) = true)
    by reflexivity.
  assert (Hhi : (Knob.value (frequency_knob (F := spec_float))
                 [<=] Knob.maxValue (frequency_knob (F := spec_float))) = true)
    by reflexivity.
  split; [exact Hidle |]. split; [exact Hin |]. split; [exact Hy |].
  split; [exact Hlo |]. split; [exact Hhi |].
  apply (drag_start_keeps_the_value frequency_knob 150 knobY Hidle Hin Hy
           eq_refl eq_refl eq_refl eq_refl Hlo Hhi).
Defined.

Lemma callback_output_is_stereo_witness :
  0 <= FRAMES_PER_BUFFER
  /\ length (outputs (sawtoothCallback (SawtoothData_init (F := spec_float))
                                       FRAMES_PER_BUFFER).2)
     = Z.to_nat (2 * FRAMES_PER_BUFFER).
Proof.
  assert (HN : 0 <= FRAMES_PER_BUFFER) by (vm_compute; discriminate).
  split; [exact HN |].
  apply (callback_output_is_stereo SawtoothData_init FRAMES_PER_BUFFER HN).
Defined.

Lemma callback_store_count_witness :
  buffer_ok (SawtoothData_init (F := spec_float))
  /\ 0 <= FRAMES_PER_BUFFER
  /\ Z.of_nat (length (buffer_stores
       (sawtoothCallback (SawtoothData_init (F := spec_float)) FRAMES_PER_BUFFER).2))
     = (FRAMES_PER_BUFFER + 3) / 4.
Proof.
  assert (HN : 0 <= FRAMES_PER_BUFFER) by (vm_compute; discriminate).
  split; [exact SawtoothData_init_ok |]. split; [exact HN |].
  apply (callback_store_count SawtoothData_init FRAMES_PER_BUFFER
           SawtoothData_init_ok HN).
Defined.

Lemma callbacks_compose_witness :
  0 <= 64
  /\ 0 <= FRAMES_PER_BUFFER
  /\ (sawtoothCallback
        (sawtoothCallback (SawtoothData_init (F := spec_float)) (4 * 64)).1
        FRAMES_PER_BUFFER).1
     = (sawtoothCallback (SawtoothData_init (F := spec_float))
                         (4 * 64 + FRAMES_PER_BUFFER)).1.
Proof.
  assert (Hk : 0 <= 64) by (vm_compute; discriminate).
  assert (HM : 0 <= FRAMES_PER_BUFFER) by (vm_compute; discriminate).
  split; [exact Hk |]. split; [exact HM |].
  apply (callbacks_compose SawtoothData_init 64 FRAMES_PER_BUFFER Hk HM).
Defined.

Lemma callback_samples_within_amplitude_witness :
  generator_ok quarter_phase_data
  /\ Forall (within_amplitude (amplitude quarter_phase_data))
            (outputs (sawtoothCallback quarter_phase_data 4).2).
Proof.
  assert (Hok : generator_ok quarter_phase_data) by (repeat split; reflexivity).
  split; [exact Hok |].
  destruct Hok as ((Hp & Hf & Hu & Hf0 & Hf1) & Ho & Ha & Ho1 & Ho2).
  apply (callback_samples_within_amplitude quarter_phase_data 4
           Hp Hf Ho Ha Hu Hf0 Hf1 Ho1 Ho2).
Defined.

Lemma snapshot_is_sliding_window_witness :
  buffer_ok (SawtoothData_init (F := spec_float))
  /\ snapshot (write_all [B32.of_Z 1; B32.of_Z 2] SawtoothData_init)
     = drop 2 (snapshot (SawtoothData_init (F := spec_float))
               ++ [B32.of_Z 1; B32.of_Z 2]).
Proof.
  split; [exact SawtoothData_init_ok |].
  apply (snapshot_is_sliding_window [B32.of_Z 1; B32.of_Z 2] SawtoothData_init
           SawtoothData_init_ok).
Defined.

Lemma drawWaveform_draws_the_snapshot_witness :
  drawWaveform (SawtoothData_init (F := spec_float)) !! 0%nat = Some (0, 240, 1, 240)
  /\ drawWaveform (SawtoothData_init (F := spec_float)) !! 1%nat = Some (1, 240, 2, 240)
  /\ ((0, 240, 1, 240).1.2, (0, 240, 1, 240).2)
     = ((1, 240, 2, 240).1.1.1, (1, 240, 2, 240).1.1.2).
Proof.
  assert (H0 : drawWaveform (SawtoothData_init (F := spec_float)) !! 0%nat
               = Some (0, 240, 1, 240)) by reflexivity.
  assert (H1 : drawWaveform (SawtoothData_init (F := spec_float)) !! 1%nat
               = Some (1, 240, 2, 240)) by reflexivity.
  split; [exact H0 |]. split; [exact H1 |].
  exact (proj2 (proj2 (drawWaveform_draws_the_snapshot SawtoothData_init))
           0%nat _ _ H0 H1).
Defined.

Lemma waveform_stays_in_its_area_witness :
  buffer_ok (SawtoothData_init (F := spec_float))
  /\ Forall (fun v => binary32 v = true
                      /\ (of_int (-1) [<=] v) = true /\ (v [<=] of_int 1) = true)
            (waveBuffer (SawtoothData_init (F := spec_float)))
  /\ Forall (fun s : Z * Z * Z * Z =>
               0 <= s.1.1.1 <= 999 /\ 0 <= s.1.2 <= 999
               /\ 48 <= s.1.1.2 <= 432 /\ 48 <= s.2 <= 432)
            (drawWaveform (SawtoothData_init (F := spec_float))).
Proof.
  assert (Hall : Forall (fun v => binary32 v = true
                                  /\ (of_int (-1) [<=] v) = true
                                  /\ (v [<=] of_int 1) = true)
                        (waveBuffer (SawtoothData_init (F := spec_float))))
    by (apply Forall_replicate; repeat split; reflexivity).
  split; [exact SawtoothData_init_ok |]. split; [exact Hall |].
  apply (waveform_stays_in_its_area SawtoothData_init SawtoothData_init_ok Hall).
Defined.

Lemma datagram_tail_is_ignored_witness :
  (63 <= String.length long_datagram)%nat
  /\ udp_receive PointerSignal_init (long_datagram ++ "999")
     = udp_receive PointerSignal_init long_datagram.
Proof.
  assert (Hlong : (63 <= String.length long_datagram)%nat) by (vm_compute; lia).
  split; [exact Hlong |].
  exact (proj2 (datagram_tail_is_ignored PointerSignal_init long_datagram "999")
           Hlong).
Defined.

Lemma printed_reading_is_read_back_witness :
  is_int (-120)
  /\ is_int 45
  /\ (String.length (packet (-120) 45 true) <= 63)%nat
  /\ udp_receive PointerSignal_init (packet (-120) 45 true)
     = {| handX := -120; handY := 45; handPinch := true |}.
Proof.
  assert (Hx : is_int (-120)) by (split; vm_compute; congruence).
  assert (Hy : is_int 45) by (split; vm_compute; congruence).
  assert (Hlen : (String.length (packet (-120) 45 true) <= 63)%nat)
    by (vm_compute; lia).
  split; [exact Hx |]. split; [exact Hy |]. split; [exact Hlen |].
  apply (printed_reading_is_read_back PointerSignal_init (-120) 45 true Hx Hy Hlen).
Defined.

Lemma main_releases_what_it_acquired_witness :
  (main (F := spec_float) renderer_fails []).1.1 = Some (-1)
  /\ held_after renderer_fails (main (F := spec_float) renderer_fails []).1.2 []
     = Some []
  /\ -1 = (if all_ok renderer_fails then 0 else -1).
Proof.
  assert (Hc : (main (F := spec_float) renderer_fails []).1.1 = Some (-1))
    by reflexivity.
  split; [exact Hc |].
  exact (proj1 (main_releases_what_it_acquired renderer_fails []) (-1) Hc).
Defined.

Lemma quit_ends_the_loop_witness :
  running (main_init (F := spec_float)) = true
  /\ existsb is_quit_event quit_while_pinching.1 = true
  /\ main_loop [quit_while_pinching; quit_while_pinching] (main_init (F := spec_float))
     = main_iteration main_init quit_while_pinching.
Proof.
  split; [reflexivity |]. split; [reflexivity |].
  apply (proj1 (quit_ends_the_loop (main_init (F := spec_float))
                  quit_while_pinching [quit_while_pinching] eq_refl) eq_refl).
Defined.
